(** * repomap: exclusion, traversal, selection and digest composition

    A shallow embedding of the Python sources

      - [file_handler.py]        (class [FileHandler])
      - [token_counter.py]       (class [TokenCounter])
      - [markdown_generator.py]  (class [MarkdownGenerator])
      - [main.py]                (class [MainApplication])

    Strings are byte strings ([string]); Python sets are [gset]s, the
    tree widget is a [gmap] from item identifiers to items.  Operating
    system services ([os.path.realpath], [os.listdir], [open], ...) and
    the tokenizer are fields of a record [OS] that every function takes
    as its first argument. *)

From Stdlib Require Import Ascii String ZArith List Bool Lia.
From stdpp Require Import base tactics option list sorting gmap strings.

Local Open Scope Z_scope.
Local Open Scope stdpp_scope.

(** ** Python string primitives *)

Module PyStr.

(** [s.replace(a, b)] for single characters. *)
Fixpoint replace_char (a b : ascii) (s : string) : string :=
  match s with
  | EmptyString => EmptyString
  | String c s' =>
      String (if Ascii.eqb c a then b else c) (replace_char a b s')
  end.

(** [s.split(sep)] for a one-character separator: never returns the
    empty list, [''.split('/') == ['']]. *)
Fixpoint split (sep : ascii) (s : string) : list string :=
  match s with
  | EmptyString => [EmptyString]
  | String c s' =>
      if Ascii.eqb c sep then EmptyString :: split sep s'
      else match split sep s' with
           | [] => [String c EmptyString]
           | w :: ws => String c w :: ws
           end
  end.

(** [s.startswith(p)]. *)
Fixpoint startswith (s p : string) {struct p} : bool :=
  match p, s with
  | EmptyString, _ => true
  | String _ _, EmptyString => false
  | String a p', String b s' => Ascii.eqb a b && startswith s' p'
  end.

(** [s.endswith(p)]. *)
Definition endswith (s p : string) : bool :=
  startswith (String.rev s) (String.rev p).

(** [p in s] on strings: substring test. *)
Fixpoint contains (s p : string) : bool :=
  startswith s p ||
  match s with
  | EmptyString => false
  | String _ s' => contains s' p
  end.

(** [s.lower()], on the ASCII letters. *)
Definition lower_char (c : ascii) : ascii :=
  let n := N_of_ascii c in
  if (N.leb 65 n && N.leb n 90)%N then ascii_of_N (n + 32) else c.

Fixpoint lower (s : string) : string :=
  match s with
  | EmptyString => EmptyString
  | String c s' => String (lower_char c) (lower s')
  end.

(** [s.strip()]: leading and trailing white space removed. *)
Fixpoint lstrip (s : string) : string :=
  match s with
  | String c s' => if Ascii.is_space c then lstrip s' else s
  | EmptyString => EmptyString
  end.

Definition strip (s : string) : string :=
  String.rev (lstrip (String.rev (lstrip s))).

(** [any(f(x) for x in l)] and truthiness of a list. *)
Definition any {A} (f : A -> bool) (l : list A) : bool := existsb f l.

Definition truthy {A} (l : list A) : bool :=
  match l with [] => false | _ => true end.

Definition nonempty (s : string) : bool :=
  match s with EmptyString => false | _ => true end.

(** [''.join(l)]. *)
Definition concat (l : list string) : string :=
  fold_right String.append EmptyString l.

(** [sep.join(l)]. *)
Fixpoint join (sep : string) (l : list string) : string :=
  match l with
  | [] => EmptyString
  | [x] => x
  | x :: l' => x +:+ sep +:+ join sep l'
  end.

End PyStr.

(** ** Operating system and tokenizer services *)

(** Python exception classes that the sources tell apart. *)
Inductive exn_class : Type :=
| PermissionError
| FileNotFoundError
| OSError          (* also [IOError], its alias *)
| UnicodeDecodeError
| ValueError
| RecursionError
| TclError
| IndexError
| OtherException.

(** [isinstance(e, OSError)] *)
Definition is_OSError (c : exn_class) : bool :=
  match c with
  | PermissionError | FileNotFoundError | OSError => true
  | _ => false
  end.

(** Outcome of a call that may raise: the value, or the exception with
    its class and its text ([str(e)]). *)
Inductive outcome (A : Type) : Type :=
| Returns (a : A)
| Raises (c : exn_class) (msg : string).
Arguments Returns {A} a.
Arguments Raises {A} c msg.

Record OS : Type := {
  (** [os.path.realpath] *)
  realpath : string -> outcome string;
  (** [os.path.normpath] *)
  normpath : string -> string;
  (** [os.path.join] *)
  path_join : string -> string -> string;
  (** [os.path.relpath path start] *)
  relpath : string -> string -> outcome string;
  (** [os.path.dirname], [os.path.basename] *)
  dirname : string -> string;
  basename : string -> string;
  (** [os.path.splitext(p)[1]] *)
  splitext_ext : string -> string;
  (** [os.path.commonpath] *)
  commonpath : list string -> outcome string;
  (** [os.listdir] *)
  listdir : string -> outcome (list string);
  (** [os.scandir]: the [(entry.name, entry.is_dir())] pairs *)
  scandir : string -> outcome (list (string * bool));
  (** [os.path.islink], [os.path.isdir], [os.path.isfile], [os.path.exists] *)
  islink : string -> bool;
  isdir : string -> bool;
  isfile : string -> bool;
  path_exists : string -> bool;
  (** [os.walk(top)]: the [(root, filenames)] pairs, in walk order *)
  walk : string -> list (string * list string);
  (** [open(p, 'rb').read()]: the bytes of the file *)
  read_bytes : string -> outcome (list Z);
  (** [open(p, 'r', encoding='utf-8').read()] *)
  read_text : string -> outcome string;
  (** [open(p, 'r', encoding='utf-8').read(1024)] *)
  read_text_1k : string -> outcome string;
  (** [mimetypes.guess_extension(mimetypes.guess_type(p)[0] or '') or ''] *)
  guess_extension : string -> string;
  (** [len(tiktoken.get_encoding("cl100k_base").encode(text))];
      [encode] raises on a text that holds a special token *)
  count_tokens : string -> outcome nat
}.

(** ** file_handler.py *)

Module FileHandler.

(** [DEFAULT_EXCLUDE_PATTERNS] *)
Definition DEFAULT_EXCLUDE_PATTERNS : gset string :=
  list_to_set
    [ "node_modules"; "venv"; "myenv"; ".venv"; "__pycache__"; ".git";
      ".idea"; ".vs"; ".vscode"; "dist"; "build"; "target"; "vendor";
      ".pytest_cache"; ".mypy_cache"; ".next"; "coverage"; "env"; ".env";
      ".env.local"; ".gitignore" ].

(** The two attributes of a [FileHandler] object. *)
Record t : Type := mk {
  exclude_patterns : gset string;
  visited_paths : gset string
}.

(** [__init__(exclude_patterns=None)] *)
Definition init (pats : option (gset string)) : t :=
  {| exclude_patterns := from_option id DEFAULT_EXCLUDE_PATTERNS pats;
     visited_paths := ∅ |}.

(** [is_safe_path]: the body of the [try], with the exception of
    [os.path.realpath] still visible. *)
Definition is_safe_path_try (os : OS) (self : t) (path : string)
  : outcome bool * t :=
  match realpath os path with
  | Raises c msg => (Raises c msg, self)
  | Returns real_path =>
      if bool_decide (real_path ∈ visited_paths self)
      then (Returns false, self)
      else (Returns true,
            {| exclude_patterns := exclude_patterns self;
               visited_paths := {[real_path]} ∪ visited_paths self |})
  end.

(** [is_safe_path]: [try: ... except Exception: return False]. *)
Definition is_safe_path (os : OS) (self : t) (path : string)
  : outcome bool * t :=
  match is_safe_path_try os self path with
  | (Raises _ _, self') => (Returns false, self')
  | r => r
  end.

(** [clear_visited_paths] *)
Definition clear_visited_paths (self : t) : t :=
  {| exclude_patterns := exclude_patterns self; visited_paths := ∅ |}.

(** [should_exclude] *)
Definition should_exclude (self : t) (path : string) : bool :=
  let path_parts :=
    PyStr.split "/" (PyStr.replace_char "\" "/" path) in
  PyStr.any (fun part => bool_decide (part ∈ exclude_patterns self))
            path_parts.

(** The extension test of [get_files] (line 114): the file is kept
    unless [extensions and not any(filename.endswith(ext) ...)]. *)
Definition get_files_keeps (extensions : list string) (filename : string)
  : bool :=
  negb (PyStr.truthy extensions &&
        negb (PyStr.any (fun ext => PyStr.endswith filename ext) extensions)).

End FileHandler.

(** ** Path components, as the specification words them *)

Definition is_sep (c : ascii) : bool :=
  Ascii.eqb c "/" || Ascii.eqb c "\".

Fixpoint sep_free (s : string) : Prop :=
  match s with
  | EmptyString => True
  | String c s' => is_sep c = false ∧ sep_free s'
  end.

(** The text before a component is empty or ends with a separator. *)
Definition left_boundary (pre : string) : Prop :=
  pre = EmptyString ∨
  ∃ pre' c, is_sep c = true ∧ pre = pre' +:+ String c EmptyString.

(** The text after a component is empty or starts with a separator. *)
Definition right_boundary (post : string) : Prop :=
  post = EmptyString ∨ ∃ c post', is_sep c = true ∧ post = String c post'.

(** The parts [should_exclude] looks at. *)
Definition path_parts (p : string) : list string :=
  PyStr.split "/" (PyStr.replace_char "\" "/" p).

(** [comp] is one of the components of [p]: a maximal separator-free
    stretch of [p] (possibly empty, as between two adjacent separators). *)
Definition path_component (comp p : string) : Prop :=
  sep_free comp ∧
  ∃ pre post, p = pre +:+ comp +:+ post ∧
              left_boundary pre ∧ right_boundary post.

(** ** Python built-ins shared by the modules *)

(** [sorted(l, key=...)]: a stable sort; [le x y] compares the keys. *)
Fixpoint insert_by {A} (le : A -> A -> bool) (x : A) (l : list A) : list A :=
  match l with
  | [] => [x]
  | y :: l' => if le x y then x :: l else y :: insert_by le x l'
  end.

Fixpoint sorted_by {A} (le : A -> A -> bool) (l : list A) : list A :=
  match l with
  | [] => []
  | x :: l' => insert_by le x (sorted_by le l')
  end.

(** [sorted(items)] on a list of strings. *)
Definition sorted (l : list string) : list string := sorted_by String.leb l.

Definition nl : string := String "010"%char EmptyString.

(** ** token_counter.py *)

Module TokenCounter.

(** [BINARY_EXTENSIONS] *)
Definition BINARY_EXTENSIONS : gset string :=
  list_to_set
    [ ".woff"; ".woff2"; ".ttf"; ".eot"; ".otf";
      ".jpg"; ".jpeg"; ".png"; ".gif"; ".bmp"; ".ico"; ".webp";
      ".pdf"; ".doc"; ".docx";
      ".zip"; ".rar"; ".7z"; ".tar"; ".gz";
      ".exe"; ".dll"; ".so"; ".dylib";
      ".pyc"; ".pyo" ].

(** [{7,8,9,10,12,13,27} | set(range(0x20, 0x100)) - {0x7f}]; the
    difference binds tighter than the union. *)
Definition textchars : gset Z :=
  list_to_set [7; 8; 9; 10; 12; 13; 27]
  ∪ (list_to_set (seqZ 0x20 (0x100 - 0x20)) ∖ {[ 0x7f ]}).

(** [chunk.translate(None, textchars)]: the bytes of [chunk] that
    are not in [textchars]. *)
Definition translate_delete (chunk : list Z) (delete : gset Z) : list Z :=
  List.filter (fun b => negb (bool_decide (b ∈ delete))) chunk.

(** [is_binary_file] *)
Definition is_binary_file (os : OS) (filepath : string) : bool :=
  let ext := guess_extension os filepath in
  if bool_decide (PyStr.lower ext ∈ BINARY_EXTENSIONS) then true
  else
    match read_bytes os filepath with
    | Raises _ _ => true
    | Returns content =>
        let chunk := take 1024 content in
        PyStr.truthy (translate_delete chunk textchars)
    end.

(** [count_tokens_in_file] *)
Definition count_tokens_in_file (os : OS) (filepath : string) : outcome nat :=
  if is_binary_file os filepath then Returns 0%nat
  else
    match read_text os filepath with
    | Returns content =>
        match count_tokens os content with
        | Returns tokens => Returns tokens
        | Raises _ msg =>
            Raises OSError
              ("Failed to count tokens in file '" +:+ filepath +:+ "': "
               +:+ msg)
        end
    | Raises _ msg =>
        Raises OSError
          ("Failed to count tokens in file '" +:+ filepath +:+ "': " +:+ msg)
    end.

End TokenCounter.

(** ** markdown_generator.py *)

Module MarkdownGenerator.

Definition extension_map : list (string * string) :=
  [ (".py", "python"); (".js", "javascript"); (".html", "html");
    (".css", "css"); (".md", "markdown"); (".json", "json");
    (".xml", "xml"); (".sql", "sql"); (".sh", "bash"); (".cpp", "cpp");
    (".c", "c"); (".java", "java") ].

Fixpoint dict_get (d : list (string * string)) (k dflt : string) : string :=
  match d with
  | [] => dflt
  | (k', v) :: d' => if String.eqb k' k then v else dict_get d' k dflt
  end.

(** [get_language_identifier] *)
Definition get_language_identifier (os : OS) (filename : string) : string :=
  let ext := splitext_ext os filename in
  dict_get extension_map (PyStr.lower ext) "".

(** The sort key of [add_directory_to_tree]:
    [(not e.is_dir(), e.name.lower())], compared as a tuple. *)
Definition entry_key_le (e1 e2 : string * bool) : bool :=
  let '(n1, d1) := e1 in
  let '(n2, d2) := e2 in
  if Bool.eqb (negb d1) (negb d2)
  then String.leb (PyStr.lower n1) (PyStr.lower n2)
  else d1.

(** [exclude_patterns and any(p in rel_path for p in exclude_patterns)] *)
Definition tree_skips (exclude_patterns : option (gset string))
    (rel_path : string) : bool :=
  match exclude_patterns with
  | None => false
  | Some pats =>
      PyStr.truthy (elements pats) &&
      PyStr.any (fun p => PyStr.contains rel_path p) (elements pats)
  end.

(** [add_directory_to_tree], the local function of
    [generate_directory_tree].  [tree_lines] is the list the closure
    appends to; it is returned also when the call raises.  [depth] is
    the number of nested calls the interpreter still allows. *)
Fixpoint add_directory_to_tree (depth : nat) (os : OS) (root_dir : string)
    (exclude_patterns : option (gset string))
    (dir_path prefix : string) (tree_lines : list string) {struct depth}
  : outcome unit * list string :=
  match depth with
  | O => (Raises RecursionError "maximum recursion depth exceeded", tree_lines)
  | S depth' =>
    match scandir os dir_path with
    | Raises c msg => (Raises c msg, tree_lines)
    | Returns raw =>
      let entries := sorted_by entry_key_le raw in
      let total_entries := length entries in
      (fix loop (i : nat) (es : list (string * bool)) (tree_lines : list string)
         : outcome unit * list string :=
         match es with
         | [] => (Returns tt, tree_lines)
         | (name, entry_is_dir) :: es' =>
           let is_last := Nat.eqb i (total_entries - 1) in
           let entry_path := path_join os dir_path name in
           match relpath os entry_path root_dir with
           | Raises c msg => (Raises c msg, tree_lines)
           | Returns rel_path =>
             if tree_skips exclude_patterns rel_path
             then loop (S i) es' tree_lines
             else
               let connector := if is_last then "└── " else "├── " in
               if entry_is_dir then
                 let tree_lines :=
                   tree_lines ++ [prefix +:+ connector +:+ "📂 " +:+ name] in
                 let new_prefix :=
                   prefix +:+ (if is_last then "    " else "│   ") in
                 let tree_lines :=
                   match add_directory_to_tree depth' os root_dir
                           exclude_patterns entry_path new_prefix tree_lines with
                   | (Returns _, tl) => tl
                   | (Raises PermissionError _, tl) =>
                       tl ++ [new_prefix +:+ "├── ⚠️ Permission denied"]
                   | (Raises _ msg, tl) =>
                       tl ++ [new_prefix +:+ "├── ⚠️ Error: " +:+ msg]
                   end in
                 loop (S i) es' tree_lines
               else
                 loop (S i) es' (tree_lines ++ [prefix +:+ connector +:+ name])
           end
         end) O entries tree_lines
    end
  end.

(** [a or b or c] on strings. *)
Definition str_or (a b : string) : string :=
  if PyStr.nonempty a then a else b.

(** The lines of [generate_directory_tree], before the final join. *)
Definition directory_tree_lines (depth : nat) (os : OS) (root_dir : string)
    (exclude_patterns : option (gset string)) : list string :=
  let root_name :=
    str_or (basename os root_dir)
           (str_or (basename os (dirname os root_dir)) root_dir) in
  let tree_lines :=
    [ "# Repository Structure" +:+ nl; "```"; "📦 " +:+ root_name ] in
  let tree_lines :=
    match add_directory_to_tree depth os root_dir exclude_patterns
            root_dir "" tree_lines with
    | (Returns _, tl) => tl
    | (Raises _ msg, tl) =>
        tl ++ ["⚠️ Error generating complete tree: " +:+ msg]
    end in
  tree_lines ++ ["```" +:+ nl].

(** [generate_directory_tree] *)
Definition generate_directory_tree (depth : nat) (os : OS) (root_dir : string)
    (exclude_patterns : option (gset string)) : string :=
  PyStr.join nl (directory_tree_lines depth os root_dir exclude_patterns).

(** The [while] loop that looks for the repository root.  [n] bounds
    the number of iterations: [os.path.dirname] returns its argument
    or a shorter string, so the loop runs at most once per character. *)
Fixpoint find_repo_root (n : nat) (os : OS) (repo_root : string) : string :=
  match n with
  | O => repo_root
  | S n' =>
      if PyStr.nonempty repo_root &&
         negb (path_exists os (path_join os repo_root ".git"))
      then
        let parent := dirname os repo_root in
        if String.eqb parent repo_root then repo_root
        else find_repo_root n' os parent
      else repo_root
  end.

(** What one iteration of the [for file_path in file_paths] loop
    writes to the buffer; [None] for a directory, which is skipped. *)
Definition file_section (os : OS) (common_prefix file_path : string)
  : outcome (option string) :=
  if isdir os file_path then Returns None
  else
    match relpath os file_path common_prefix with
    | Raises c msg => Raises c msg
    | Returns rel_path =>
        let language := get_language_identifier os file_path in
        let header := "# " +:+ rel_path +:+ nl +:+ nl in
        match read_text os file_path with
        | Returns content =>
            Returns (Some (header +:+ "```" +:+ language +:+ nl +:+
                           content +:+ nl +:+ "```" +:+ nl +:+ nl))
        | Raises _ msg =>
            Returns (Some (header +:+ "Error reading file - " +:+ rel_path
                           +:+ ": " +:+ msg +:+ nl +:+ nl))
        end
    end.

(** The [for] loop over [file_paths], writing to [buffer]. *)
Fixpoint write_files (os : OS) (common_prefix : string)
    (file_paths : list string) (buffer : string) : outcome string :=
  match file_paths with
  | [] => Returns buffer
  | file_path :: rest =>
      match file_section os common_prefix file_path with
      | Raises c msg => Raises c msg
      | Returns None => write_files os common_prefix rest buffer
      | Returns (Some text) =>
          write_files os common_prefix rest (buffer +:+ text)
      end
  end.

(** The body of the [try] of [generate_markdown_to_string].
    [exclude_patterns] is [getattr(self, 'exclude_patterns', None)]. *)
Definition generate_markdown_to_string_try (depth : nat) (os : OS)
    (exclude_patterns : option (gset string)) (file_paths : list string)
  : outcome string :=
  let roots :=
    if PyStr.truthy file_paths then
      match commonpath os (map (dirname os) file_paths) with
      | Raises c msg => Raises c msg
      | Returns common_prefix =>
          let repo_root :=
            find_repo_root (S (String.length common_prefix)) os common_prefix in
          let repo_root :=
            if negb (path_exists os (path_join os repo_root ".git"))
            then common_prefix else repo_root in
          Returns (common_prefix, repo_root)
      end
    else Returns ("", "") in
  match roots with
  | Raises c msg => Raises c msg
  | Returns (common_prefix, repo_root) =>
      let buffer := "" in
      let buffer :=
        if PyStr.nonempty repo_root then
          buffer +:+ generate_directory_tree depth os repo_root exclude_patterns
                 +:+ (nl +:+ nl +:+ "# Selected Files" +:+ nl +:+ nl)
        else buffer in
      write_files os common_prefix file_paths buffer
  end.

(** [generate_markdown_to_string]: [(success, content_or_error_message)]. *)
Definition generate_markdown_to_string (depth : nat) (os : OS)
    (exclude_patterns : option (gset string)) (file_paths : list string)
  : bool * string :=
  match generate_markdown_to_string_try depth os exclude_patterns file_paths with
  | Returns markdown_content => (true, markdown_content)
  | Raises _ msg => (false, "Failed to generate markdown: " +:+ msg)
  end.

End MarkdownGenerator.

(** ** The [ttk.Treeview] widget *)

Module Tk.

(** Item identifiers: the strings the application passes as [iid]
    (a path, or [''] for the root item), and the identifiers the
    widget generates itself ([I001], [I002], ...), kept apart. *)
Abbreviation iid := (string + nat)%type.

Definition root : iid := inl "".

Inductive tag : Type :=
| Folder | File | Excluded | Binary | Error | Dummy | Symlink.

Global Instance tag_eq_dec : EqDecision tag.
Proof. solve_decision. Defined.

(** One entry of [values]: a string or a number. *)
Inductive cell : Type :=
| CStr (s : string)
| CInt (n : nat).

Global Instance cell_eq_dec : EqDecision cell.
Proof. solve_decision. Defined.

Record item : Type := mk_item {
  text : string;
  values : list cell;
  tags : list tag;
  is_open : bool;
  children : list iid
}.

Record treeview : Type := mk_tree {
  items : gmap iid item;
  serial : nat
}.

Definition empty : treeview :=
  {| items := {[ root := mk_item "" [] [] true [] ]}; serial := 0 |}.

Definition hex_digit (n : nat) : ascii :=
  match n with
  | 0 => "0" | 1 => "1" | 2 => "2" | 3 => "3" | 4 => "4" | 5 => "5"
  | 6 => "6" | 7 => "7" | 8 => "8" | 9 => "9" | 10 => "A" | 11 => "B"
  | 12 => "C" | 13 => "D" | 14 => "E" | _ => "F"
  end%nat%char.

Fixpoint hex_go (fuel n : nat) (acc : string) : string :=
  match fuel with
  | O => acc
  | S fuel' =>
      let acc' := String (hex_digit (n mod 16)) acc in
      if Nat.eqb (n / 16) 0 then acc' else hex_go fuel' (n / 16) acc'
  end.

(** The name of a generated identifier: [sprintf("I%03X", n)]. *)
Definition auto_name (n : nat) : string :=
  let h := hex_go (S n) n "" in
  "I" +:+ (match String.length h with
           | 1%nat => "00" | 2%nat => "0" | _ => ""
           end) +:+ h.

(** The identifier as the string Python sees. *)
Definition iid_str (i : iid) : string :=
  match i with
  | inl s => s
  | inr n => auto_name n
  end.

Definition no_such_item (i : iid) : string :=
  "Item " +:+ iid_str i +:+ " not found".

(** [tree.item(i)] *)
Definition item_of (tv : treeview) (i : iid) : outcome item :=
  match items tv !! i with
  | Some it => Returns it
  | None => Raises TclError (no_such_item i)
  end.

(** [tree.get_children(i)] *)
Definition get_children (tv : treeview) (i : iid) : outcome (list iid) :=
  match items tv !! i with
  | Some it => Returns (children it)
  | None => Raises TclError (no_such_item i)
  end.

Definition add_child (c : iid) (it : item) : item :=
  mk_item (text it) (values it) (tags it) (is_open it) (children it ++ [c]).

Definition remove_child (c : iid) (it : item) : item :=
  mk_item (text it) (values it) (tags it) (is_open it)
          (List.filter (fun x => negb (bool_decide (x = c))) (children it)).

(** [tree.insert(parent, tk.END, iid=..., text=..., values=..., tags=...)] *)
Definition insert (tv : treeview) (parent : iid) (id : option string)
    (txt : string) (vals : list cell) (tgs : list tag)
  : outcome iid * treeview :=
  match items tv !! parent with
  | None => (Raises TclError (no_such_item parent), tv)
  | Some _ =>
      match id with
      | Some s =>
          match items tv !! inl s with
          | Some _ => (Raises TclError ("Item " +:+ s +:+ " already exists"), tv)
          | None =>
              (Returns (inl s),
               {| items := alter (add_child (inl s)) parent
                             (<[ inl s := mk_item txt vals tgs false [] ]> (items tv));
                  serial := serial tv |})
          end
      | None =>
          let n := S (serial tv) in
          (Returns (inr n),
           {| items := alter (add_child (inr n)) parent
                         (<[ inr n := mk_item txt vals tgs false [] ]> (items tv));
              serial := n |})
      end
  end.

(** The items of the subtree of [i] removed from the map. *)
Fixpoint delete_subtree (fuel : nat) (m : gmap iid item) (i : iid)
  : gmap iid item :=
  match m !! i with
  | None => m
  | Some it =>
      match fuel with
      | O => delete i m
      | S fuel' => fold_left (delete_subtree fuel') (children it) (delete i m)
      end
  end.

(** [tree.delete(i)]: the item and its descendants go, and the parent
    forgets the item. *)
Definition delete (tv : treeview) (i : iid) : outcome unit * treeview :=
  if bool_decide (i = root) then (Raises TclError "Cannot delete root item", tv)
  else
    match items tv !! i with
    | None => (Raises TclError (no_such_item i), tv)
    | Some _ =>
        (Returns tt,
         {| items := remove_child i <$> delete_subtree (size (items tv)) (items tv) i;
            serial := serial tv |})
    end.

(** [tree.item(i, text=...)] *)
Definition set_text (tv : treeview) (i : iid) (txt : string)
  : outcome unit * treeview :=
  match items tv !! i with
  | None => (Raises TclError (no_such_item i), tv)
  | Some it =>
      (Returns tt,
       {| items := <[ i := mk_item txt (values it) (tags it) (is_open it)
                             (children it) ]> (items tv);
          serial := serial tv |})
  end.

(** [tree.item(i, open=...)] *)
Definition set_open (tv : treeview) (i : iid) (o : bool)
  : outcome unit * treeview :=
  match items tv !! i with
  | None => (Raises TclError (no_such_item i), tv)
  | Some it =>
      (Returns tt,
       {| items := <[ i := mk_item (text it) (values it) (tags it) o
                             (children it) ]> (items tv);
          serial := serial tv |})
  end.

(** [tree.item(i, values=...)] *)
Definition set_values (tv : treeview) (i : iid) (vals : list cell)
  : outcome unit * treeview :=
  match items tv !! i with
  | None => (Raises TclError (no_such_item i), tv)
  | Some it =>
      (Returns tt,
       {| items := <[ i := mk_item (text it) vals (tags it) (is_open it)
                             (children it) ]> (items tv);
          serial := serial tv |})
  end.

(** [t in tags] *)
Definition has_tag (t : tag) (it : item) : bool :=
  bool_decide (t ∈ tags it).

End Tk.

(** ** main.py *)

Module MainApplication.

(** *** Messages and workers of the token aggregation *)

(** What a worker puts on [token_queue]. *)
Inductive msg : Type :=
| Progress (item_path : string) (tokens : nat)
| ErrorMsg (path : string) (error_msg : string)
| Done (directory_path : string) (total_tokens : nat)
| Cancelled.

Global Instance msg_eq_dec : EqDecision msg.
Proof. solve_decision. Defined.

(** Where the thread of [token_calculation_thread] stands.  The walk
    still to do is the rest of [os.walk(directory_path)]. *)
Inductive wstate : Type :=
| WDir (rest : list (string * list string))
    (* at the head of [for root, _, filenames in os.walk(...)] *)
| WFile (root : string) (filenames : list string)
        (rest : list (string * list string))
    (* at the head of [for filename in filenames] *)
| WBusy (root filename : string) (filenames : list string)
        (rest : list (string * list string))
    (* past the cancellation test, working on [filename] *)
| WExited.

Record worker : Type := mk_worker {
  directory_path : string;
  total_tokens : nat;
  position : wstate
}.

Definition is_alive (w : worker) : bool :=
  match position w with WExited => false | _ => true end.

(** *** The attributes of [MainApplication] that the logic reads.
    Labels, buttons, the progress bar and message boxes are write-only
    and left out. *)
Record app : Type := mk_app {
  tree : Tk.treeview;
  checked_items : gset Tk.iid;
  file_handler : FileHandler.t;
  calculated_directories : gset string;
  dir_entry : string;
  filter_entry : string;
  exclude_entry : string;
  exclude_enabled : bool;
  cancel_operation : bool;
  (** [None]: the attribute does not exist yet ([hasattr] is false) *)
  pending_calculations : option nat;
  calculation_results : option (gmap string nat);
  token_queue : list msg;
  active_threads : list worker;
  (** number of [root.after(100, self.check_token_queue)] still to fire *)
  polls_scheduled : nat
}.

Definition set_tree (f : Tk.treeview -> Tk.treeview) (st : app) : app :=
  mk_app (f (tree st)) (checked_items st) (file_handler st)
    (calculated_directories st) (dir_entry st) (filter_entry st)
    (exclude_entry st) (exclude_enabled st) (cancel_operation st)
    (pending_calculations st) (calculation_results st) (token_queue st)
    (active_threads st) (polls_scheduled st).

Definition set_checked_items (f : gset Tk.iid -> gset Tk.iid) (st : app) : app :=
  mk_app (tree st) (f (checked_items st)) (file_handler st)
    (calculated_directories st) (dir_entry st) (filter_entry st)
    (exclude_entry st) (exclude_enabled st) (cancel_operation st)
    (pending_calculations st) (calculation_results st) (token_queue st)
    (active_threads st) (polls_scheduled st).

Definition set_file_handler (f : FileHandler.t -> FileHandler.t) (st : app) : app :=
  mk_app (tree st) (checked_items st) (f (file_handler st))
    (calculated_directories st) (dir_entry st) (filter_entry st)
    (exclude_entry st) (exclude_enabled st) (cancel_operation st)
    (pending_calculations st) (calculation_results st) (token_queue st)
    (active_threads st) (polls_scheduled st).

Definition set_calculated_directories (f : gset string -> gset string)
    (st : app) : app :=
  mk_app (tree st) (checked_items st) (file_handler st)
    (f (calculated_directories st)) (dir_entry st) (filter_entry st)
    (exclude_entry st) (exclude_enabled st) (cancel_operation st)
    (pending_calculations st) (calculation_results st) (token_queue st)
    (active_threads st) (polls_scheduled st).

Definition set_dir_entry (s : string) (st : app) : app :=
  mk_app (tree st) (checked_items st) (file_handler st)
    (calculated_directories st) s (filter_entry st)
    (exclude_entry st) (exclude_enabled st) (cancel_operation st)
    (pending_calculations st) (calculation_results st) (token_queue st)
    (active_threads st) (polls_scheduled st).

Definition set_filter_entry (s : string) (st : app) : app :=
  mk_app (tree st) (checked_items st) (file_handler st)
    (calculated_directories st) (dir_entry st) s
    (exclude_entry st) (exclude_enabled st) (cancel_operation st)
    (pending_calculations st) (calculation_results st) (token_queue st)
    (active_threads st) (polls_scheduled st).

Definition set_exclude_entry (s : string) (st : app) : app :=
  mk_app (tree st) (checked_items st) (file_handler st)
    (calculated_directories st) (dir_entry st) (filter_entry st)
    s (exclude_enabled st) (cancel_operation st)
    (pending_calculations st) (calculation_results st) (token_queue st)
    (active_threads st) (polls_scheduled st).

Definition set_exclude_enabled (b : bool) (st : app) : app :=
  mk_app (tree st) (checked_items st) (file_handler st)
    (calculated_directories st) (dir_entry st) (filter_entry st)
    (exclude_entry st) b (cancel_operation st)
    (pending_calculations st) (calculation_results st) (token_queue st)
    (active_threads st) (polls_scheduled st).

Definition set_cancel_operation (b : bool) (st : app) : app :=
  mk_app (tree st) (checked_items st) (file_handler st)
    (calculated_directories st) (dir_entry st) (filter_entry st)
    (exclude_entry st) (exclude_enabled st) b
    (pending_calculations st) (calculation_results st) (token_queue st)
    (active_threads st) (polls_scheduled st).

Definition set_pending_calculations (p : option nat) (st : app) : app :=
  mk_app (tree st) (checked_items st) (file_handler st)
    (calculated_directories st) (dir_entry st) (filter_entry st)
    (exclude_entry st) (exclude_enabled st) (cancel_operation st)
    p (calculation_results st) (token_queue st)
    (active_threads st) (polls_scheduled st).

Definition set_calculation_results (r : option (gmap string nat)) (st : app) : app :=
  mk_app (tree st) (checked_items st) (file_handler st)
    (calculated_directories st) (dir_entry st) (filter_entry st)
    (exclude_entry st) (exclude_enabled st) (cancel_operation st)
    (pending_calculations st) r (token_queue st)
    (active_threads st) (polls_scheduled st).

Definition set_token_queue (f : list msg -> list msg) (st : app) : app :=
  mk_app (tree st) (checked_items st) (file_handler st)
    (calculated_directories st) (dir_entry st) (filter_entry st)
    (exclude_entry st) (exclude_enabled st) (cancel_operation st)
    (pending_calculations st) (calculation_results st) (f (token_queue st))
    (active_threads st) (polls_scheduled st).

Definition set_active_threads (f : list worker -> list worker) (st : app) : app :=
  mk_app (tree st) (checked_items st) (file_handler st)
    (calculated_directories st) (dir_entry st) (filter_entry st)
    (exclude_entry st) (exclude_enabled st) (cancel_operation st)
    (pending_calculations st) (calculation_results st) (token_queue st)
    (f (active_threads st)) (polls_scheduled st).

Definition set_polls_scheduled (f : nat -> nat) (st : app) : app :=
  mk_app (tree st) (checked_items st) (file_handler st)
    (calculated_directories st) (dir_entry st) (filter_entry st)
    (exclude_entry st) (exclude_enabled st) (cancel_operation st)
    (pending_calculations st) (calculation_results st) (token_queue st)
    (active_threads st) (f (polls_scheduled st)).

(** [__init__] and [setup_ui]: the state when the window opens. *)
Definition init : app :=
  {| tree := Tk.empty;
     checked_items := ∅;
     file_handler := FileHandler.init None;
     calculated_directories := ∅;
     dir_entry := "";
     filter_entry := ".py,.js,.md";
     exclude_entry :=
       PyStr.join "," (sorted (elements FileHandler.DEFAULT_EXCLUDE_PATTERNS));
     exclude_enabled := true;
     cancel_operation := false;
     pending_calculations := None;
     calculation_results := None;
     token_queue := [];
     active_threads := [];
     polls_scheduled := 0 |}.

(** *** Methods as state transformers that may raise *)

Definition M (A : Type) : Type := app -> outcome A * app.

Definition ret {A} (a : A) : M A := fun st => (Returns a, st).

Definition bind {A B} (m : M A) (f : A -> M B) : M B :=
  fun st =>
    match m st with
    | (Returns a, st') => f a st'
    | (Raises c e, st') => (Raises c e, st')
    end.

Definition raise {A} (c : exn_class) (e : string) : M A :=
  fun st => (Raises c e, st).

(** [try: m  except <classes>: h(str(e))] *)
Definition try_except {A} (m : M A) (catches : exn_class -> bool)
    (h : string -> M A) : M A :=
  fun st =>
    match m st with
    | (Raises c e, st') => if catches c then h e st' else (Raises c e, st')
    | r => r
    end.

Definition any_exception (c : exn_class) : bool := true.

Definition lift {A} (o : outcome A) : M A := fun st => (o, st).

Definition gets {A} (f : app -> A) : M A := fun st => (Returns (f st), st).

Definition modify (f : app -> app) : M unit := fun st => (Returns tt, f st).

Global Instance M_ret : MRet M := @ret.
Global Instance M_bind : MBind M := fun A B f m => bind m f.

(** [for x in l: f(x)] *)
Fixpoint for_each {A} (l : list A) (f : A -> M unit) : M unit :=
  match l with
  | [] => ret tt
  | x :: l' => f x;; for_each l' f
  end.

Definition when (b : bool) (m : M unit) : M unit :=
  if b then m else ret tt.

(** The widget calls, on the tree of the state. *)
Definition on_tree {A} (f : Tk.treeview -> outcome A * Tk.treeview) : M A :=
  fun st => let '(r, tv) := f (tree st) in (r, set_tree (fun _ => tv) st).

Definition tree_item (i : Tk.iid) : M Tk.item :=
  tv ← gets tree; lift (Tk.item_of tv i).

Definition tree_get_children (i : Tk.iid) : M (list Tk.iid) :=
  tv ← gets tree; lift (Tk.get_children tv i).

Definition tree_insert (parent : Tk.iid) (id : option string) (txt : string)
    (vals : list Tk.cell) (tgs : list Tk.tag) : M Tk.iid :=
  on_tree (fun tv => Tk.insert tv parent id txt vals tgs).

Definition tree_delete (i : Tk.iid) : M unit :=
  on_tree (fun tv => Tk.delete tv i).

Definition tree_set_text (i : Tk.iid) (txt : string) : M unit :=
  on_tree (fun tv => Tk.set_text tv i txt).

Definition tree_set_open (i : Tk.iid) (o : bool) : M unit :=
  on_tree (fun tv => Tk.set_open tv i o).

Definition tree_set_values (i : Tk.iid) (vals : list Tk.cell) : M unit :=
  on_tree (fun tv => Tk.set_values tv i vals).

(** [self.file_handler.is_safe_path(path)] *)
Definition is_safe_path (os : OS) (path : string) : M bool :=
  fun st =>
    let '(r, fh) := FileHandler.is_safe_path os (file_handler st) path in
    (r, set_file_handler (fun _ => fh) st).

(** [[ext.strip() for ext in self.filter_entry.get().split(",")]] *)
Definition extensions_of (st : app) : list string :=
  map PyStr.strip (PyStr.split "," (filter_entry st)).

(** [text[2:]], counted in code points of the UTF-8 text. *)
Definition is_continuation (c : ascii) : bool :=
  let n := N_of_ascii c in (N.leb 128 n && N.ltb n 192)%N.

Fixpoint skip_continuation (s : string) : string :=
  match s with
  | String c s' => if is_continuation c then skip_continuation s' else s
  | EmptyString => EmptyString
  end.

Fixpoint drop_chars (n : nat) (s : string) : string :=
  match n with
  | O => s
  | S n' =>
      match s with
      | EmptyString => EmptyString
      | String _ s' => drop_chars n' (skip_continuation s')
      end
  end.

(** *** Filling the tree: [populate_tree] *)

(** First loop of [populate_tree], one [item]: folders and symlinks. *)
Definition populate_folder (os : OS) (parent : Tk.iid) (path item : string)
  : M unit :=
  let item_path := normpath os (path_join os path item) in
  dir ← gets dir_entry;
  rel_path ← lift (relpath os item_path dir);
  try_except
    (if islink os item_path then
       target_path ← lift (realpath os item_path);
       when (isdir os item_path)
         (tree_insert parent (Some item_path)
            ("↪ " +:+ item +:+ " → " +:+ target_path)
            [Tk.CStr "(symlink)"] [Tk.Folder; Tk.Symlink];; ret tt)
     else if isdir os item_path then
       enabled ← gets exclude_enabled;
       fh ← gets file_handler;
       folder ← (if enabled && FileHandler.should_exclude fh rel_path
                 then tree_insert parent (Some item_path) ("⊘ " +:+ item)
                        [Tk.CStr "(excluded)"] [Tk.Folder; Tk.Excluded]
                 else tree_insert parent (Some item_path) ("☐ " +:+ item)
                        [Tk.CStr ""] [Tk.Folder]);
       tree_insert folder None "" [] [Tk.Dummy];; ret tt
     else ret tt)
    is_OSError
    (fun e =>
       tree_insert parent None ("⚠ " +:+ item +:+ ": " +:+ e)
         [Tk.CStr "(error)"] [Tk.Error];; ret tt).

(** The extension test of [populate_tree] (line 733). *)
Definition matches_extensions (extensions : list string) (item : string) : bool :=
  negb (PyStr.truthy extensions) ||
  PyStr.any (fun ext => PyStr.endswith (PyStr.lower item) (PyStr.lower ext))
            extensions.

(** Second loop of [populate_tree], one [item]: files. *)
Definition populate_file (os : OS) (parent : Tk.iid) (path : string)
    (extensions : list string) (item : string) : M unit :=
  let item_path := normpath os (path_join os path item) in
  dir ← gets dir_entry;
  rel_path ← lift (relpath os item_path dir);
  when (isfile os item_path)
    (try_except
       (enabled ← gets exclude_enabled;
        fh ← gets file_handler;
        if enabled && FileHandler.should_exclude fh rel_path then
          tree_insert parent (Some item_path) ("⊘ " +:+ item)
            [Tk.CStr "(excluded)"] [Tk.File; Tk.Excluded];; ret tt
        else
          when (matches_extensions extensions item)
            (try_except
               (token_count ← lift (TokenCounter.count_tokens_in_file os item_path);
                if Nat.eqb token_count 0 && TokenCounter.is_binary_file os item_path
                then tree_insert parent (Some item_path) ("☐ " +:+ item)
                       [Tk.CStr "(binary)"] [Tk.File; Tk.Binary];; ret tt
                else tree_insert parent (Some item_path) ("☐ " +:+ item)
                       [Tk.CInt token_count] [Tk.File];; ret tt)
               any_exception
               (fun _ =>
                  tree_insert parent (Some item_path) ("☐ " +:+ item)
                    [Tk.CStr "(error)"] [Tk.File; Tk.Error];; ret tt)))
       is_OSError
       (fun e =>
          tree_insert parent None ("⚠ " +:+ item +:+ ": " +:+ e)
            [Tk.CStr "(error)"] [Tk.Error];; ret tt)).

(** [populate_tree] *)
Definition populate_tree (os : OS) (parent : Tk.iid) (path : string)
    (extensions : list string) : M unit :=
  try_except
    (let path := normpath os path in
     safe ← is_safe_path os path;
     if negb safe then
       tree_insert parent None "⚠ Skipped: Potential circular reference"
         [Tk.CStr "(skipped)"] [Tk.Error];; ret tt
     else
       items ← lift (listdir os path);
       for_each (sorted items) (populate_folder os parent path);;
       for_each (sorted items) (populate_file os parent path extensions))
    any_exception
    (fun _ => ret tt).

(** The block shared by [on_folder_open], [handle_click],
    [check_item_and_children] and [expand_and_select_children]: replace
    the placeholder of a folder by its real contents. *)
Definition materialize (os : OS) (item : Tk.iid) : M unit :=
  children ← tree_get_children item;
  only_dummy ←
    match children with
    | [] => ret true
    | [c] => it ← tree_item c; ret (Tk.has_tag Tk.Dummy it)
    | _ => ret false
    end;
  when only_dummy
    (for_each children
       (fun child =>
          it ← tree_item child;
          when (Tk.has_tag Tk.Dummy it) (tree_delete child));;
     extensions ← gets extensions_of;
     populate_tree os item (Tk.iid_str item) extensions).

(** *** Token aggregation *)

(** [cleanup_calculation_ui] *)
Definition cleanup_calculation_ui : M unit :=
  modify (set_cancel_operation false).

(** [cancel_current_operation] *)
Definition cancel_current_operation : M unit :=
  modify (set_cancel_operation true).

(** [calculate_tokens_for_directory]: start a thread and schedule
    [check_token_queue]. *)
Definition calculate_tokens_for_directory (os : OS) (directory_path : string)
  : M unit :=
  modify (set_active_threads
            (fun ts => ts ++ [mk_worker directory_path 0 (WDir (walk os directory_path))]));;
  modify (set_polls_scheduled S).

(** [calculate_directory_tokens] *)
Definition calculate_directory_tokens (os : OS) (directory_path : string)
  : M unit :=
  cache ← gets calculated_directories;
  if bool_decide (directory_path ∈ cache) then ret tt
  else calculate_tokens_for_directory os directory_path.

(** What the thread does with one file: the messages it puts on the
    queue and the tokens it adds to [total_tokens]. *)
Definition process_file (os : OS) (st : app) (root filename : string)
  : list msg * nat :=
  let item_path := path_join os root filename in
  if TokenCounter.is_binary_file os item_path then ([], 0%nat)
  else
    match relpath os item_path (dir_entry st) with
    | Raises _ e => ([ErrorMsg item_path e], 0%nat)
    | Returns rel_path =>
        if exclude_enabled st &&
           FileHandler.should_exclude (file_handler st) rel_path
        then ([], 0%nat)
        else
          let extensions := extensions_of st in
          if PyStr.truthy extensions &&
             negb (PyStr.any
                     (fun ext => PyStr.endswith (PyStr.lower item_path)
                                                (PyStr.lower ext))
                     extensions)
          then ([], 0%nat)
          else
            match TokenCounter.count_tokens_in_file os item_path with
            | Returns tokens => ([Progress item_path tokens], tokens)
            | Raises _ e => ([ErrorMsg item_path e], 0%nat)
            end
    end.

(** One step of a thread running [token_calculation_thread], in the
    state [st] it shares with the interface: the new thread state and
    the messages put on the queue. *)
Definition worker_step (os : OS) (st : app) (w : worker) : worker * list msg :=
  let d := directory_path w in
  let t := total_tokens w in
  match position w with
  | WDir [] => (mk_worker d t WExited, [Done d t])
  | WDir ((root, filenames) :: rest) =>
      if cancel_operation st then (mk_worker d t WExited, [Cancelled])
      else (mk_worker d t (WFile root filenames rest), [])
  | WFile root [] rest => (mk_worker d t (WDir rest), [])
  | WFile root (filename :: filenames) rest =>
      if cancel_operation st then (mk_worker d t WExited, [Cancelled])
      else (mk_worker d t (WBusy root filename filenames rest), [])
  | WBusy root filename filenames rest =>
      let '(msgs, tokens) := process_file os st root filename in
      (mk_worker d (t + tokens) (WFile root filenames rest), msgs)
  | WExited => (w, [])
  end.

(** Thread number [i] takes a step. *)
Definition thread_step (os : OS) (i : nat) (st : app) : app :=
  match active_threads st !! i with
  | None => st
  | Some w =>
      let '(w', msgs) := worker_step os st w in
      set_token_queue (fun q => q ++ msgs)
        (set_active_threads (fun ts => <[ i := w' ]> ts) st)
  end.

(** [update_item_tokens] *)
Fixpoint update_item_tokens_loop (ids : list Tk.iid) (item_path : string)
    (tokens : nat) : M unit :=
  match ids with
  | [] => ret tt
  | item_id :: rest =>
      it ← tree_item item_id;
      match Tk.values it with
      | [] => raise IndexError "string index out of range"
      | v0 :: vs =>
          if bool_decide (v0 = Tk.CStr item_path) then
            match vs with
            | [] => raise IndexError "list assignment index out of range"
            | _ :: vs' => tree_set_values item_id (v0 :: Tk.CInt tokens :: vs')
            end
          else update_item_tokens_loop rest item_path tokens
      end
  end.

Definition update_item_tokens (item_path : string) (tokens : nat) : M unit :=
  ids ← tree_get_children Tk.root;
  update_item_tokens_loop ids item_path tokens.

(** [update_total_tokens()] with no argument: the checked items that no
    longer exist in the tree are dropped from [checked_items]. *)
Definition update_total_tokens : M unit :=
  modify (fun st =>
            set_checked_items
              (filter (fun i => is_Some (Tk.items (tree st) !! i))) st).

(** [check_token_queue], one message. *)
Definition process_message (m : msg) : M unit :=
  match m with
  | Progress item_path tokens => update_item_tokens item_path tokens
  | ErrorMsg _ _ =>
      pending ← gets pending_calculations;
      match pending with
      | Some (S n) => modify (set_pending_calculations (Some n))
      | _ => ret tt
      end
  | Done directory_path total =>
      modify (set_calculated_directories (fun c => {[ directory_path ]} ∪ c));;
      pending ← gets pending_calculations;
      match pending with
      | Some n =>
          results ← gets calculation_results;
          match results with
          | Some r =>
              modify (set_calculation_results (Some (<[ directory_path := total ]> r)))
          | None => ret tt
          end;;
          let n' := Nat.pred n in
          modify (set_pending_calculations (Some n'));;
          when (Nat.eqb n' 0) cleanup_calculation_ui
      | None => cleanup_calculation_ui
      end
  | Cancelled =>
      pending ← gets pending_calculations;
      match pending with
      | Some _ => modify (set_pending_calculations (Some 0%nat))
      | None => ret tt
      end;;
      cleanup_calculation_ui
  end.

(** [check_token_queue], the [while True] loop over the messages that
    are on the queue. *)
Fixpoint drain_queue (q : list msg) : M unit :=
  match q with
  | m :: q' =>
      modify (set_token_queue (fun _ => q'));;
      process_message m;;
      drain_queue q'
  | [] =>
      threads ← gets active_threads;
      if negb (existsb is_alive threads) then cleanup_calculation_ui
      else modify (set_polls_scheduled S)
  end.

(** [check_token_queue] *)
Definition check_token_queue : M unit :=
  try_except
    (q ← gets token_queue; drain_queue q)
    any_exception
    (fun _ => cleanup_calculation_ui).

(** The timer fires: one scheduled [check_token_queue] runs. *)
Definition poll : M unit :=
  n ← gets polls_scheduled;
  match n with
  | O => ret tt
  | S n' => modify (set_polls_scheduled (fun _ => n'));; check_token_queue
  end.

(** *** Selection *)

(** [check_item_and_children].  [depth] is the number of nested calls
    the interpreter still allows; at [0] Python raises [RecursionError]
    and what was done so far stays done. *)
Fixpoint check_item_and_children (depth : nat) (os : OS) (item : Tk.iid)
    (skip_calculation : bool) {struct depth} : M unit :=
  match depth with
  | O => raise RecursionError "maximum recursion depth exceeded"
  | S depth' =>
      it ← tree_item item;
      if Tk.has_tag Tk.Excluded it then ret tt
      else
        tree_set_text item ("☑ " +:+ drop_chars 2 (Tk.text it));;
        modify (set_checked_items (fun c => {[ item ]} ∪ c));;
        it ← tree_item item;
        when (Tk.has_tag Tk.Folder it)
          (tree_set_open item true;;
           materialize os item;;
           cache ← gets calculated_directories;
           when (negb skip_calculation &&
                 negb (bool_decide (Tk.iid_str item ∈ cache)))
             (calculate_tokens_for_directory os (Tk.iid_str item)));;
        children ← tree_get_children item;
        for_each children
          (fun child => check_item_and_children depth' os child skip_calculation)
  end.

(** [uncheck_item_and_children] *)
Fixpoint uncheck_item_and_children (depth : nat) (item : Tk.iid) {struct depth}
  : M unit :=
  match depth with
  | O => raise RecursionError "maximum recursion depth exceeded"
  | S depth' =>
      it ← tree_item item;
      if Tk.has_tag Tk.Excluded it then ret tt
      else
        tree_set_text item ("☐ " +:+ drop_chars 2 (Tk.text it));;
        modify (set_checked_items (fun c => c ∖ {[ item ]}));;
        children ← tree_get_children item;
        for_each children (uncheck_item_and_children depth')
  end.

(** [handle_click]; [item] is what [self.tree.identify] returned. *)
Definition handle_click (depth : nat) (os : OS) (item : Tk.iid) : M unit :=
  if bool_decide (item = Tk.root) then update_total_tokens
  else
    it ← tree_item item;
    if Tk.has_tag Tk.Excluded it then ret tt
    else
      (if PyStr.startswith (Tk.text it) "☐" then
         check_item_and_children depth os item true
       else if PyStr.startswith (Tk.text it) "☑" then
         uncheck_item_and_children depth item
       else
         when (Tk.has_tag Tk.Folder it)
           (materialize os item;;
            cache ← gets calculated_directories;
            when (negb (bool_decide (Tk.iid_str item ∈ cache)))
              (calculate_tokens_for_directory os (Tk.iid_str item))));;
      update_total_tokens.

(** [on_folder_open]; [item] is [self.tree.focus()]. *)
Definition on_folder_open (os : OS) (item : Tk.iid) : M unit :=
  when (negb (bool_decide (item = Tk.root))) (materialize os item).

(** [on_folder_close]; [item] is [self.tree.focus()]. *)
Definition on_folder_close (depth : nat) (item : Tk.iid) : M unit :=
  when (negb (bool_decide (item = Tk.root)))
    (it ← tree_item item;
     when (negb (PyStr.startswith (Tk.text it) "☑"))
       (uncheck_item_and_children depth item);;
     update_total_tokens).

(** [expand_and_select_children], the local function of
    [expand_all_folders]; the result is [folders_to_calculate]. *)
Fixpoint expand_and_select_children (depth : nat) (os : OS) (item : Tk.iid)
    (folders_to_calculate : list string) {struct depth} : M (list string) :=
  match depth with
  | O => raise RecursionError "maximum recursion depth exceeded"
  | S depth' =>
      it ← tree_item item;
      if Tk.has_tag Tk.Excluded it then ret folders_to_calculate
      else
        check_item_and_children depth' os item true;;
        if Tk.has_tag Tk.Folder it then
          tree_set_open item true;;
          materialize os item;;
          cache ← gets calculated_directories;
          let folders_to_calculate :=
            if bool_decide (Tk.iid_str item ∈ cache) then folders_to_calculate
            else folders_to_calculate ++ [Tk.iid_str item] in
          children ← tree_get_children item;
          (fix loop (cs : list Tk.iid) (acc : list string) : M (list string) :=
             match cs with
             | [] => ret acc
             | child :: cs' =>
                 acc' ← expand_and_select_children depth' os child acc;
                 loop cs' acc'
             end) children folders_to_calculate
        else ret folders_to_calculate
  end.

(** [expand_all_folders] *)
Definition expand_all_folders (depth : nat) (os : OS) : M unit :=
  dir ← gets dir_entry;
  when (PyStr.nonempty dir)
    (modify (set_checked_items (fun _ => ∅));;
     modify (set_pending_calculations (Some 0%nat));;
     modify (set_calculation_results (Some ∅));;
     modify (set_cancel_operation false);;
     top ← tree_get_children Tk.root;
     folders_to_calculate ←
       (fix loop (cs : list Tk.iid) (acc : list string) : M (list string) :=
          match cs with
          | [] => ret acc
          | item :: cs' =>
              acc' ← expand_and_select_children depth os item acc;
              loop cs' acc'
          end) top [];
     if PyStr.truthy folders_to_calculate then
       modify (set_pending_calculations (Some (length folders_to_calculate)));;
       (fix loop (fs : list string) : M unit :=
          match fs with
          | [] => ret tt
          | folder :: fs' =>
              cancel ← gets cancel_operation;
              if negb cancel
              then calculate_tokens_for_directory os folder;; loop fs'
              else ret tt
          end) folders_to_calculate
     else update_total_tokens).

(** [collapse_and_deselect_folder_recursive], the local function of
    [collapse_all_folders]. *)
Fixpoint collapse_and_deselect_folder_recursive (depth : nat) (item : Tk.iid)
    {struct depth} : M unit :=
  match depth with
  | O => raise RecursionError "maximum recursion depth exceeded"
  | S depth' =>
      it ← tree_item item;
      when (negb (Tk.has_tag Tk.Excluded it) &&
            PyStr.startswith (Tk.text it) "☑")
        (tree_set_text item ("☐ " +:+ drop_chars 2 (Tk.text it)));;
      when (Tk.has_tag Tk.Folder it)
        (children ← tree_get_children item;
         for_each children (collapse_and_deselect_folder_recursive depth');;
         tree_set_open item false)
  end.

(** [collapse_all_folders] *)
Definition collapse_all_folders (depth : nat) : M unit :=
  dir ← gets dir_entry;
  when (PyStr.nonempty dir)
    (modify (set_checked_items (fun _ => ∅));;
     top ← tree_get_children Tk.root;
     for_each top (collapse_and_deselect_folder_recursive depth);;
     update_total_tokens).

(** [refresh_files] *)
Definition refresh_files (os : OS) : M unit :=
  directory ← gets dir_entry;
  when (PyStr.nonempty directory)
    (top ← tree_get_children Tk.root;
     for_each top tree_delete;;
     modify (set_checked_items (fun _ => ∅));;
     modify (set_file_handler FileHandler.clear_visited_paths);;
     extensions ← gets extensions_of;
     try_except (populate_tree os Tk.root directory extensions)
       any_exception (fun _ => ret tt);;
     update_total_tokens).

(** [{p.strip() for p in entry.split(',') if p.strip()}] *)
Definition patterns_of (entry : string) : gset string :=
  list_to_set
    (List.filter PyStr.nonempty (map PyStr.strip (PyStr.split "," entry))).

(** [toggle_exclude], after the check box took the value [enabled]. *)
Definition toggle_exclude (os : OS) (enabled : bool) : M unit :=
  modify (set_exclude_enabled enabled);;
  entry ← gets exclude_entry;
  modify (set_file_handler
            (fun _ => FileHandler.init
                        (Some (if enabled then patterns_of entry else ∅))));;
  refresh_files os.

(** [browse_directory], when the dialog returned [directory]. *)
Definition browse_directory (os : OS) (directory : string) : M unit :=
  when (PyStr.nonempty directory)
    (modify (set_dir_entry directory);; refresh_files os).

(** *** Copying the digest *)

(** [list(dict.fromkeys(l))]: the keys of the dictionary in insertion
    order; a key that is already there keeps its place. *)
Definition dict_fromkeys (l : list string) : list string :=
  fold_left (fun keys k => if bool_decide (k ∈ keys) then keys else keys ++ [k])
            l [].

(** [get_files_from_folder]: the files of one directory.  An error
    other than the two that are stepped over ends the walk; what was
    appended before stays in [files]. *)
Fixpoint files_readable (os : OS) (root : string) (filenames : list string)
    (files : list string) : outcome unit * list string :=
  match filenames with
  | [] => (Returns tt, files)
  | filename :: rest =>
      let file_path := path_join os root filename in
      match read_text_1k os file_path with
      | Returns _ => files_readable os root rest (files ++ [file_path])
      | Raises UnicodeDecodeError _ | Raises PermissionError _ =>
          files_readable os root rest files
      | Raises c e => (Raises c e, files)
      end
  end.

Fixpoint get_files_from_folder_loop (os : OS)
    (w : list (string * list string)) (files : list string) : list string :=
  match w with
  | [] => files
  | (root, filenames) :: rest =>
      match files_readable os root filenames files with
      | (Returns _, files') => get_files_from_folder_loop os rest files'
      | (Raises _ _, files') => files'
      end
  end.

Definition get_files_from_folder (os : OS) (folder_path : string) : list string :=
  get_files_from_folder_loop os (walk os folder_path) [].

(** The loop of [copy_markdown_to_clipboard] over [checked_items]. *)
Fixpoint collect_selected (os : OS) (tv : Tk.treeview) (checked : list Tk.iid)
    (selected_files : list string) : list string :=
  match checked with
  | [] => selected_files
  | item :: rest =>
      match Tk.item_of tv item with
      | Raises _ _ => collect_selected os tv rest selected_files
      | Returns it =>
          if Tk.has_tag Tk.Folder it then
            collect_selected os tv rest
              (selected_files ++ get_files_from_folder os (Tk.iid_str item))
          else
            match Tk.values it with
            | v :: _ =>
                if bool_decide (v = Tk.CStr "(binary)") ||
                   bool_decide (v = Tk.CStr "(error)")
                then collect_selected os tv rest selected_files
                else collect_selected os tv rest
                       (selected_files ++ [Tk.iid_str item])
            | [] => collect_selected os tv rest
                      (selected_files ++ [Tk.iid_str item])
            end
      end
  end.

(** [copy_markdown_to_clipboard] from line 619 on, given the list
    [selected_files] that the loop has built: [None] when a warning is
    shown, otherwise what [generate_markdown_to_string] returned. *)
Definition compose_selected (depth : nat) (os : OS) (st : app)
    (selected_files : list string) : option (bool * string) :=
  let selected_files := dict_fromkeys selected_files in
  if negb (PyStr.truthy selected_files) then None
  else
    let exclude_patterns :=
      if exclude_enabled st then patterns_of (exclude_entry st) else ∅ in
    Some (MarkdownGenerator.generate_markdown_to_string depth os
            (Some exclude_patterns) selected_files).

(** [copy_markdown_to_clipboard]; the set [checked_items] is iterated
    in the order of [elements]. *)
Definition copy_markdown_to_clipboard (depth : nat) (os : OS) (st : app)
  : option (bool * string) :=
  if bool_decide (checked_items st = ∅) then None
  else
    compose_selected depth os st
      (collect_selected os (tree st) (elements (checked_items st)) []).

(** *** What can happen to the application *)

Inductive event : Type :=
| Click (item : Tk.iid)            (* [handle_click] *)
| CheckItem (item : Tk.iid) (skip_calculation : bool)
                                   (* [check_item_and_children] *)
| UncheckItem (item : Tk.iid)      (* [uncheck_item_and_children] *)
| ExpandAll                        (* [expand_all_folders] *)
| CollapseAll                      (* [collapse_all_folders] *)
| FolderOpen (item : Tk.iid)       (* [on_folder_open] *)
| FolderClose (item : Tk.iid)      (* [on_folder_close] *)
| Browse (directory : string)      (* [browse_directory] *)
| ApplyFilter                      (* [refresh_files] *)
| ToggleExclude (enabled : bool)   (* [toggle_exclude] *)
| TypeDirectory (s : string)       (* typing in [dir_entry] *)
| TypeFilter (s : string)          (* typing in [filter_entry] *)
| TypeExclude (s : string)         (* typing in [exclude_entry] *)
| CancelButton                     (* [cancel_current_operation] *)
| Request (directory_path : string) (* [calculate_directory_tokens] *)
| Poll                             (* the timer runs [check_token_queue] *)
| Thread (i : nat).                (* thread [i] takes a step *)

(** The method an event runs.  An exception that leaves the method is
    reported by the event loop; the state keeps what was done. *)
Definition handler (depth : nat) (os : OS) (e : event) : M unit :=
  match e with
  | Click item => handle_click depth os item
  | CheckItem item skip => check_item_and_children depth os item skip
  | UncheckItem item => uncheck_item_and_children depth item
  | ExpandAll => expand_all_folders depth os
  | CollapseAll => collapse_all_folders depth
  | FolderOpen item => on_folder_open os item
  | FolderClose item => on_folder_close depth item
  | Browse directory => browse_directory os directory
  | ApplyFilter => refresh_files os
  | ToggleExclude enabled => toggle_exclude os enabled
  | TypeDirectory s => modify (set_dir_entry s)
  | TypeFilter s => modify (set_filter_entry s)
  | TypeExclude s => modify (set_exclude_entry s)
  | CancelButton => cancel_current_operation
  | Request directory_path => calculate_directory_tokens os directory_path
  | Poll => poll
  | Thread i => modify (thread_step os i)
  end.

Definition step (depth : nat) (os : OS) (e : event) (st : app) : app :=
  (handler depth os e st).2.

(** The state after a sequence of events. *)
Definition run (depth : nat) (os : OS) (es : list event) (st : app) : app :=
  fold_left (fun s e => step depth os e s) es st.

End MainApplication.

(** ** The specification's wording, where it is compared with the code *)

(** The bytes the content test lets pass, as the code has them. *)
Definition text_byte (b : Z) : Prop :=
  b ∈ [7; 8; 9; 10; 12; 13; 27] ∨ (0x20 ≤ b ≤ 0xFF ∧ b ≠ 0x7F).

(** The same allowlist with the range the specification gives. *)
Definition spec_text_byte (b : Z) : Prop :=
  b ∈ [7; 8; 9; 10; 12; 13; 27] ∨ (0x20 ≤ b ≤ 0xFE ∧ b ≠ 0x7F).

(** The content test of [isBinary] as the specification words it. *)
Definition sniffs_as_specified (os : OS) (filepath : string) : Prop :=
  ∀ content,
    PyStr.lower (guess_extension os filepath) ∉ TokenCounter.BINARY_EXTENSIONS →
    read_bytes os filepath = Returns content →
    (TokenCounter.is_binary_file os filepath = true ↔
     ∃ b, b ∈ take 1024 content ∧ ¬ spec_text_byte b).

(** The paths of a list, each at the place of its first occurrence. *)
Fixpoint first_occurrences (l : list string) : list string :=
  match l with
  | [] => []
  | x :: l' =>
      x :: List.filter (fun y => negb (String.eqb x y)) (first_occurrences l')
  end.

(** [compose] removes duplicates itself, as the specification words it:
    the document for a list is the document for its first occurrences. *)
Definition compose_deduplicates (depth : nat) (os : OS)
    (exclude_patterns : option (gset string)) (paths : list string) : Prop :=
  MarkdownGenerator.generate_markdown_to_string depth os exclude_patterns paths =
  MarkdownGenerator.generate_markdown_to_string depth os exclude_patterns
    (first_occurrences paths).

(** The header line of a file in the digest: its relative path. *)
Definition header_line (rel_path : string) : string :=
  "# " +:+ rel_path +:+ nl +:+ nl.

(** The fenced block of a file in the digest. *)
Definition content_block (language content : string) : string :=
  "```" +:+ language +:+ nl +:+ content +:+ nl +:+ "```" +:+ nl +:+ nl.

(** What the digest shows for one file: the header line, then the
    fenced block with the text of the file or, for a file that cannot
    be read, the line that reports the error. *)
Definition digest_section (os : OS) (rel_path file_path : string) : string :=
  header_line rel_path +:+
  match read_text os file_path with
  | Returns content =>
      content_block (MarkdownGenerator.get_language_identifier os file_path)
        content
  | Raises _ msg =>
      "Error reading file - " +:+ rel_path +:+ ": " +:+ msg +:+ nl +:+ nl
  end.

(** What the digest shows before the files: the tree of the repository
    root and the heading of the files, or nothing when there is no
    root. *)
Definition digest_head (depth : nat) (os : OS)
    (exclude_patterns : option (gset string)) (common_prefix : string)
  : string :=
  let up :=
    MarkdownGenerator.find_repo_root (S (String.length common_prefix)) os
      common_prefix in
  let repo_root :=
    if path_exists os (path_join os up ".git") then up else common_prefix in
  if PyStr.nonempty repo_root then
    MarkdownGenerator.generate_directory_tree depth os repo_root exclude_patterns
    +:+ nl +:+ nl +:+ "# Selected Files" +:+ nl +:+ nl
  else "".

(** The digest as the corrected claim words it: after the head, one
    header line and one block for each path of the list that is no
    directory, in the order of the list. *)
Definition digest_of (depth : nat) (os : OS)
    (exclude_patterns : option (gset string)) (common_prefix : string)
    (rel : string → string) (paths : list string) : string :=
  digest_head depth os exclude_patterns common_prefix +:+
  PyStr.concat
    (map (fun p => digest_section os (rel p) p)
         (List.filter (fun p => negb (isdir os p)) paths)).

(** *** The token aggregation *)

Section Aggregation.
Import MainApplication.

(** The places where [token_calculation_thread] reads
    [cancel_operation]: at the head of a directory of the walk and
    before a file. *)
Definition at_check (p : wstate) : bool :=
  match p with
  | WDir (_ :: _) | WFile _ (_ :: _) _ => true
  | _ => false
  end.

(** The state after thread [i] has become [w] and has put [msgs] on
    the queue. *)
Definition thread_result (i : nat) (w : worker) (msgs : list msg) (st : app) : app :=
  set_token_queue (fun q => q ++ msgs)
    (set_active_threads (fun ts => <[ i := w ]> ts) st).

(** The messages for the files of one directory, and their tokens. *)
Fixpoint files_messages (os : OS) (st : app) (root : string)
    (filenames : list string) : list msg * nat :=
  match filenames with
  | [] => ([], 0%nat)
  | filename :: rest =>
      let '(m1, t1) := process_file os st root filename in
      let '(m2, t2) := files_messages os st root rest in
      (m1 ++ m2, (t1 + t2)%nat)
  end.

(** The messages for the files of a whole walk, and their tokens. *)
Fixpoint walk_messages (os : OS) (st : app) (w : list (string * list string))
  : list msg * nat :=
  match w with
  | [] => ([], 0%nat)
  | (root, filenames) :: rest =>
      let '(m1, t1) := files_messages os st root filenames in
      let '(m2, t2) := walk_messages os st rest in
      (m1 ++ m2, (t1 + t2)%nat)
  end.

(** Cancellation as the specification words it: once the button is
    pressed while the thread of a directory is alive, the directory is
    not memoized, whatever the thread and the timer do afterwards. *)
Definition cancel_in_flight_prevents_done (depth : nat) (os : OS) : Prop :=
  ∀ es1 es2 i w,
    let st := run depth os es1 init in
    active_threads st !! i = Some w → is_alive w = true →
    directory_path w ∉ calculated_directories st →
    Forall (fun e => e = Thread i ∨ e = Poll) es2 →
    directory_path w ∉
      calculated_directories (run depth os (CancelButton :: es2) st).

(** What the methods of the interface, the timer apart, keep of the
    aggregation: the memoized directories, and the threads there are. *)
Definition aggregation_kept (C : gset string) (ts : list worker) (st : app) : Prop :=
  calculated_directories st = C ∧ ts `prefix_of` active_threads st.

(** What the timer keeps: the threads, and the memoized directories up
    to those with a [Done] message among [q]. *)
Definition cache_from (C : gset string) (q : list msg) (ts : list worker)
    (st : app) : Prop :=
  active_threads st = ts ∧
  ∀ d, d ∈ calculated_directories st → d ∈ C ∨ ∃ total, Done d total ∈ q.

End Aggregation.

(** *** Well-formed trees and selections *)

(** The placeholder rows are leaves with generated identifiers; the
    rows with generated identifiers are placeholders or error rows;
    generated identifiers are not ahead of the counter. *)
Definition tree_wf (tv : Tk.treeview) : Prop :=
  (∀ i it, Tk.items tv !! i = Some it → Tk.Dummy ∈ Tk.tags it →
           Tk.children it = [] ∧ ∃ n, i = inr n) ∧
  (∀ n it, Tk.items tv !! inr n = Some it →
           Tk.tags it = [Tk.Dummy] ∨ Tk.tags it = [Tk.Error]) ∧
  (∀ n, is_Some (Tk.items tv !! inr n) → (n ≤ Tk.serial tv)%nat).

(** No checked item is marked excluded. *)
Definition no_excluded_checked (st : MainApplication.app) : Prop :=
  ∀ i it, i ∈ MainApplication.checked_items st →
          Tk.items (MainApplication.tree st) !! i = Some it →
          Tk.Excluded ∉ Tk.tags it.

(** The items form a tree: the root is there, listed children exist,
    have one parent and are listed once, and the root is no child. *)
Definition tree_shape (tv : Tk.treeview) : Prop :=
  is_Some (Tk.items tv !! Tk.root) ∧
  (∀ p it c, Tk.items tv !! p = Some it → c ∈ Tk.children it →
             is_Some (Tk.items tv !! c)) ∧
  (∀ p p' it it' c, Tk.items tv !! p = Some it → Tk.items tv !! p' = Some it' →
                    c ∈ Tk.children it → c ∈ Tk.children it' → p = p') ∧
  (∀ p it, Tk.items tv !! p = Some it → NoDup (Tk.children it)) ∧
  (∀ p it, Tk.items tv !! p = Some it → Tk.root ∉ Tk.children it).

(** The tree and the checked set together: no checked item is marked
    excluded, and the checked paths are items of the tree. *)
Definition sel_wf (tv : Tk.treeview) (c : gset Tk.iid) : Prop :=
  tree_wf tv ∧
  (∀ i it, i ∈ c → Tk.items tv !! i = Some it → Tk.Excluded ∉ Tk.tags it) ∧
  (∀ p, inl p ∈ c → is_Some (Tk.items tv !! inl p)).

(** An item under which [populate_tree] may insert: a path, or a
    generated row that is there and is no placeholder. *)
Definition parent_ok (tv : Tk.treeview) (q : Tk.iid) : Prop :=
  match q with
  | inl _ => True
  | inr n => ∃ it, Tk.items tv !! inr n = Some it ∧ Tk.Dummy ∉ Tk.tags it
  end.

(** The tags the application gives: a row with an identifier of its
    own is no placeholder, a row with a generated identifier is a
    placeholder or an error row. *)
Definition tags_allowed (id : option string) (tgs : list Tk.tag) : Prop :=
  match id with
  | Some _ => Tk.Dummy ∉ tgs
  | None => tgs = [Tk.Dummy] ∨ tgs = [Tk.Error]
  end.

(** The invariant of the selection, with the item [q] that is being
    filled. *)
Definition J (q : Tk.iid) (st : MainApplication.app) : Prop :=
  sel_wf (MainApplication.tree st) (MainApplication.checked_items st) ∧
  tree_shape (MainApplication.tree st) ∧
  parent_ok (MainApplication.tree st) q.

Definition W : MainApplication.app → Prop := J Tk.root.

(** The invariant of the tree alone, while [refresh_files] empties it. *)
Definition T (st : MainApplication.app) : Prop :=
  tree_wf (MainApplication.tree st) ∧ tree_shape (MainApplication.tree st).

(** The item, if it is there, is not a placeholder. *)
Definition not_placeholder (tv : Tk.treeview) (i : Tk.iid) : Prop :=
  ∀ it, Tk.items tv !! i = Some it → Tk.Dummy ∉ Tk.tags it.

(** The events as the interface can produce them: a folder is opened
    only through a row that is shown, and a placeholder row is never
    shown (its folder is closed until its contents replace it). *)
Definition enabled (e : MainApplication.event) (st : MainApplication.app) : Prop :=
  match e with
  | MainApplication.FolderOpen item =>
      not_placeholder (MainApplication.tree st) item
  | _ => True
  end.

(** The states the application can be in. *)
Inductive reachable (os : OS) : MainApplication.app → Prop :=
| reachable_init : reachable os MainApplication.init
| reachable_step st depth e :
    reachable os st → enabled e st →
    reachable os (MainApplication.step depth os e st).

(** Hoare triples for the methods: from a state with [P], a normal
    return with value [a] ends in a state with [Q a], an exception ends
    in a state with [E]. *)
Definition triple {A} (P : MainApplication.app → Prop) (m : MainApplication.M A)
    (Q : A → MainApplication.app → Prop) (E : MainApplication.app → Prop) : Prop :=
  ∀ st, P st →
    match m st with
    | (Returns a, st') => Q a st'
    | (Raises _ _, st') => E st'
    end.

(** A method keeps [I]: it holds afterwards, however the method ends. *)
Definition keeps {A} (I : MainApplication.app → Prop) (m : MainApplication.M A)
  : Prop :=
  triple I m (fun _ => I) I.

(** ** Listing a folder *)

Section Listing.
Import MainApplication.

(** A row of the tree as the user sees it. *)
Record node : Type := mk_node {
  node_id : Tk.iid;
  node_text : string;
  node_values : list Tk.cell;
  node_tags : list Tk.tag
}.

Definition node_at (tv : Tk.treeview) (c : Tk.iid) : option node :=
  match Tk.items tv !! c with
  | Some it => Some (mk_node c (Tk.text it) (Tk.values it) (Tk.tags it))
  | None => None
  end.

(** The rows under [parent], in their order. *)
Definition nodes_of (tv : Tk.treeview) (parent : Tk.iid) : list node :=
  match Tk.items tv !! parent with
  | Some it => omap (node_at tv) (Tk.children it)
  | None => []
  end.

(** The rows that a call of [populate_tree] adds under [parent]. *)
Definition listed (os : OS) (st : app) (parent : Tk.iid) (path : string)
    (extensions : list string) : list node :=
  drop (length (nodes_of (tree st) parent))
    (nodes_of (tree (populate_tree os parent path extensions st).2) parent).

(** Idempotence as the specification words it: without symbolic
    links, a second listing of the same folder gives the rows of the
    first. *)
Definition listing_idempotent (os : OS) : Prop :=
  (∀ p, islink os p = false) →
  ∀ st parent path extensions,
    listed os (populate_tree os parent path extensions st).2 parent path
      extensions =
    listed os st parent path extensions.

(** [listChildren] of the specification: the row of a folder entry,
    the row of a file entry, and the folder rows followed by the file
    rows, both in the order of [sorted]. *)
Definition folder_node (os : OS) (dir : string) (enabled : bool)
    (patterns : gset string) (path item : string) : option node :=
  let item_path := normpath os (path_join os path item) in
  match relpath os item_path dir with
  | Returns rel_path =>
      if isdir os item_path then
        Some (if enabled &&
                 FileHandler.should_exclude (FileHandler.mk patterns ∅) rel_path
              then mk_node (inl item_path) ("⊘ " +:+ item)
                     [Tk.CStr "(excluded)"] [Tk.Folder; Tk.Excluded]
              else mk_node (inl item_path) ("☐ " +:+ item)
                     [Tk.CStr ""] [Tk.Folder])
      else None
  | Raises _ _ => None
  end.

Definition file_node (os : OS) (dir : string) (enabled : bool)
    (patterns : gset string) (path : string) (extensions : list string)
    (item : string) : option node :=
  let item_path := normpath os (path_join os path item) in
  match relpath os item_path dir with
  | Returns rel_path =>
      if isfile os item_path then
        if enabled &&
           FileHandler.should_exclude (FileHandler.mk patterns ∅) rel_path
        then Some (mk_node (inl item_path) ("⊘ " +:+ item)
                     [Tk.CStr "(excluded)"] [Tk.File; Tk.Excluded])
        else if matches_extensions extensions item then
          Some (match TokenCounter.count_tokens_in_file os item_path with
                | Returns token_count =>
                    if Nat.eqb token_count 0 &&
                       TokenCounter.is_binary_file os item_path
                    then mk_node (inl item_path) ("☐ " +:+ item)
                           [Tk.CStr "(binary)"] [Tk.File; Tk.Binary]
                    else mk_node (inl item_path) ("☐ " +:+ item)
                           [Tk.CInt token_count] [Tk.File]
                | Raises _ _ =>
                    mk_node (inl item_path) ("☐ " +:+ item)
                      [Tk.CStr "(error)"] [Tk.File; Tk.Error]
                end)
        else None
      else None
  | Raises _ _ => None
  end.

Definition list_children (os : OS) (dir : string) (enabled : bool)
    (patterns : gset string) (path : string) (extensions : list string)
    (items : list string) : list node :=
  omap (folder_node os dir enabled patterns path) (sorted items) ++
  omap (file_node os dir enabled patterns path extensions) (sorted items).

(** Ascending in the order of [sorted] on strings. *)
Definition ascending : list string → Prop :=
  StronglySorted (fun a b => String.leb a b = true).

(** The row [populate_tree] puts in place of the contents of a folder
    that [is_safe_path] rejects. *)
Definition skip_marker (n : nat) : node :=
  mk_node (inr n) "⚠ Skipped: Potential circular reference"
    [Tk.CStr "(skipped)"] [Tk.Error].

(** The session does not hold the folder [p]. *)
Definition fresh_session (os : OS) (st : app) (p : string) : Prop :=
  ∃ real_path, realpath os p = Returns real_path ∧
               real_path ∉ FileHandler.visited_paths (file_handler st).

(** The tree can take the entries [items] of [p] under [parent]: it is
    well formed and holds [parent], the relative path of each entry can
    be computed, and no entry is in the tree yet. *)
Definition listable (os : OS) (st : app) (parent : Tk.iid) (p : string)
    (items : list string) : Prop :=
  tree_wf (tree st) ∧ tree_shape (tree st) ∧
  is_Some (Tk.items (tree st) !! parent) ∧
  ∀ item, item ∈ items →
    (∃ rel, relpath os (normpath os (path_join os p item)) (dir_entry st) =
            Returns rel) ∧
    Tk.items (tree st) !! inl (normpath os (path_join os p item)) = None.

(** The tree while [populate_tree] lists under [parent], with the rows
    [added] so far to the tree [tv0] it started from. *)
Definition listing_inv (tv0 : Tk.treeview) (parent : Tk.iid) (added : list node)
    (tv : Tk.treeview) : Prop :=
  (∃ itp, Tk.items tv !! parent = Some itp ∧
          ∀ c, c ∈ Tk.children itp → is_Some (Tk.items tv !! c)) ∧
  nodes_of tv parent = nodes_of tv0 parent ++ added ∧
  (∀ n, is_Some (Tk.items tv !! inr n) → (n ≤ Tk.serial tv)%nat) ∧
  (∀ s, is_Some (Tk.items tv !! inl s) →
        is_Some (Tk.items tv0 !! inl s) ∨ inl s ∈ map node_id added).

End Listing.

(** ** A small file system, for examples *)

Module Toy.

(** Directories with the names they list, and files with their bytes. *)
Record fs : Type := mk_fs {
  dirs : list (string * list string);
  files : list (string * list Z)
}.

Fixpoint assoc {A} (k : string) (l : list (string * A)) : option A :=
  match l with
  | [] => None
  | (k', v) :: l' => if String.eqb k' k then Some v else assoc k l'
  end.

Definition join (a b : string) : string :=
  if PyStr.nonempty a then a +:+ "/" +:+ b else b.

Fixpoint drop_str (n : nat) (s : string) : string :=
  match n, s with
  | S n', String _ s' => drop_str n' s'
  | _, _ => s
  end.

Definition rel (path start : string) : outcome string :=
  if String.eqb path start then Returns "."
  else if PyStr.startswith path (start +:+ "/")
  then Returns (drop_str (S (String.length start)) path)
  else Returns path.

Definition dir_name (path : string) : string :=
  let head := PyStr.join "/" (removelast (PyStr.split "/" path)) in
  if negb (PyStr.nonempty head) && PyStr.startswith path "/" then "/" else head.

Definition base_name (path : string) : string :=
  List.last (PyStr.split "/" path) "".

Definition ext_of (path : string) : string :=
  match PyStr.split "." (base_name path) with
  | [] | [_] => ""
  | first :: rest =>
      if negb (PyStr.nonempty first) && Nat.eqb (length rest) 1 then ""
      else "." +:+ List.last rest ""
  end.

Fixpoint common_parts (a b : list string) : list string :=
  match a, b with
  | x :: a', y :: b' => if String.eqb x y then x :: common_parts a' b' else []
  | _, _ => []
  end.

Definition common_path (paths : list string) : outcome string :=
  match map (PyStr.split "/") paths with
  | [] => Raises ValueError "commonpath() arg is an empty sequence"
  | first :: rest => Returns (PyStr.join "/" (fold_left common_parts rest first))
  end.

Definition is_dir (f : fs) (path : string) : bool :=
  bool_decide (is_Some (assoc path (dirs f))).

Definition is_file (f : fs) (path : string) : bool :=
  bool_decide (is_Some (assoc path (files f))).

Definition list_dir (f : fs) (path : string) : outcome (list string) :=
  match assoc path (dirs f) with
  | Some names => Returns names
  | None => Raises FileNotFoundError ("No such directory: " +:+ path)
  end.

Definition scan_dir (f : fs) (path : string) : outcome (list (string * bool)) :=
  match assoc path (dirs f) with
  | Some names => Returns (map (fun n => (n, is_dir f (join path n))) names)
  | None => Raises FileNotFoundError ("No such directory: " +:+ path)
  end.

Fixpoint walk_from (fuel : nat) (f : fs) (top : string)
  : list (string * list string) :=
  match fuel with
  | O => []
  | S fuel' =>
      match assoc top (dirs f) with
      | None => []
      | Some names =>
          (top, List.filter (fun n => is_file f (join top n)) names)
          :: flat_map (fun n => walk_from fuel' f (join top n))
               (List.filter (fun n => is_dir f (join top n)) names)
      end
  end.

Definition bytes_of (f : fs) (path : string) : outcome (list Z) :=
  match assoc path (files f) with
  | Some bs => Returns bs
  | None => Raises FileNotFoundError ("No such file: " +:+ path)
  end.

Definition decode (bs : list Z) : outcome string :=
  if forallb (fun b => Z.ltb b 128) bs
  then Returns (string_of_list_ascii (map (fun b => ascii_of_N (Z.to_N b)) bs))
  else Raises UnicodeDecodeError "invalid start byte".

Definition text_of (limit : option nat) (f : fs) (path : string) : outcome string :=
  match bytes_of f path with
  | Returns bs => decode (match limit with Some n => take n bs | None => bs end)
  | Raises c e => Raises c e
  end.

(** The services over the file system [f]: no symbolic links, paths
    already canonical, one token per character. *)
Definition os (f : fs) : OS :=
  {| realpath := fun path => Returns path;
     normpath := fun path => path;
     path_join := join;
     relpath := rel;
     dirname := dir_name;
     basename := base_name;
     splitext_ext := ext_of;
     commonpath := common_path;
     listdir := list_dir f;
     scandir := scan_dir f;
     islink := fun _ => false;
     isdir := is_dir f;
     isfile := is_file f;
     path_exists := fun path => is_dir f path || is_file f path;
     walk := walk_from (S (length (dirs f))) f;
     read_bytes := bytes_of f;
     read_text := text_of None f;
     read_text_1k := text_of (Some 1024%nat) f;
     guess_extension := ext_of;
     count_tokens := fun text => Returns (String.length text) |}.

(** The bytes of an ASCII text. *)
Definition bytes (s : string) : list Z :=
  map (fun c => Z.of_N (N_of_ascii c)) (list_ascii_of_string s).

(** [/repo] with [a.py], [environment.txt], a folder [src] holding
    [main.py] and [A.PY], and a folder [env] holding [secret.py]. *)
Definition repo : fs :=
  {| dirs := [ ("/repo", ["src"; "a.py"; "environment.txt"; "env"]);
               ("/repo/src", ["main.py"; "A.PY"]);
               ("/repo/env", ["secret.py"]) ];
     files := [ ("/repo/a.py", bytes "print(1)");
                ("/repo/environment.txt", bytes "x=1");
                ("/repo/src/main.py", bytes "import a");
                ("/repo/src/A.PY", bytes "pass");
                ("/repo/env/secret.py", bytes "key") ] |}.

(** [/t] with one file whose only byte is [0xFF]. *)
Definition latin1 : fs :=
  {| dirs := [ ("/t", ["ff.txt"]) ];
     files := [ ("/t/ff.txt", [255]) ] |}.

(** [/r] with the file [b.py] and a folder [empty] that holds nothing. *)
Definition hollow : fs :=
  {| dirs := [ ("/r", ["empty"; "b.py"]); ("/r/empty", []) ];
     files := [ ("/r/b.py", bytes "x") ] |}.

End Toy.

(** ** Example states *)

(** [/repo] browsed. *)
Definition browsed_repo : MainApplication.app :=
  MainApplication.step 50 (Toy.os Toy.repo) (MainApplication.Browse "/repo")
    MainApplication.init.

(** [/repo] browsed, then a click on the folder [src] and a click on
    the excluded folder [env]. *)
Definition selected_repo : MainApplication.app :=
  MainApplication.step 50 (Toy.os Toy.repo)
    (MainApplication.Click (inl "/repo/env"))
    (MainApplication.step 50 (Toy.os Toy.repo)
       (MainApplication.Click (inl "/repo/src")) browsed_repo).

(** The tokens of [/repo/src] requested; the thread has counted
    [main.py] and is past its last check, working on [A.PY]. *)
Definition src_requested : MainApplication.app :=
  MainApplication.run 50 (Toy.os Toy.repo)
    [MainApplication.Request "/repo/src"; MainApplication.Thread 0;
     MainApplication.Thread 0; MainApplication.Thread 0;
     MainApplication.Thread 0] MainApplication.init.

(** The tokens of [/repo/src] requested and cancelled while the thread
    is before its first file. *)
Definition src_cancelled_early : MainApplication.app :=
  MainApplication.run 50 (Toy.os Toy.repo)
    [MainApplication.Request "/repo/src"; MainApplication.Thread 0;
     MainApplication.CancelButton] MainApplication.init.

(** [/repo] typed into the directory entry, the tree still empty. *)
Definition typed_repo : MainApplication.app :=
  MainApplication.step 50 (Toy.os Toy.repo)
    (MainApplication.TypeDirectory "/repo") MainApplication.init.

(** [/r] browsed. *)
Definition browsed_hollow : MainApplication.app :=
  MainApplication.step 50 (Toy.os Toy.hollow) (MainApplication.Browse "/r")
    MainApplication.init.

(** ** markdown_generator.py: [generate_markdown] *)

Module MarkdownFile.
Import MarkdownGenerator.

(** The text [generate_markdown] writes for one path; it tells the
    classes of the read errors apart. *)
Definition written_section (os : OS) (common_prefix file_path : string)
  : outcome (option string) :=
  if isdir os file_path then Returns None
  else
    match relpath os file_path common_prefix with
    | Raises c msg => Raises c msg
    | Returns rel_path =>
        let language := get_language_identifier os file_path in
        let header := "# " +:+ rel_path +:+ nl +:+ nl in
        match read_text os file_path with
        | Returns content =>
            Returns (Some (header +:+ "```" +:+ language +:+ nl +:+
                           content +:+ nl +:+ "```" +:+ nl +:+ nl))
        | Raises FileNotFoundError _ =>
            Returns (Some (header +:+ "Error: File not found - " +:+ rel_path
                           +:+ nl +:+ nl))
        | Raises PermissionError _ =>
            Returns (Some (header +:+ "Error: Permission denied reading file - "
                           +:+ rel_path +:+ nl +:+ nl))
        | Raises UnicodeDecodeError _ =>
            Returns (Some (header +:+ "Error: Could not read file (binary file) - "
                           +:+ rel_path +:+ nl +:+ nl))
        | Raises _ msg =>
            Returns (Some (header +:+ "Error reading file - " +:+ rel_path
                           +:+ ": " +:+ msg +:+ nl +:+ nl))
        end
    end.

(** The [for] loop over [file_paths], writing to [out_file]; what was
    written stays written when an iteration raises. *)
Fixpoint write_sections (os : OS) (common_prefix : string)
    (file_paths : list string) (out_file : string) : outcome unit * string :=
  match file_paths with
  | [] => (Returns tt, out_file)
  | file_path :: rest =>
      match written_section os common_prefix file_path with
      | Raises c msg => (Raises c msg, out_file)
      | Returns None => write_sections os common_prefix rest out_file
      | Returns (Some text) =>
          write_sections os common_prefix rest (out_file +:+ text)
      end
  end.

(** [generate_markdown]: what it returns, and the content of
    [output_path] when the file was opened.  [open_w] is
    [open(output_path, 'w', encoding='utf-8')]. *)
Definition generate_markdown (depth : nat) (os : OS)
    (open_w : string -> outcome unit)
    (exclude_patterns : option (gset string)) (file_paths : list string)
    (output_path : string) : (bool * string) * option string :=
  let roots :=
    if PyStr.truthy file_paths then
      match commonpath os (map (dirname os) file_paths) with
      | Raises c msg => Raises c msg
      | Returns common_prefix =>
          let repo_root :=
            find_repo_root (S (String.length common_prefix)) os common_prefix in
          let repo_root :=
            if negb (path_exists os (path_join os repo_root ".git"))
            then common_prefix else repo_root in
          Returns (common_prefix, repo_root)
      end
    else Returns ("", "") in
  match roots with
  | Raises _ msg => ((false, "Failed to generate markdown: " +:+ msg), None)
  | Returns (common_prefix, repo_root) =>
      match open_w output_path with
      | Raises _ msg => ((false, "Failed to generate markdown: " +:+ msg), None)
      | Returns _ =>
          let out_file := "" in
          let out_file :=
            if PyStr.nonempty repo_root then
              out_file +:+ generate_directory_tree depth os repo_root exclude_patterns
                       +:+ (nl +:+ nl +:+ "# Selected Files" +:+ nl +:+ nl)
            else out_file in
          match write_sections os common_prefix file_paths out_file with
          | (Returns _, out_file) =>
              ((true, "Markdown file generated successfully!"), Some out_file)
          | (Raises _ msg, out_file) =>
              ((false, "Failed to generate markdown: " +:+ msg), Some out_file)
          end
      end
  end.

End MarkdownFile.

(** ** file_handler.py: [get_files] *)

Module FileWalk.
Import FileHandler.

(** What the body of the loop of [get_files] does with the files of one
    directory [root]: the paths it appends. *)
Definition kept_files (os : OS) (self : t) (extensions : list string)
    (rel_path : string) (filenames : list string) : list string :=
  map (path_join os rel_path)
    (List.filter
       (fun filename =>
          negb (should_exclude self (path_join os rel_path filename)) &&
          get_files_keeps extensions filename)
       filenames).

(** [os.walk] going down the directories [ds] of [top] that the body
    of the loop left in [dirs]: the symbolic links are passed over
    ([followlinks=False]); [walk] is the walk from one directory. *)
Fixpoint walk_dirs
    (walk : string -> t -> list string -> outcome unit * (t * list string))
    (os : OS) (top : string) (ds : list string) (self : t)
    (files : list string) : outcome unit * (t * list string) :=
  match ds with
  | [] => (Returns tt, (self, files))
  | d :: ds' =>
      let new_path := path_join os top d in
      if islink os new_path then walk_dirs walk os top ds' self files
      else
        match walk new_path self files with
        | (Returns _, (self', files')) => walk_dirs walk os top ds' self' files'
        | r => r
        end
  end.

(** [for root, dirs, filenames in os.walk(directory, followlinks=False)]
    with the body of the loop of [get_files], from the directory [top]
    down.  [os.walk] lists [top] with [scandir]; a directory it cannot
    list yields nothing.  It then yields [top], runs the body, which may
    prune [dirs], and goes down the directories left in [dirs].
    [depth] bounds the nesting of the walk. *)
Fixpoint get_files_walk (depth : nat) (os : OS) (directory : string)
    (extensions : list string) (top : string) (self : t)
    (files : list string) {struct depth}
  : outcome unit * (t * list string) :=
  match depth with
  | O => (Raises RecursionError "maximum recursion depth exceeded", (self, files))
  | S depth' =>
      match scandir os top with
      | Raises _ _ => (Returns tt, (self, files))
      | Returns entries =>
          let dirs := map fst (List.filter snd entries) in
          let filenames :=
            map fst (List.filter (fun e => negb (snd e)) entries) in
          let descend :=
            walk_dirs (get_files_walk depth' os directory extensions) os top in
          match is_safe_path os self top with
          | (Returns true, self1) =>
              let dirs' :=
                List.filter
                  (fun d => negb (bool_decide (d ∈ exclude_patterns self1)))
                  dirs in
              match relpath os top directory with
              | Raises c e => (Raises c e, (self1, files))
              | Returns rel =>
                  let rel_path := if String.eqb rel "." then "" else rel in
                  descend dirs' self1
                    (files ++ kept_files os self1 extensions rel_path filenames)
              end
          | (_, self1) => descend dirs self1 files
          end
      end
  end.

(** [get_files] *)
Definition get_files (depth : nat) (os : OS) (self : t) (directory : string)
    (extensions : list string) : outcome (list string) * t :=
  if negb (path_exists os directory) then
    (Raises ValueError ("Directory '" +:+ directory +:+ "' does not exist"),
     self)
  else
    match get_files_walk depth os directory extensions directory
            (clear_visited_paths self) [] with
    | (Returns _, (self', files)) => (Returns (sorted files), self')
    | (Raises c e, (self', _)) => (Raises c e, self')
    end.

(** The directory tree under [top] is at most [depth] levels deep, the
    symbolic links not followed. *)
Fixpoint walk_fits (depth : nat) (os : OS) (top : string) : bool :=
  match depth with
  | O => false
  | S depth' =>
      match scandir os top with
      | Raises _ _ => true
      | Returns entries =>
          forallb
            (fun e => negb (snd e) || islink os (path_join os top (fst e)) ||
                      walk_fits depth' os (path_join os top (fst e)))
            entries
      end
  end.

End FileWalk.

Section GetFilesPaths.
Import FileHandler.
Context (os : OS) (directory : string) (extensions : list string).

(** Where a path that [get_files] returns comes from. *)
Definition found (pats : gset string) (p : string) : Prop :=
  ∃ root rel entries filename,
    scandir os root = Returns entries ∧ (filename, false) ∈ entries ∧
    relpath os root directory = Returns rel ∧
    p = path_join os (if String.eqb rel "." then "" else rel) filename ∧
    should_exclude (mk pats ∅) p = false ∧
    get_files_keeps extensions filename = true.

(** What a stretch of the walk does to the session and to [files]. *)
Definition extends (self : t) (files : list string) (self' : t)
    (files' : list string) : Prop :=
  exclude_patterns self' = exclude_patterns self ∧
  ∃ new, files' = files ++ new ∧ ∀ p, p ∈ new → found (exclude_patterns self) p.

End GetFilesPaths.

(** ** main.py: what a thread reports, what a copy reads *)

Section Threads.
Import MainApplication.

(** The tokens of the [progress] messages of [msgs]. *)
Fixpoint progress_total (msgs : list msg) : nat :=
  match msgs with
  | [] => 0%nat
  | Progress _ tokens :: rest => (tokens + progress_total rest)%nat
  | _ :: rest => progress_total rest
  end.

(** A thread from a position to the end of its steps; [sts] are the
    states of the application it meets, one for each step. *)
Fixpoint worker_run (os : OS) (sts : list app) (w : worker)
  : worker * list msg :=
  match sts with
  | [] => (w, [])
  | st :: rest =>
      let '(w1, msgs1) := worker_step os st w in
      let '(w2, msgs2) := worker_run os rest w1 in
      (w2, msgs1 ++ msgs2)
  end.

(** The thread [calculate_tokens_for_directory] starts. *)
Definition fresh_worker (os : OS) (d : string) : worker :=
  mk_worker d 0 (WDir (walk os d)).

(** The messages a thread ends with: [done] and [cancelled]. *)
Definition last_word (m : msg) : bool :=
  match m with Done _ _ | Cancelled => true | _ => false end.

(** The first kilobyte of the file decodes. *)
Definition decodes (os : OS) (file_path : string) : bool :=
  match read_text_1k os file_path with Returns _ => true | Raises _ _ => false end.

(** The errors that [get_files_from_folder] steps over. *)
Definition skipped_error (os : OS) (file_path : string) : Prop :=
  match read_text_1k os file_path with
  | Raises c _ => c = UnicodeDecodeError ∨ c = PermissionError
  | Returns _ => True
  end.

End Threads.

(** * Theorems *)

(** ** Strings *)

Lemma append_nil_l (s : string) : "" +:+ s = s.
Proof. reflexivity. Qed.

Lemma append_cons (a : ascii) (s t : string) :
  String a s +:+ t = String a (s +:+ t).
Proof. reflexivity. Qed.

Lemma append_nil_r (s : string) : s +:+ "" = s.
Proof. induction s as [|a s IH]; [done|]. by rewrite append_cons, IH. Qed.

Lemma append_assoc (s t u : string) : (s +:+ t) +:+ u = s +:+ t +:+ u.
Proof. induction s as [|a s IH]; [done|]. by rewrite !append_cons, IH. Qed.

(** ** PathSafety: [is_safe_path] *)

(** C9.  [is_safe_path] resolves the path with [os.path.realpath]; when
    the resolved path is already in [visited_paths] it returns [False]
    and leaves the set as it was; otherwise it adds the resolved path
    and returns [True]; when the resolution raises it returns [False];
    in no case does an exception reach the caller. *)
Theorem is_safe_path_contract (os : OS) (self : FileHandler.t) (path : string) :
  (∀ real_path,
      realpath os path = Returns real_path →
      real_path ∈ FileHandler.visited_paths self →
      FileHandler.is_safe_path os self path = (Returns false, self)) ∧
  (∀ real_path,
      realpath os path = Returns real_path →
      real_path ∉ FileHandler.visited_paths self →
      FileHandler.is_safe_path os self path =
        (Returns true,
         FileHandler.mk (FileHandler.exclude_patterns self)
                        ({[ real_path ]} ∪ FileHandler.visited_paths self))) ∧
  (∀ c msg,
      realpath os path = Raises c msg →
      FileHandler.is_safe_path os self path = (Returns false, self)) ∧
  (∃ b self', FileHandler.is_safe_path os self path = (Returns b, self')).
Proof.
  unfold FileHandler.is_safe_path, FileHandler.is_safe_path_try.
  split; [|split; [|split]].
  - intros real_path -> Hin. by rewrite bool_decide_eq_true_2.
  - intros real_path -> Hin. by rewrite bool_decide_eq_false_2.
  - by intros c msg ->.
  - destruct (realpath os path) as [real_path|c msg]; [|by eauto].
    case_bool_decide; eauto.
Qed.

(** [/repo] is not visited yet: it is safe and gets recorded. *)
Lemma is_safe_path_contract_witness :
  FileHandler.is_safe_path (Toy.os Toy.repo) (FileHandler.init None) "/repo" =
    (Returns true,
     FileHandler.mk FileHandler.DEFAULT_EXCLUDE_PATTERNS ({[ "/repo" ]} ∪ ∅)).
Proof.
  apply (proj1 (proj2 (is_safe_path_contract (Toy.os Toy.repo)
                         (FileHandler.init None) "/repo")) "/repo").
  - reflexivity.
  - apply not_elem_of_empty.
Defined.

(** ** ExclusionMatcher: [should_exclude] *)

Lemma is_sep_slash : is_sep "/" = true.
Proof. reflexivity. Qed.

Lemma path_parts_nil : path_parts "" = [""].
Proof. reflexivity. Qed.

Lemma path_parts_cons (a : ascii) (p : string) :
  path_parts (String a p) =
    if is_sep a then "" :: path_parts p
    else match path_parts p with
         | [] => [String a ""]
         | w :: ws => String a w :: ws
         end.
Proof.
  unfold path_parts, is_sep. simpl.
  destruct (Ascii.eqb_spec a "\") as [->|Hb]; [done|].
  by rewrite orb_false_r.
Qed.

(** The first part is the text up to the first separator; every later
    part stands right after a separator. *)
Lemma path_parts_sound (p : string) :
  ∃ w ws, path_parts p = w :: ws ∧
    (sep_free w ∧ ∃ post, p = w +:+ post ∧ right_boundary post) ∧
    (∀ c, c ∈ ws →
       sep_free c ∧
       ∃ pre s post, is_sep s = true ∧ p = pre +:+ String s (c +:+ post) ∧
                     right_boundary post).
Proof.
  induction p as [|a p (w & ws & Hp & (Hw & post & Hpost & Hb) & Hws)].
  - exists "", []. split; [done|]. split.
    + split; [done|]. exists "". split; [done | by left].
    + by intros c ?%elem_of_nil.
  - rewrite path_parts_cons, Hp. destruct (is_sep a) eqn:Ha.
    + exists "", (w :: ws). split; [done|]. split.
      * split; [done|]. exists (String a p). split; [done|].
        right. by exists a, p.
      * intros c [->|Hc]%elem_of_cons.
        -- split; [done|]. exists "", a, post. by rewrite <- Hpost.
        -- destruct (Hws c Hc) as (Hfree & pre & s & post' & Hs & Hp' & Hb').
           split; [done|]. exists (String a pre), s, post'.
           by rewrite append_cons, <- Hp'.
    + exists (String a w), ws. split; [done|]. split.
      * split; [done|]. exists post. by rewrite append_cons, <- Hpost.
      * intros c Hc.
        destruct (Hws c Hc) as (Hfree & pre & s & post' & Hs & Hp' & Hb').
        split; [done|]. exists (String a pre), s, post'.
        by rewrite append_cons, <- Hp'.
Qed.

Lemma elem_of_tail {A} (x : A) (l : list A) : x ∈ tail l → x ∈ l.
Proof. destruct l; [done|]. intros ?. apply elem_of_cons; by right. Qed.

Lemma path_parts_first (c post : string) :
  sep_free c → right_boundary post →
  ∃ ws, path_parts (c +:+ post) = c :: ws.
Proof.
  intros Hc Hb. induction c as [|a c IH].
  - rewrite append_nil_l. destruct Hb as [->|(s & post' & Hs & ->)].
    + by exists [].
    + rewrite path_parts_cons, Hs. by eexists.
  - destruct Hc as [Ha Hc]. destruct (IH Hc) as [ws Hws].
    rewrite append_cons, path_parts_cons, Ha, Hws. by eexists.
Qed.

Lemma path_parts_later (pre rest : string) (s : ascii) (x : string) :
  is_sep s = true → x ∈ path_parts rest →
  x ∈ tail (path_parts (pre +:+ String s rest)).
Proof.
  intros Hs Hx. induction pre as [|a pre IH].
  - by rewrite append_nil_l, path_parts_cons, Hs.
  - rewrite append_cons, path_parts_cons. destruct (is_sep a).
    + simpl. by apply elem_of_tail.
    + by destruct (path_parts (pre +:+ String s rest)).
Qed.

Lemma path_parts_component (c p : string) :
  c ∈ path_parts p ↔ path_component c p.
Proof.
  split.
  - destruct (path_parts_sound p) as (w & ws & -> & (Hw & post & Hp & Hb) & Hws).
    intros [->|Hc]%elem_of_cons.
    + split; [done|]. exists "", post. by repeat split; [|left|].
    + destruct (Hws c Hc) as (Hfree & pre & s & post' & Hs & Hp' & Hb').
      split; [done|]. exists (pre +:+ String s ""), post'.
      repeat split; [|right; by exists pre, s|done].
      by rewrite append_assoc.
  - intros (Hfree & pre & post & -> & Hl & Hr).
    destruct (path_parts_first c post Hfree Hr) as [ws Hws].
    destruct Hl as [->|(pre' & s & Hs & ->)].
    + rewrite append_nil_l, Hws. apply elem_of_cons; by left.
    + rewrite append_assoc. change (String s "" +:+ c +:+ post)
        with (String s (c +:+ post)).
      apply elem_of_tail, path_parts_later; [done|].
      rewrite Hws. apply elem_of_cons; by left.
Qed.

(** C2.  [should_exclude(p)] is true exactly when one of the components
    of [p], cut at [/] and at [\], is equal to one of the patterns; a
    component that only contains a pattern does not count. *)
Theorem should_exclude_iff_component (self : FileHandler.t) (p : string) :
  FileHandler.should_exclude self p = true ↔
  ∃ comp, path_component comp p ∧ comp ∈ FileHandler.exclude_patterns self.
Proof.
  unfold FileHandler.should_exclude, PyStr.any. fold (path_parts p).
  rewrite existsb_exists. split.
  - intros (c & Hc%list_elem_of_In & Hin%bool_decide_eq_true).
    exists c. by rewrite <- path_parts_component.
  - intros (c & Hc%path_parts_component & Hin).
    exists c. by rewrite <- list_elem_of_In, bool_decide_eq_true.
Qed.

(** The pattern [env] does not exclude [environment], and does exclude
    a component [env] behind either separator. *)
Example should_exclude_environment :
  FileHandler.should_exclude (FileHandler.init (Some {[ "env" ]}))
    "src/environment/main.py" = false ∧
  FileHandler.should_exclude (FileHandler.init (Some {[ "env" ]}))
    "src\env/main.py" = true.
Proof. split; vm_compute; reflexivity. Qed.

(** ** The tokenizer's binary test: [is_binary_file] *)

Lemma textchars_spec (b : Z) : b ∈ TokenCounter.textchars ↔ text_byte b.
Proof.
  unfold TokenCounter.textchars, text_byte.
  rewrite elem_of_union, elem_of_difference, !elem_of_list_to_set,
    elem_of_seqZ, elem_of_singleton.
  split; (intros [H|[H1 H2]]; [by left | right; split; [lia|done]]).
Qed.

Lemma truthy_filter {A} (f : A → bool) (l : list A) :
  PyStr.truthy (List.filter f l) = true ↔ ∃ x, x ∈ l ∧ f x = true.
Proof.
  induction l as [|y l IH]; simpl.
  - split; [done|]. by intros (x & ?%elem_of_nil & _).
  - destruct (f y) eqn:Hy; simpl.
    + split; [|done]. intros _. exists y. split; [by left|done].
    + rewrite IH. split; intros (x & Hx & Hf); exists x.
      * split; [by right|done].
      * apply elem_of_cons in Hx as [->|Hx]; [congruence|done].
Qed.

(** A file that cannot be opened counts as binary. *)
Lemma is_binary_file_unreadable (os : OS) (filepath : string) c msg :
  read_bytes os filepath = Raises c msg →
  TokenCounter.is_binary_file os filepath = true.
Proof.
  intros H. unfold TokenCounter.is_binary_file. rewrite H.
  by case_bool_decide.
Qed.

(** C7, as the code has it.  For a file that the extension test lets
    pass and that can be read, [is_binary_file] is true exactly when the
    first 1024 bytes hold a byte outside 7, 8, 9, 10, 12, 13, 27 and
    0x20..0xFF without 0x7F. *)
Theorem is_binary_file_sniff (os : OS) (filepath : string) (content : list Z) :
  PyStr.lower (guess_extension os filepath) ∉ TokenCounter.BINARY_EXTENSIONS →
  read_bytes os filepath = Returns content →
  (TokenCounter.is_binary_file os filepath = true ↔
   ∃ b, b ∈ take 1024 content ∧ ¬ text_byte b).
Proof.
  intros Hext Hread. unfold TokenCounter.is_binary_file.
  rewrite bool_decide_eq_false_2, Hread by done.
  unfold TokenCounter.translate_delete. rewrite truthy_filter.
  split; intros (b & Hb & Hout); exists b; (split; [done|]).
  - rewrite <- textchars_spec. by apply negb_true_iff, bool_decide_eq_false in Hout.
  - apply negb_true_iff, bool_decide_eq_false. by rewrite textchars_spec.
Qed.

(** The byte 0 makes a file binary. *)
Lemma is_binary_file_sniff_witness :
  TokenCounter.is_binary_file
    (Toy.os (Toy.mk_fs [] [("/t/nul.txt", [0])])) "/t/nul.txt" = true.
Proof.
  apply (is_binary_file_sniff
           (Toy.os (Toy.mk_fs [] [("/t/nul.txt", [0])])) "/t/nul.txt" [0]).
  - by vm_compute.
  - reflexivity.
  - exists 0. split; [by left|].
    intros [H|[H _]]; [|lia].
    by repeat (apply elem_of_cons in H as [H|H]; [lia|]); apply elem_of_nil in H.
Defined.

(** C7, as the specification words it, fails on a file whose first byte
    is 0xFF: the byte is outside 0x20..0xFE and the file counts as text. *)
Lemma is_binary_file_0xFF :
  ¬ sniffs_as_specified (Toy.os Toy.latin1) "/t/ff.txt".
Proof.
  intros H. specialize (H [255]).
  assert (TokenCounter.is_binary_file (Toy.os Toy.latin1) "/t/ff.txt" = false)
    as Hcode by (vm_compute; reflexivity).
  rewrite Hcode in H. destruct H as [_ H].
  - by vm_compute.
  - reflexivity.
  - discriminate H. exists 255. split; [by left|].
    intros [H'|[H' _]]; [|lia].
    by repeat (apply elem_of_cons in H' as [H'|H']; [lia|]); apply elem_of_nil in H'.
Qed.

(** ** Suffixes and substrings *)

Lemma startswith_spec (s p : string) :
  PyStr.startswith s p = true ↔ ∃ t, s = p +:+ t.
Proof.
  revert s. induction p as [|a p IH]; intros s; simpl.
  - split; [by exists s | done].
  - destruct s as [|b s].
    + split; [done | by intros [t ?]].
    + rewrite andb_true_iff, IH. split.
      * intros [->%Ascii.eqb_eq [t ->]]. by exists t.
      * intros [t [= -> ->]]. split; [apply Ascii.eqb_refl | by exists t].
Qed.

Lemma rev_app_spec (s t : string) : String.rev_app s t = String.rev s +:+ t.
Proof.
  unfold String.rev. revert t. induction s as [|a s IH]; intros t; [done|].
  simpl. rewrite (IH (String a "")), IH. by rewrite append_assoc.
Qed.

Lemma rev_append (s t : string) :
  String.rev (s +:+ t) = String.rev t +:+ String.rev s.
Proof.
  induction s as [|a s IH].
  - by rewrite append_nil_l, append_nil_r.
  - rewrite append_cons. unfold String.rev at 1 3. simpl.
    rewrite !rev_app_spec, IH. by rewrite append_assoc.
Qed.

Lemma rev_involutive (s : string) : String.rev (String.rev s) = s.
Proof.
  induction s as [|a s IH]; [done|].
  unfold String.rev at 2. simpl. rewrite rev_app_spec, rev_append, IH.
  done.
Qed.

(** [s.endswith(p)]: [p] is a suffix of [s]. *)
Lemma endswith_spec (s p : string) :
  PyStr.endswith s p = true ↔ ∃ t, s = t +:+ p.
Proof.
  unfold PyStr.endswith. rewrite startswith_spec. split.
  - intros [t Ht]. exists (String.rev t).
    rewrite <- (rev_involutive s), Ht, rev_append. by rewrite rev_involutive.
  - intros [t ->]. exists (String.rev t). apply rev_append.
Qed.

(** [p in s]: [p] occurs in [s]. *)
Lemma contains_spec (s p : string) :
  PyStr.contains s p = true ↔ ∃ pre post, s = pre +:+ p +:+ post.
Proof.
  induction s as [|a s IH]; simpl; rewrite orb_true_iff, startswith_spec.
  - split.
    + intros [[t Ht]|?]; [|done]. by exists "", t.
    + intros (pre & post & H). left. destruct pre; [by exists post|done].
  - rewrite IH. split.
    + intros [[t Ht]|(pre & post & ->)]; [by exists "", t|].
      by exists (String a pre), post.
    + intros ([|b pre] & post & H).
      * left. by exists post.
      * right. injection H as -> ->. by exists pre, post.
Qed.

(** ** Extension filters *)

(** The test of [populate_tree] and of the aggregation thread: no
    filter, or the lower-cased name ends with a lower-cased extension. *)
Lemma matches_extensions_spec (extensions : list string) (item : string) :
  MainApplication.matches_extensions extensions item = true ↔
  extensions = [] ∨
  ∃ ext t, ext ∈ extensions ∧ PyStr.lower item = t +:+ PyStr.lower ext.
Proof.
  unfold MainApplication.matches_extensions, PyStr.any.
  rewrite orb_true_iff, existsb_exists. split.
  - intros [H|(ext & Hin%list_elem_of_In & [t Ht]%endswith_spec)].
    + left. by destruct extensions.
    + right. by exists ext, t.
  - intros [->|(ext & t & Hin & Ht)]; [by left|]. right.
    exists ext. split; [by apply list_elem_of_In|]. apply endswith_spec. by exists t.
Qed.

(** The test of [get_files]: no filter, or the name as it is ends with
    an extension as it is. *)
Lemma get_files_keeps_spec (extensions : list string) (filename : string) :
  FileHandler.get_files_keeps extensions filename = true ↔
  extensions = [] ∨ ∃ ext t, ext ∈ extensions ∧ filename = t +:+ ext.
Proof.
  unfold FileHandler.get_files_keeps, PyStr.any.
  rewrite negb_true_iff, andb_false_iff, negb_false_iff, existsb_exists. split.
  - intros [H|(ext & Hin%list_elem_of_In & [t Ht]%endswith_spec)].
    + left. by destruct extensions.
    + right. by exists ext, t.
  - intros [->|(ext & t & Hin & Ht)]; [by left|]. right.
    exists ext. split; [by apply list_elem_of_In|]. apply endswith_spec. by exists t.
Qed.

(** C6.  The file [A.PY] and the filter [.py]: the per-folder listing
    ([populate_tree]) lets the file pass, the flat enumeration
    ([get_files]) drops it, because it compares without lower-casing. *)
Theorem get_files_filter_is_case_sensitive :
  MainApplication.matches_extensions [".py"] "A.PY" = true ∧
  FileHandler.get_files_keeps [".py"] "A.PY" = false ∧
  FileHandler.get_files_keeps [] "A.PY" = true.
Proof. repeat split. Qed.

(** ** The directory tree of the digest *)

(** The tree leaves an entry out when a pattern occurs anywhere in its
    relative path. *)
Lemma tree_skips_spec (pats : gset string) (rel_path : string) :
  MarkdownGenerator.tree_skips (Some pats) rel_path = true ↔
  ∃ p pre post, p ∈ pats ∧ rel_path = pre +:+ p +:+ post.
Proof.
  unfold MarkdownGenerator.tree_skips, PyStr.any.
  rewrite andb_true_iff, existsb_exists. split.
  - intros (_ & p & Hin%list_elem_of_In%elem_of_elements & Hc%contains_spec).
    destruct Hc as (pre & post & ->). by exists p, pre, post.
  - intros (p & pre & post & Hin & ->).
    apply elem_of_elements in Hin. split.
    + destruct (elements pats); [by apply elem_of_nil in Hin|done].
    + exists p. split; [by apply list_elem_of_In|].
      apply contains_spec. by exists pre, post.
Qed.

(** C4.  With the pattern [env], the tree of [/repo] leaves out the
    folder [env] and also the file [environment.txt], whose only
    component has [env] as a proper substring, and which
    [should_exclude] does not exclude. *)
Theorem directory_tree_prunes_substring :
  MarkdownGenerator.directory_tree_lines 50 (Toy.os Toy.repo) "/repo"
    (Some {[ "env" ]}) =
    [ "# Repository Structure" +:+ nl; "```"; "📦 repo";
      "├── 📂 src"; "│   ├── A.PY"; "│   └── main.py"; "├── a.py";
      "```" +:+ nl ] ∧
  MarkdownGenerator.tree_skips (Some {[ "env" ]}) "environment.txt" = true ∧
  FileHandler.should_exclude (FileHandler.init (Some {[ "env" ]}))
    "environment.txt" = false.
Proof. repeat split; vm_compute; reflexivity. Qed.

(** ** The digest: [generate_markdown_to_string] *)

(** C10.  With no selected path the digest is the empty string, with
    success: no tree, no [# Selected Files] header, nothing raised. *)
Theorem generate_markdown_to_string_empty (depth : nat) (os : OS)
    (exclude_patterns : option (gset string)) :
  MarkdownGenerator.generate_markdown_to_string depth os exclude_patterns [] =
    (true, "").
Proof. reflexivity. Qed.

(** The loop writes, after what the buffer holds, one section for each
    path of the list that is no directory, in the order of the list. *)
Lemma write_files_digest (os : OS) (common_prefix : string)
    (rel : string → string) (paths : list string) (buffer : string) :
  (∀ p, p ∈ paths → isdir os p = false →
        relpath os p common_prefix = Returns (rel p)) →
  MarkdownGenerator.write_files os common_prefix paths buffer =
    Returns (buffer +:+
             PyStr.concat
               (map (fun p => digest_section os (rel p) p)
                    (List.filter (fun p => negb (isdir os p)) paths))).
Proof.
  revert buffer. induction paths as [|p paths IH]; intros buffer Hrel; simpl.
  { by rewrite append_nil_r. }
  unfold MarkdownGenerator.file_section.
  destruct (isdir os p) eqn:Hdir; simpl.
  { apply IH. intros q Hq. apply Hrel. by right. }
  rewrite (Hrel p) by (by left || done).
  assert (∀ text,
            MarkdownGenerator.write_files os common_prefix paths (buffer +:+ text) =
            Returns (buffer +:+ text +:+
                     PyStr.concat
                       (map (fun p => digest_section os (rel p) p)
                          (List.filter (fun p => negb (isdir os p)) paths))))
    as Hrest.
  { intros text. rewrite IH by (intros q Hq; apply Hrel; by right).
    by rewrite append_assoc. }
  unfold digest_section at 1, header_line, content_block.
  destruct (read_text os p) as [content|c msg]; rewrite Hrest;
    by rewrite ?append_assoc.
Qed.

Lemma generate_markdown_to_string_digest (depth : nat) (os : OS)
    (exclude_patterns : option (gset string)) (paths : list string)
    (common_prefix : string) (rel : string → string) :
  paths ≠ [] →
  commonpath os (map (dirname os) paths) = Returns common_prefix →
  (∀ p, p ∈ paths → isdir os p = false →
        relpath os p common_prefix = Returns (rel p)) →
  MarkdownGenerator.generate_markdown_to_string depth os exclude_patterns paths =
    (true, digest_of depth os exclude_patterns common_prefix rel paths).
Proof.
  intros Hne Hcp Hrel.
  unfold MarkdownGenerator.generate_markdown_to_string,
    MarkdownGenerator.generate_markdown_to_string_try.
  destruct paths as [|p0 paths]; [done|].
  change (PyStr.truthy (p0 :: paths)) with true. cbv iota. rewrite Hcp.
  rewrite (write_files_digest os common_prefix rel) by done.
  unfold digest_of, digest_head. do 2 f_equal.
  destruct (path_exists os _); simpl negb; cbv iota;
    destruct (PyStr.nonempty _); try done.
Qed.

(** [dict.fromkeys] keeps the first occurrence of each key. *)
Lemma filter_filter {A} (f g : A → bool) (l : list A) :
  List.filter f (List.filter g l) = List.filter (fun x => g x && f x) l.
Proof.
  induction l as [|x l IH]; [done|]. simpl.
  destruct (g x); simpl; [destruct (f x)|]; by rewrite IH.
Qed.

Lemma filter_all {A} (f : A → bool) (l : list A) :
  (∀ x, f x = true) → List.filter f l = l.
Proof.
  intros Hf. induction l as [|x l IH]; [done|]. simpl. by rewrite Hf, IH.
Qed.

Lemma fold_fromkeys (l keys : list string) :
  fold_left (fun keys k => if bool_decide (k ∈ keys) then keys else keys ++ [k])
    l keys =
  keys ++ List.filter (fun y => negb (bool_decide (y ∈ keys)))
            (first_occurrences l).
Proof.
  revert keys. induction l as [|x l IH]; intros keys; simpl.
  - by rewrite app_nil_r.
  - rewrite IH, filter_filter. case_bool_decide as Hx; simpl.
    + f_equal. apply List.filter_ext. intros y.
      destruct (String.eqb_spec x y) as [->|]; [|done].
      by rewrite bool_decide_eq_true_2.
    + rewrite <- app_assoc. simpl. do 2 f_equal.
      apply List.filter_ext. intros y.
      destruct (String.eqb_spec x y) as [->|Hxy]; simpl.
      * rewrite bool_decide_eq_true_2; [done|]. apply elem_of_app. right. by left.
      * f_equal. apply bool_decide_ext.
        rewrite elem_of_app, list_elem_of_singleton. split; [|by left].
        by intros [?|?].
Qed.

Lemma dict_fromkeys_first_occurrences (l : list string) :
  MainApplication.dict_fromkeys l = first_occurrences l.
Proof.
  unfold MainApplication.dict_fromkeys. rewrite fold_fromkeys. simpl.
  by apply filter_all.
Qed.

Lemma elem_of_first_occurrences (l : list string) (x : string) :
  x ∈ first_occurrences l ↔ x ∈ l.
Proof.
  induction l as [|y l IH]; [done|]. simpl.
  rewrite !elem_of_cons, <- IH, list_elem_of_In, filter_In, <- list_elem_of_In.
  split.
  - intros [?|[? _]]; [by left | by right].
  - intros [->|Hx]; [by left|].
    destruct (String.eqb_spec y x) as [->|Hne]; [by left | by right].
Qed.

Lemma NoDup_first_occurrences (l : list string) : NoDup (first_occurrences l).
Proof.
  induction l as [|y l IH]; simpl; [constructor|]. constructor.
  - rewrite list_elem_of_In, filter_In. intros [_ H].
    by rewrite String.eqb_refl in H.
  - apply NoDup_ListNoDup, List.NoDup_filter, NoDup_ListNoDup, IH.
Qed.

(** A path stands where it first occurs: what precedes its first
    occurrence keeps its own order before it. *)
Lemma first_occurrences_app (l1 l2 : list string) :
  first_occurrences (l1 ++ l2) =
  first_occurrences l1 ++
  List.filter (fun y => negb (bool_decide (y ∈ l1))) (first_occurrences l2).
Proof.
  induction l1 as [|x l1 IH]; simpl.
  - symmetry. by apply filter_all.
  - f_equal. rewrite IH, List.filter_app, filter_filter. f_equal.
    apply List.filter_ext. intros y.
    destruct (String.eqb_spec x y) as [->|Hxy]; simpl.
    + rewrite andb_false_r, (bool_decide_eq_true_2 (y ∈ y :: l1)); [done|].
      by left.
    + rewrite andb_true_r. f_equal. apply bool_decide_ext.
      rewrite elem_of_cons. split; [by right|]. by intros [?|?].
Qed.

(** C8, as the code has it.  The caller removes the duplicates, first
    occurrence first ([dict.fromkeys] in [copy_markdown_to_clipboard]),
    and hands the result to [generate_markdown_to_string].  That
    function writes, after the head, one header line and one block for
    each element of the list it gets that is no directory, in the order
    of the list, duplicates included.  So the copied document has
    exactly one header line and one block for each distinct path, at
    the place of its first occurrence. *)
Theorem compose_selected_first_occurrences (depth : nat) (os : OS)
    (st : MainApplication.app) (selected : list string) :
  MainApplication.dict_fromkeys selected = first_occurrences selected ∧
  NoDup (first_occurrences selected) ∧
  (∀ p, p ∈ first_occurrences selected ↔ p ∈ selected) ∧
  (∀ l1 l2, selected = l1 ++ l2 →
     first_occurrences selected =
       first_occurrences l1 ++
       List.filter (fun y => negb (bool_decide (y ∈ l1))) (first_occurrences l2)) ∧
  MainApplication.compose_selected depth os st selected =
    match first_occurrences selected with
    | [] => None
    | files =>
        Some (MarkdownGenerator.generate_markdown_to_string depth os
                (Some (if MainApplication.exclude_enabled st
                       then MainApplication.patterns_of
                              (MainApplication.exclude_entry st)
                       else ∅))
                files)
    end ∧
  (∀ exclude_patterns paths common_prefix rel,
     paths ≠ [] →
     commonpath os (map (dirname os) paths) = Returns common_prefix →
     (∀ p, p ∈ paths → isdir os p = false →
           relpath os p common_prefix = Returns (rel p)) →
     MarkdownGenerator.generate_markdown_to_string depth os exclude_patterns
       paths =
       (true, digest_of depth os exclude_patterns common_prefix rel paths)) ∧
  (∀ common_prefix rel,
     selected ≠ [] →
     commonpath os (map (dirname os) (first_occurrences selected)) =
       Returns common_prefix →
     (∀ p, p ∈ selected → isdir os p = false →
           relpath os p common_prefix = Returns (rel p)) →
     MainApplication.compose_selected depth os st selected =
       Some (true,
             digest_of depth os
               (Some (if MainApplication.exclude_enabled st
                      then MainApplication.patterns_of
                             (MainApplication.exclude_entry st)
                      else ∅))
               common_prefix rel (first_occurrences selected))).
Proof.
  split; [apply dict_fromkeys_first_occurrences|].
  split; [apply NoDup_first_occurrences|].
  split; [apply elem_of_first_occurrences|].
  split; [intros l1 l2 ->; apply first_occurrences_app|].
  assert (MainApplication.compose_selected depth os st selected =
            match first_occurrences selected with
            | [] => None
            | files =>
                Some (MarkdownGenerator.generate_markdown_to_string depth os
                        (Some (if MainApplication.exclude_enabled st
                               then MainApplication.patterns_of
                                      (MainApplication.exclude_entry st)
                               else ∅))
                        files)
            end) as Hcompose.
  { unfold MainApplication.compose_selected.
    rewrite dict_fromkeys_first_occurrences.
    by destruct (first_occurrences selected). }
  split; [exact Hcompose|].
  split; [intros pats paths cp rel; apply generate_markdown_to_string_digest|].
  intros cp rel Hne Hcp Hrel. rewrite Hcompose.
  assert (∀ p, p ∈ first_occurrences selected → isdir os p = false →
               relpath os p cp = Returns (rel p)) as Hrel'.
  { intros p Hp. apply Hrel. by apply elem_of_first_occurrences. }
  destruct (first_occurrences selected) as [|f fs] eqn:E.
  { destruct selected; [done|discriminate E]. }
  f_equal. by apply generate_markdown_to_string_digest.
Qed.

(** The selection [a.py], [src/main.py], [a.py] of [/repo]: the copied
    document has the section of [a.py] once, then that of
    [src/main.py]. *)
Lemma compose_selected_first_occurrences_witness :
  MainApplication.compose_selected 50 (Toy.os Toy.repo) MainApplication.init
    ["/repo/a.py"; "/repo/src/main.py"; "/repo/a.py"] =
  Some (true,
        digest_head 50 (Toy.os Toy.repo)
          (Some (if MainApplication.exclude_enabled MainApplication.init
                 then MainApplication.patterns_of
                        (MainApplication.exclude_entry MainApplication.init)
                 else ∅))
          "/repo" +:+
        PyStr.concat
          [ digest_section (Toy.os Toy.repo) "a.py" "/repo/a.py";
            digest_section (Toy.os Toy.repo) "src/main.py" "/repo/src/main.py" ]).
Proof.
  refine (proj2 (proj2 (proj2 (proj2 (proj2 (proj2
            (compose_selected_first_occurrences 50 (Toy.os Toy.repo)
               MainApplication.init
               ["/repo/a.py"; "/repo/src/main.py"; "/repo/a.py"]))))))
            "/repo"
            (fun p => match Toy.rel p "/repo" with
                      | Returns r => r
                      | Raises _ _ => p
                      end) _ _ _).
  - discriminate.
  - vm_compute. reflexivity.
  - intros p Hp _.
    repeat (apply elem_of_cons in Hp as [->|Hp]; [reflexivity|]).
    by apply elem_of_nil in Hp.
Defined.

(** C8, as the specification words it, fails: handed [a.py] twice,
    [generate_markdown_to_string] writes its section twice. *)
Lemma generate_markdown_to_string_keeps_duplicates :
  ¬ compose_deduplicates 50 (Toy.os Toy.repo) None ["/repo/a.py"; "/repo/a.py"].
Proof. unfold compose_deduplicates. vm_compute. discriminate. Qed.

Example generate_markdown_to_string_twice :
  (MarkdownGenerator.generate_markdown_to_string 0 (Toy.os Toy.repo) None
     ["/repo/a.py"; "/repo/a.py"]).2 =
  PyStr.concat
    [ "# Repository Structure" +:+ nl +:+ nl; "```" +:+ nl; "📦 repo" +:+ nl;
      "⚠️ Error generating complete tree: maximum recursion depth exceeded" +:+ nl;
      "```" +:+ nl; nl; nl; "# Selected Files" +:+ nl +:+ nl;
      "# a.py" +:+ nl +:+ nl; "```python" +:+ nl; "print(1)" +:+ nl;
      "```" +:+ nl +:+ nl;
      "# a.py" +:+ nl +:+ nl; "```python" +:+ nl; "print(1)" +:+ nl;
      "```" +:+ nl +:+ nl ].
Proof. vm_compute. reflexivity. Qed.

(** ** Selection: excluded items are never checked *)

Import MainApplication.

(** ** The tree widget keeps its shape *)

Lemma parent_ok_not_placeholder tv q it :
  tree_wf tv → parent_ok tv q → Tk.items tv !! q = Some it →
  Tk.Dummy ∉ Tk.tags it.
Proof.
  intros (Hd & _ & _) Hq Hit Hdummy. destruct q as [p|n].
  - by destruct (Hd _ _ Hit Hdummy) as (_ & m & ?).
  - destruct Hq as (it' & Hit' & Hn). congruence.
Qed.

Lemma tags_add_child c it : Tk.tags (Tk.add_child c it) = Tk.tags it.
Proof. done. Qed.

Lemma tags_remove_child c it : Tk.tags (Tk.remove_child c it) = Tk.tags it.
Proof. done. Qed.

(** What an insertion does to the items. *)
Lemma insert_lookup tv parent id txt vals tgs r tv' :
  Tk.insert tv parent id txt vals tgs = (Returns r, tv') →
  ∃ itp, Tk.items tv !! parent = Some itp ∧
    (r = match id with Some s => inl s | None => inr (S (Tk.serial tv)) end) ∧
    Tk.serial tv' = match id with Some _ => Tk.serial tv | None => S (Tk.serial tv) end ∧
    ∀ j, Tk.items tv' !! j =
         if decide (j = parent)
         then Some (Tk.add_child r (if decide (parent = r) then Tk.mk_item txt vals tgs false [] else itp))
         else if decide (j = r) then Some (Tk.mk_item txt vals tgs false [])
         else Tk.items tv !! j.
Proof.
  unfold Tk.insert. destruct (Tk.items tv !! parent) as [itp|] eqn:Hp; [|done].
  destruct id as [s|].
  - destruct (Tk.items tv !! inl s) eqn:Hs; [done|]. intros [= <- <-].
    exists itp. repeat split. intros j. simpl.
    rewrite lookup_alter. destruct (decide (j = parent)) as [->|Hj].
    + rewrite decide_True by done. destruct (decide (parent = inl s)) as [->|Hne].
      * by rewrite lookup_insert_eq.
      * by rewrite lookup_insert_ne, Hp.
    + rewrite decide_False by done. destruct (decide (j = inl s)) as [->|Hne].
      * by rewrite lookup_insert_eq.
      * by rewrite lookup_insert_ne.
  - intros [= <- <-]. exists itp. repeat split. intros j. simpl.
    rewrite lookup_alter. destruct (decide (j = parent)) as [->|Hj].
    + rewrite decide_True by done.
      destruct (decide (parent = inr (S (Tk.serial tv)))) as [->|Hne].
      * by rewrite lookup_insert_eq.
      * by rewrite lookup_insert_ne, Hp.
    + rewrite decide_False by done.
      destruct (decide (j = inr (S (Tk.serial tv)))) as [->|Hne].
      * by rewrite lookup_insert_eq.
      * by rewrite lookup_insert_ne.
Qed.

Lemma insert_raises tv parent id txt vals tgs c e tv' :
  Tk.insert tv parent id txt vals tgs = (Raises c e, tv') → tv' = tv.
Proof.
  unfold Tk.insert. destruct (Tk.items tv !! parent); [|by intros [= <-]].
  destruct id as [s|]; [|done].
  destruct (Tk.items tv !! inl s); [by intros [= <-]|done].
Qed.

Lemma insert_fresh tv parent s txt vals tgs r tv' :
  Tk.insert tv parent (Some s) txt vals tgs = (Returns r, tv') →
  Tk.items tv !! inl s = None.
Proof.
  unfold Tk.insert. destruct (Tk.items tv !! parent); [|done].
  by destruct (Tk.items tv !! inl s).
Qed.

Lemma insert_sel_wf tv c q parent id txt vals tgs r tv' :
  sel_wf tv c → parent_ok tv q →
  parent = q ∨ (∃ p, parent = inl p) →
  tags_allowed id tgs →
  Tk.insert tv parent id txt vals tgs = (r, tv') →
  sel_wf tv' c ∧ parent_ok tv' q.
Proof.
  intros (Hwf & Hexc & Hex) Hq Hparent Htags Hins.
  destruct r as [r|ce e]; [|by apply insert_raises in Hins as ->].
  destruct (insert_lookup _ _ _ _ _ _ _ _ Hins) as (itp & Hp & Hr & Hser & Hl).
  pose proof Hwf as (Hd & Hauto & Hserial).
  assert (Tk.Dummy ∉ Tk.tags itp) as Hpd.
  { destruct Hparent as [->|[p ->]].
    - by eapply parent_ok_not_placeholder.
    - by eapply (parent_ok_not_placeholder tv (inl p)). }
  assert (Tk.items tv !! r = None) as Hfresh.
  { destruct id as [s|]; subst r; [by eapply insert_fresh|].
    destruct (Tk.items tv !! inr (S (Tk.serial tv))) eqn:Hn; [|done].
    assert (S (Tk.serial tv) ≤ Tk.serial tv)%nat by (apply Hserial; eauto). lia. }
  assert (parent ≠ r) as Hne by congruence.
  assert (∀ j, Tk.items tv' !! j =
               if decide (j = parent) then Some (Tk.add_child r itp)
               else if decide (j = r) then Some (Tk.mk_item txt vals tgs false [])
               else Tk.items tv !! j) as Hl'.
  { intros j. rewrite Hl. by rewrite (decide_False (P := parent = r)). }
  clear Hl.
  assert (Tk.Excluded ∉ tgs ∨ ∃ s, r = inl s) as Hnew.
  { destruct id as [s|]; [right; eauto|]. left.
    destruct Htags as [->| ->]; by intros [=]%list_elem_of_singleton. }
  split; [split; [split; [|split]|split]|].
  - intros i it. rewrite Hl'. repeat case_decide; intros Hit Hdm.
    + injection Hit as <-. done.
    + injection Hit as <-. simpl in *. subst i. split; [done|].
      destruct id; [done|]. eauto.
    + by apply (Hd i).
  - intros n it. rewrite Hl'. repeat case_decide; intros Hit.
    + injection Hit as <-. apply (Hauto n itp). congruence.
    + injection Hit as <-. simpl. destruct id; [congruence|]. done.
    + by apply (Hauto n).
  - intros n. rewrite Hl', Hser. repeat case_decide; intros Hsome.
    + assert (n ≤ Tk.serial tv)%nat by (apply Hserial; subst parent; eauto).
      destruct id; lia.
    + destruct id; [congruence|]. assert (n = S (Tk.serial tv)) by congruence. lia.
    + apply Hserial in Hsome. destruct id; lia.
  - intros i it Hi. rewrite Hl'. repeat case_decide; intros Hit.
    + injection Hit as <-. apply (Hexc i itp); congruence.
    + injection Hit as <-. simpl. destruct Hnew as [?|[s ->]]; [done|].
      subst i. apply Hex in Hi as [? ?]. congruence.
    + by apply (Hexc i).
  - intros p Hp'. rewrite Hl'. repeat case_decide; eauto.
  - destruct q as [p|n]; [done|]. destruct Hq as (it & Hit & Hdm).
    simpl. rewrite Hl'. repeat case_decide.
    + exists (Tk.add_child r itp). split; [done|]. simpl.
      assert (itp = it) by congruence. by subst.
    + congruence.
    + eauto.
Qed.

(** Changing the text, the open flag or the values of an item. *)
Lemma update_sel_wf tv c q i it it' :
  Tk.items tv !! i = Some it →
  Tk.tags it' = Tk.tags it → Tk.children it' = Tk.children it →
  sel_wf tv c → parent_ok tv q →
  sel_wf (Tk.mk_tree (<[ i := it' ]> (Tk.items tv)) (Tk.serial tv)) c ∧
  parent_ok (Tk.mk_tree (<[ i := it' ]> (Tk.items tv)) (Tk.serial tv)) q.
Proof.
  intros Hi Ht Hc ((Hd & Hauto & Hserial) & Hexc & Hex) Hq.
  split; [split; [split; [|split]|split]|]; simpl.
  - intros j x. rewrite lookup_insert. case_decide; intros Hx.
    + injection Hx as <-. subst j. rewrite Ht, Hc. by apply Hd.
    + by apply Hd.
  - intros n x. rewrite lookup_insert. case_decide; intros Hx.
    + injection Hx as <-. rewrite Ht. apply (Hauto n). congruence.
    + by apply (Hauto n).
  - intros n. rewrite lookup_insert. case_decide; intros Hx.
    + apply Hserial. subst i. eauto.
    + by apply Hserial.
  - intros j x Hj. rewrite lookup_insert. case_decide; intros Hx.
    + injection Hx as <-. rewrite Ht. apply (Hexc i); congruence.
    + by apply (Hexc j).
  - intros p Hp. rewrite lookup_insert. case_decide; eauto.
  - destruct q as [p|n]; [done|]. destruct Hq as (x & Hx & Hdm). simpl.
    rewrite lookup_insert. case_decide.
    + exists it'. split; [done|]. rewrite Ht. congruence.
    + eauto.
Qed.

Lemma set_text_sel_wf tv c q i txt r tv' :
  sel_wf tv c → parent_ok tv q →
  Tk.set_text tv i txt = (r, tv') → sel_wf tv' c ∧ parent_ok tv' q.
Proof.
  intros Hwf Hq. unfold Tk.set_text.
  destruct (Tk.items tv !! i) as [it|] eqn:Hi; intros [= <- <-]; [|done].
  by eapply update_sel_wf.
Qed.

Lemma set_open_sel_wf tv c q i o r tv' :
  sel_wf tv c → parent_ok tv q →
  Tk.set_open tv i o = (r, tv') → sel_wf tv' c ∧ parent_ok tv' q.
Proof.
  intros Hwf Hq. unfold Tk.set_open.
  destruct (Tk.items tv !! i) as [it|] eqn:Hi; intros [= <- <-]; [|done].
  by eapply update_sel_wf.
Qed.

Lemma set_values_sel_wf tv c q i vals r tv' :
  sel_wf tv c → parent_ok tv q →
  Tk.set_values tv i vals = (r, tv') → sel_wf tv' c ∧ parent_ok tv' q.
Proof.
  intros Hwf Hq. unfold Tk.set_values.
  destruct (Tk.items tv !! i) as [it|] eqn:Hi; intros [= <- <-]; [|done].
  by eapply update_sel_wf.
Qed.

(** Deleting only removes items. *)
Lemma delete_subtree_sub (fuel : nat) (m : gmap Tk.iid Tk.item)
    (i j : Tk.iid) (it : Tk.item) :
  Tk.delete_subtree fuel m i !! j = Some it → m !! j = Some it.
Proof.
  revert m i. induction fuel as [|fuel IH]; intros m i; simpl;
    destruct (m !! i) as [x|] eqn:Hi; try done.
  - intros H. apply lookup_delete_Some in H. tauto.
  - generalize (Tk.children x). intros l.
    assert (∀ m', fold_left (Tk.delete_subtree fuel) l m' !! j = Some it →
                  m' !! j = Some it) as Hfold.
    { induction l as [|k l IHl]; intros m'; simpl; [done|].
      intros H. by apply IH with k, IHl. }
    intros H%Hfold. apply lookup_delete_Some in H. tauto.
Qed.

Lemma delete_raises tv i c e tv' :
  Tk.delete tv i = (Raises c e, tv') → tv' = tv.
Proof.
  unfold Tk.delete. case_bool_decide; [by intros [= <-]|].
  destruct (Tk.items tv !! i); [done | by intros [= <-]].
Qed.

Lemma delete_lookup tv i tv' j it' :
  Tk.delete tv i = (Returns tt, tv') →
  Tk.items tv' !! j = Some it' →
  Tk.serial tv' = Tk.serial tv ∧
  ∃ it, Tk.items tv !! j = Some it ∧ it' = Tk.remove_child i it.
Proof.
  unfold Tk.delete. case_bool_decide; [done|].
  destruct (Tk.items tv !! i); [|done]. intros [= <-]. simpl.
  rewrite lookup_fmap. intros Hl. split; [done|].
  apply fmap_Some in Hl as (it & Hit & ->).
  apply delete_subtree_sub in Hit. eauto.
Qed.

Lemma delete_tree_wf tv i r tv' :
  tree_wf tv → Tk.delete tv i = (r, tv') → tree_wf tv'.
Proof.
  intros (Hd & Hauto & Hserial) Hdel.
  destruct r as [[]|c e]; [|by apply delete_raises in Hdel as ->].
  split; [|split].
  - intros j it' Hj Hdm.
    destruct (delete_lookup _ _ _ _ _ Hdel Hj) as (_ & it & Hit & ->).
    destruct (Hd j it Hit Hdm) as [Hc Hn]. split; [|done].
    simpl. by rewrite Hc.
  - intros n it' Hj.
    destruct (delete_lookup _ _ _ _ _ Hdel Hj) as (_ & it & Hit & ->).
    exact (Hauto n it Hit).
  - intros n [it' Hj].
    destruct (delete_lookup _ _ _ _ _ Hdel Hj) as (-> & it & Hit & ->).
    apply Hserial. eauto.
Qed.

(** Deleting a leaf removes that item only. *)
Lemma delete_leaf tv i it tv' r :
  Tk.items tv !! i = Some it → Tk.children it = [] → i ≠ Tk.root →
  Tk.delete tv i = (r, tv') →
  Tk.serial tv' = Tk.serial tv ∧
  ∀ j, j ≠ i → Tk.items tv' !! j = Tk.remove_child i <$> Tk.items tv !! j.
Proof.
  intros Hi Hc Hroot. unfold Tk.delete. rewrite bool_decide_eq_false_2 by done.
  rewrite Hi. intros [= <- <-]. split; [done|]. intros j Hj. simpl.
  rewrite lookup_fmap. f_equal.
  assert (Tk.delete_subtree (size (Tk.items tv)) (Tk.items tv) i =
          delete i (Tk.items tv)) as ->.
  { destruct (size (Tk.items tv)); simpl; rewrite Hi; [done|]. by rewrite Hc. }
  by rewrite lookup_delete_ne.
Qed.

Lemma delete_placeholder_sel_wf tv c q i it r tv' :
  sel_wf tv c → parent_ok tv q →
  Tk.items tv !! i = Some it → Tk.Dummy ∈ Tk.tags it →
  Tk.delete tv i = (r, tv') →
  sel_wf tv' c ∧ parent_ok tv' q.
Proof.
  intros (Hwf & Hexc & Hex) Hq Hi Hdm Hdel.
  pose proof Hwf as (Hd & _ & _).
  destruct (Hd i it Hi Hdm) as (Hc & n & ->).
  destruct (delete_leaf _ _ _ _ _ Hi Hc ltac:(done) Hdel) as [Hser Hl].
  split; [split; [|split]|].
  - by eapply delete_tree_wf.
  - intros j x Hj Hx. destruct r as [[]|ce e].
    + destruct (delete_lookup _ _ _ _ _ Hdel Hx) as (_ & y & Hy & ->).
      exact (Hexc j y Hj Hy).
    + apply delete_raises in Hdel as ->. by apply (Hexc j).
  - intros p Hp. rewrite Hl by done. apply fmap_is_Some. by apply Hex.
  - destruct q as [p|m]; [done|]. destruct Hq as (x & Hx & Hxd). simpl.
    assert (m ≠ n) by congruence.
    rewrite Hl by congruence. rewrite Hx. simpl. eauto.
Qed.

(** ** The items form a tree *)

Lemma insert_shape tv parent id txt vals tgs r tv' :
  tree_wf tv → tree_shape tv →
  Tk.insert tv parent id txt vals tgs = (r, tv') → tree_shape tv'.
Proof.
  intros (_ & _ & Hserial) Hs Hins.
  destruct r as [r|ce e]; [|by apply insert_raises in Hins as ->].
  destruct Hs as (H0 & H1 & H2 & H3 & H4).
  destruct (insert_lookup _ _ _ _ _ _ _ _ Hins) as (itp & Hp & Hr & _ & Hl).
  assert (Tk.items tv !! r = None) as Hfresh.
  { destruct id as [s|]; subst r; [by eapply insert_fresh|].
    destruct (Tk.items tv !! inr (S (Tk.serial tv))) eqn:Hn; [|done].
    assert (S (Tk.serial tv) ≤ Tk.serial tv)%nat by (apply Hserial; eauto). lia. }
  assert (parent ≠ r) as Hne by congruence.
  assert (∀ j, Tk.items tv' !! j =
               if decide (j = parent) then Some (Tk.add_child r itp)
               else if decide (j = r) then Some (Tk.mk_item txt vals tgs false [])
               else Tk.items tv !! j) as Hl'.
  { intros j. rewrite Hl. by rewrite (decide_False (P := parent = r)). }
  clear Hl.
  assert (∀ p it, Tk.items tv !! p = Some it → r ∉ Tk.children it) as Hnr.
  { intros p it Hit Hin. destruct (H1 _ _ _ Hit Hin). congruence. }
  assert (∀ j, is_Some (Tk.items tv !! j) → is_Some (Tk.items tv' !! j)) as Hmono.
  { intros j Hj. rewrite Hl'. repeat case_decide; eauto. }
  assert (∀ p it c, Tk.items tv' !! p = Some it → c ∈ Tk.children it →
            (p = parent ∧ c = r) ∨
            (p ≠ r ∧ ∃ it0, Tk.items tv !! p = Some it0 ∧ c ∈ Tk.children it0))
    as Hchild.
  { intros p it c. rewrite Hl'. repeat case_decide; intros Hit Hc.
    - injection Hit as <-. simpl in Hc. apply elem_of_app in Hc as [Hc|Hc].
      + right. split; [congruence|]. subst p. eauto.
      + left. split; [done|]. by apply list_elem_of_singleton in Hc.
    - injection Hit as <-. by apply elem_of_nil in Hc.
    - right. eauto. }
  split; [|split; [|split; [|split]]].
  - by apply Hmono.
  - intros p it c Hit Hc.
    destruct (Hchild _ _ _ Hit Hc) as [[-> ->]|(_ & it0 & Hit0 & Hc0)].
    + rewrite Hl'. repeat case_decide; first [done | eauto].
    + apply Hmono. by eapply H1.
  - intros p p' it it' c Hit Hit' Hc Hc'.
    destruct (Hchild _ _ _ Hit Hc) as [[-> ->]|(_ & it0 & Hit0 & Hc0)];
      destruct (Hchild _ _ _ Hit' Hc') as [[-> ?]|(_ & it1 & Hit1 & Hc1)];
      try done.
    + by destruct (Hnr _ _ Hit1).
    + subst c. by destruct (Hnr _ _ Hit0).
    + by eapply H2.
  - intros p it. rewrite Hl'. repeat case_decide; intros Hit.
    + injection Hit as <-. simpl. apply NoDup_app. split; [by eapply H3|].
      split; [|apply NoDup_singleton].
      intros x Hx ->%list_elem_of_singleton. by destruct (Hnr _ _ Hp).
    + injection Hit as <-. constructor.
    + by eapply H3.
  - intros p it Hit Hroot.
    destruct (Hchild _ _ _ Hit Hroot) as [[-> Hrr]|(_ & it0 & Hit0 & Hc0)].
    + destruct H0 as [x Hx]. congruence.
    + by destruct (H4 _ _ Hit0).
Qed.

Lemma update_shape tv i it it' :
  Tk.items tv !! i = Some it → Tk.children it' = Tk.children it →
  tree_shape tv →
  tree_shape (Tk.mk_tree (<[ i := it' ]> (Tk.items tv)) (Tk.serial tv)).
Proof.
  intros Hi Hc (H0 & H1 & H2 & H3 & H4).
  assert (∀ p x, <[ i := it' ]> (Tk.items tv) !! p = Some x →
            ∃ y, Tk.items tv !! p = Some y ∧ Tk.children x = Tk.children y) as Hl.
  { intros p x. rewrite lookup_insert. case_decide; intros Hx.
    - injection Hx as <-. subst p. eauto.
    - eauto. }
  assert (∀ j, is_Some (Tk.items tv !! j) →
               is_Some (<[ i := it' ]> (Tk.items tv) !! j)) as Hmono.
  { intros j Hj. rewrite lookup_insert. case_decide; eauto. }
  split; [|split; [|split; [|split]]]; simpl.
  - by apply Hmono.
  - intros p x c Hx Hcx. destruct (Hl _ _ Hx) as (y & Hy & Heq).
    apply Hmono. eapply H1; [done|]. by rewrite <- Heq.
  - intros p p' x x' c Hx Hx' Hcx Hcx'.
    destruct (Hl _ _ Hx) as (y & Hy & Heq).
    destruct (Hl _ _ Hx') as (y' & Hy' & Heq').
    rewrite Heq in Hcx. rewrite Heq' in Hcx'. by eapply H2.
  - intros p x Hx. destruct (Hl _ _ Hx) as (y & Hy & ->). by eapply H3.
  - intros p x Hx. destruct (Hl _ _ Hx) as (y & Hy & ->). by eapply H4.
Qed.

(** What [delete_subtree] removes besides the item itself was the child
    of an item that it removes. *)
Lemma delete_subtree_removed (fuel : nat) (m : gmap Tk.iid Tk.item)
    (i j : Tk.iid) :
  is_Some (m !! j) → Tk.delete_subtree fuel m i !! j = None →
  j = i ∨ ∃ p y, m !! p = Some y ∧ j ∈ Tk.children y ∧
                 Tk.delete_subtree fuel m i !! p = None.
Proof.
  revert m i. induction fuel as [|fuel IH]; intros m i Hj; simpl;
    destruct (m !! i) as [x|] eqn:Hi.
  - intros H. apply lookup_delete_None in H as [?|H]; [by left|].
    rewrite H in Hj. by destruct Hj.
  - intros H. rewrite H in Hj. by destruct Hj.
  - assert (∀ l m', (∀ k y, m' !! k = Some y → m !! k = Some y) →
              m' !! i = None →
              (∀ c, c ∈ l → c ∈ Tk.children x) →
              is_Some (m' !! j) →
              fold_left (Tk.delete_subtree fuel) l m' !! j = None →
              ∃ p y, m !! p = Some y ∧ j ∈ Tk.children y ∧
                     fold_left (Tk.delete_subtree fuel) l m' !! p = None)
      as Hfold.
    { induction l as [|c l IHl]; intros m' Hsub Hi' Hl Hj' Hnone; simpl in *.
      - rewrite Hnone in Hj'. by destruct Hj'.
      - assert (∀ m0 k, m0 !! k = None →
                  fold_left (Tk.delete_subtree fuel) l m0 !! k = None) as Hstay.
        { clear. induction l as [|c l IHl]; intros m0 k Hk; simpl; [done|].
          apply IHl. destruct (Tk.delete_subtree fuel m0 c !! k) eqn:Hd; [|done].
          apply delete_subtree_sub in Hd. congruence. }
        destruct (Tk.delete_subtree fuel m' c !! j) as [z|] eqn:Hdj.
        + destruct (IHl (Tk.delete_subtree fuel m' c)) as (p & y & ? & ? & ?);
            eauto.
          * intros k y Hk. apply Hsub. by eapply delete_subtree_sub.
          * destruct (Tk.delete_subtree fuel m' c !! i) eqn:Hd; [|done].
            apply delete_subtree_sub in Hd. congruence.
          * intros c' Hc'. apply Hl. by right.
        + destruct (IH m' c Hj' Hdj) as [->|(p & y & Hp & Hin & Hpn)].
          * exists i, x. split; [done|]. split; [apply Hl; by left|].
            apply Hstay.
            destruct (Tk.delete_subtree fuel m' c !! i) eqn:Hd; [|done].
            apply delete_subtree_sub in Hd. congruence.
          * exists p, y. split; [by apply Hsub|]. split; [done|].
            by apply Hstay. }
    intros Hnone. destruct (decide (j = i)) as [->|Hne]; [by left|]. right.
    apply Hfold; try done.
    + intros k y Hk. apply lookup_delete_Some in Hk. tauto.
    + apply lookup_delete_eq.
    + by rewrite lookup_delete_ne.
  - intros H. rewrite H in Hj. by destruct Hj.
Qed.

Lemma delete_shape tv i r tv' :
  tree_shape tv → Tk.delete tv i = (r, tv') → tree_shape tv'.
Proof.
  intros Hs Hdel.
  destruct r as [[]|ce e]; [|by apply delete_raises in Hdel as ->].
  pose proof Hs as (H0 & H1 & H2 & H3 & H4).
  revert Hdel. unfold Tk.delete. case_bool_decide as Hroot; [done|].
  destruct (Tk.items tv !! i) as [iti|] eqn:Hi; [|done]. intros [= <-].
  set (D := Tk.delete_subtree (size (Tk.items tv)) (Tk.items tv) i).
  assert (∀ k y, D !! k = Some y → Tk.items tv !! k = Some y) as Hsub.
  { intros k y. apply delete_subtree_sub. }
  assert (∀ k, is_Some (Tk.items tv !! k) → D !! k = None →
            k = i ∨ ∃ p y, Tk.items tv !! p = Some y ∧ k ∈ Tk.children y ∧
                           D !! p = None) as Hrem.
  { intros k. apply delete_subtree_removed. }
  assert (∀ p x c, (Tk.remove_child i <$> D) !! p = Some x → c ∈ Tk.children x →
            c ≠ i ∧ ∃ y, D !! p = Some y ∧ c ∈ Tk.children y) as Hchild.
  { intros p x c. rewrite lookup_fmap. intros (y & Hy & ->)%fmap_Some. simpl.
    rewrite list_elem_of_In, filter_In, <- list_elem_of_In.
    intros [Hc Hn]. split; [|eauto].
    apply negb_true_iff, bool_decide_eq_false in Hn. done. }
  split; [|split; [|split; [|split]]]; simpl.
  - rewrite lookup_fmap. apply fmap_is_Some.
    destruct (D !! Tk.root) eqn:Hd; [eauto|].
    destruct (Hrem _ H0 Hd) as [?|(p & y & Hp & Hin & _)]; [done|].
    by destruct (H4 _ _ Hp).
  - intros p x c Hx Hc. destruct (Hchild _ _ _ Hx Hc) as (Hci & y & Hy & Hcy).
    rewrite lookup_fmap. apply fmap_is_Some.
    destruct (D !! c) eqn:Hd; [eauto|].
    destruct (Hrem c) as [?|(p0 & y0 & Hp0 & Hin0 & Hnone)]; [|done|done|].
    { eapply H1; [by apply Hsub|done]. }
    assert (p0 = p) as -> by (eapply H2; eauto). congruence.
  - intros p p' x x' c Hx Hx' Hc Hc'.
    destruct (Hchild _ _ _ Hx Hc) as (_ & y & Hy & Hcy).
    destruct (Hchild _ _ _ Hx' Hc') as (_ & y' & Hy' & Hcy').
    eapply H2; eauto.
  - intros p x. rewrite lookup_fmap. intros (y & Hy & ->)%fmap_Some. simpl.
    apply NoDup_ListNoDup, List.NoDup_filter, NoDup_ListNoDup.
    eapply H3. by apply Hsub.
  - intros p x Hx Hc. destruct (Hchild _ _ _ Hx Hc) as (_ & y & Hy & Hcy).
    eapply H4; [by apply Hsub|done].
Qed.

(** ** Rules for the triples *)

Lemma triple_conseq {A} (P P' : app → Prop) (Q Q' : A → app → Prop)
    (E E' : app → Prop) (m : M A) :
  triple P' m Q' E' →
  (∀ st, P st → P' st) → (∀ a st, Q' a st → Q a st) → (∀ st, E' st → E st) →
  triple P m Q E.
Proof.
  intros Hm HP HQ HE st Hst. specialize (Hm st (HP st Hst)).
  destruct (m st) as [[a|c e] st']; eauto.
Qed.

Lemma triple_ret {A} (P : app → Prop) (E : app → Prop) (a : A) :
  triple P (ret a) (fun b st => P st ∧ b = a) E.
Proof. intros st Hst. by split. Qed.

Lemma triple_raise {A} (P : app → Prop) (Q : A → app → Prop) c e :
  triple P (raise c e) Q P.
Proof. by intros st Hst. Qed.

Lemma triple_bind {A B} (P : app → Prop) (Q : A → app → Prop)
    (R : B → app → Prop) (E : app → Prop) (m : M A) (f : A → M B) :
  triple P m Q E → (∀ a, triple (Q a) (f a) R E) →
  triple P (m ≫= f) R E.
Proof.
  intros Hm Hf st Hst. specialize (Hm st Hst).
  unfold mbind, M_bind, bind. destruct (m st) as [[a|c e] st']; [|done].
  by apply Hf.
Qed.

Lemma triple_gets {A} (P : app → Prop) (E : app → Prop) (f : app → A) :
  triple P (gets f) (fun a st => P st ∧ a = f st) E.
Proof. intros st Hst. by split. Qed.

Lemma triple_lift {A} (P : app → Prop) (o : outcome A) :
  triple P (lift o) (fun a st => P st ∧ o = Returns a) P.
Proof. intros st Hst. unfold lift. by destruct o. Qed.

Lemma triple_modify (P : app → Prop) (Q : unit → app → Prop) (E : app → Prop)
    (f : app → app) :
  (∀ st, P st → Q tt (f st)) → triple P (modify f) Q E.
Proof. intros Hf st Hst. by apply Hf. Qed.

Lemma triple_try_except {A} (P : app → Prop) (Q : A → app → Prop)
    (E E' : app → Prop) (m : M A) catches (h : string → M A) :
  triple P m Q E' → (∀ e, triple E' (h e) Q E) → (∀ st, E' st → E st) →
  triple P (try_except m catches h) Q E.
Proof.
  intros Hm Hh HE st Hst. specialize (Hm st Hst). unfold try_except.
  destruct (m st) as [[a|c e] st']; [done|].
  destruct (catches c); [by apply Hh | by apply HE].
Qed.

Lemma triple_when (I : app → Prop) (b : bool) (m : M unit) :
  (b = true → triple I m (fun _ => I) I) →
  triple I (when b m) (fun _ => I) I.
Proof. intros Hm. destruct b; [by apply Hm | by intros st Hst]. Qed.

Lemma triple_for_each {A} (I : app → Prop) (l : list A) (f : A → M unit) :
  (∀ x, x ∈ l → triple I (f x) (fun _ => I) I) →
  triple I (for_each l f) (fun _ => I) I.
Proof.
  induction l as [|x l IH]; intros Hf; simpl.
  - by intros st Hst.
  - eapply triple_bind.
    + apply Hf. by left.
    + intros []. apply IH. intros y Hy. apply Hf. by right.
Qed.

(** Dropping what is known about the value. *)
Lemma triple_forget {A} (I : app → Prop) (Q : A → app → Prop) (m : M A) :
  triple I m Q I → (∀ a st, Q a st → I st) →
  triple I m (fun _ => I) I.
Proof. intros Hm HQ. eapply triple_conseq; eauto. Qed.

(** The widget calls. *)
Lemma triple_tree_item (P : app → Prop) (i : Tk.iid) :
  triple P (tree_item i)
    (fun it st => P st ∧ Tk.items (tree st) !! i = Some it) P.
Proof.
  intros st Hst. unfold tree_item, Tk.item_of, mbind, M_bind, bind, gets, lift.
  simpl. by destruct (Tk.items (tree st) !! i).
Qed.

Lemma triple_tree_get_children (P : app → Prop) (i : Tk.iid) :
  triple P (tree_get_children i)
    (fun cs st => P st ∧ ∃ it, Tk.items (tree st) !! i = Some it ∧
                               Tk.children it = cs) P.
Proof.
  intros st Hst.
  unfold tree_get_children, Tk.get_children, mbind, M_bind, bind, gets, lift.
  simpl. destruct (Tk.items (tree st) !! i); eauto.
Qed.

Lemma triple_tree_insert (q parent : Tk.iid) id txt vals tgs :
  parent = q ∨ (∃ p, parent = inl p) → tags_allowed id tgs →
  triple (J q) (tree_insert parent id txt vals tgs)
    (fun r st => J q st ∧ ∀ s, id = Some s → r = inl s) (J q).
Proof.
  intros Hp Ht st (Hwf & Hsh & Hq). unfold tree_insert, on_tree.
  destruct (Tk.insert _ _ _ _ _ _) as [r tv'] eqn:Hins.
  destruct (insert_sel_wf _ _ _ _ _ _ _ _ _ _ Hwf Hq Hp Ht Hins) as [Hwf' Hq'].
  assert (tree_shape tv') as Hsh' by (eapply insert_shape; [apply Hwf|done..]).
  destruct r as [r|c e]; [|done]. split; [done|].
  intros s Hid. subst id.
  by destruct (insert_lookup _ _ _ _ _ _ _ _ Hins) as (_ & _ & -> & _).
Qed.

Lemma triple_tree_set_text (q i : Tk.iid) txt :
  triple (J q) (tree_set_text i txt) (fun _ => J q) (J q).
Proof.
  intros st (Hwf & Hsh & Hq). unfold tree_set_text, on_tree, Tk.set_text.
  destruct (Tk.items (tree st) !! i) as [it|] eqn:Hi; [|done]. simpl.
  destruct (update_sel_wf (tree st) (checked_items st) q i it
              (Tk.mk_item txt (Tk.values it) (Tk.tags it) (Tk.is_open it)
                 (Tk.children it))) as [? ?]; try done.
  split; [done|]. split; [|done]. by eapply update_shape.
Qed.

Lemma triple_tree_set_open (q i : Tk.iid) o :
  triple (J q) (tree_set_open i o) (fun _ => J q) (J q).
Proof.
  intros st (Hwf & Hsh & Hq). unfold tree_set_open, on_tree, Tk.set_open.
  destruct (Tk.items (tree st) !! i) as [it|] eqn:Hi; [|done]. simpl.
  destruct (update_sel_wf (tree st) (checked_items st) q i it
              (Tk.mk_item (Tk.text it) (Tk.values it) (Tk.tags it) o
                 (Tk.children it))) as [? ?]; try done.
  split; [done|]. split; [|done]. by eapply update_shape.
Qed.

Lemma triple_tree_set_values (q i : Tk.iid) vals :
  triple (J q) (tree_set_values i vals) (fun _ => J q) (J q).
Proof.
  intros st (Hwf & Hsh & Hq). unfold tree_set_values, on_tree, Tk.set_values.
  destruct (Tk.items (tree st) !! i) as [it|] eqn:Hi; [|done]. simpl.
  destruct (update_sel_wf (tree st) (checked_items st) q i it
              (Tk.mk_item (Tk.text it) vals (Tk.tags it) (Tk.is_open it)
                 (Tk.children it))) as [? ?]; try done.
  split; [done|]. split; [|done]. by eapply update_shape.
Qed.

Lemma triple_tree_delete_placeholder (q i : Tk.iid) it :
  Tk.Dummy ∈ Tk.tags it →
  triple (fun st => J q st ∧ Tk.items (tree st) !! i = Some it)
    (tree_delete i) (fun _ => J q) (J q).
Proof.
  intros Hdm st [(Hwf & Hsh & Hq) Hi]. unfold tree_delete, on_tree.
  destruct (Tk.delete _ _) as [r tv'] eqn:Hd.
  destruct (delete_placeholder_sel_wf _ _ _ _ _ _ _ Hwf Hq Hi Hdm Hd).
  assert (tree_shape tv') by by eapply delete_shape.
  by destruct r.
Qed.

Lemma triple_is_safe_path (os : OS) (q : Tk.iid) path :
  triple (J q) (is_safe_path os path) (fun _ => J q) (J q).
Proof.
  intros st Hst. unfold is_safe_path.
  destruct (FileHandler.is_safe_path _ _ _) as [r fh]. by destruct r.
Qed.

Lemma keeps_bind {A B} (I : app → Prop) (m : M A) (f : A → M B) :
  keeps I m → (∀ a, keeps I (f a)) → keeps I (m ≫= f).
Proof. intros Hm Hf. by eapply triple_bind. Qed.

Lemma keeps_bind_val {A B} (I : app → Prop) (Q : A → app → Prop)
    (m : M A) (f : A → M B) :
  triple I m Q I → (∀ a, triple (Q a) (f a) (fun _ => I) I) →
  keeps I (m ≫= f).
Proof. intros Hm Hf. by eapply triple_bind. Qed.

Lemma keeps_ret {A} (I : app → Prop) (a : A) : keeps I (ret a).
Proof. by intros st Hst. Qed.

Lemma keeps_raise {A} (I : app → Prop) c e : keeps I (@raise A c e).
Proof. by intros st Hst. Qed.

Lemma keeps_gets {A} (I : app → Prop) (f : app → A) : keeps I (gets f).
Proof. by intros st Hst. Qed.

Lemma keeps_lift {A} (I : app → Prop) (o : outcome A) : keeps I (lift o).
Proof. intros st Hst. unfold lift. by destruct o. Qed.

Lemma keeps_modify (I : app → Prop) (f : app → app) :
  (∀ st, I st → I (f st)) → keeps I (modify f).
Proof. intros Hf st Hst. by apply Hf. Qed.

Lemma keeps_try_except {A} (I : app → Prop) (m : M A) catches (h : string → M A) :
  keeps I m → (∀ e, keeps I (h e)) → keeps I (try_except m catches h).
Proof. intros Hm Hh. by eapply triple_try_except. Qed.

Lemma keeps_when (I : app → Prop) (b : bool) (m : M unit) :
  keeps I m → keeps I (when b m).
Proof. intros Hm. by apply triple_when. Qed.

Lemma keeps_for_each {A} (I : app → Prop) (l : list A) (f : A → M unit) :
  (∀ x, keeps I (f x)) → keeps I (for_each l f).
Proof. intros Hf. apply triple_for_each. intros x _. apply Hf. Qed.

Lemma keeps_weaken {A} (I : app → Prop) (Q : A → app → Prop) (m : M A) :
  (∀ a st, Q a st → I st) → triple I m Q I → keeps I m.
Proof. intros HQ Hm. by eapply triple_forget. Qed.

Lemma triple_pure {A} (P : app → Prop) (φ : Prop) (Q : A → app → Prop)
    (E : app → Prop) (m : M A) :
  (φ → triple P m Q E) → triple (fun st => P st ∧ φ) m Q E.
Proof. intros Hm st [Hst Hφ]. by apply Hm. Qed.

Lemma keeps_tree_insert (q parent : Tk.iid) id txt vals tgs :
  parent = q ∨ (∃ p, parent = inl p) → tags_allowed id tgs →
  keeps (J q) (tree_insert parent id txt vals tgs).
Proof.
  intros Hp Ht. eapply keeps_weaken; [|by apply triple_tree_insert].
  by intros a st [? _].
Qed.

Lemma not_dummy_tags (tgs : list Tk.tag) :
  forallb (fun t => negb (bool_decide (t = Tk.Dummy))) tgs = true →
  Tk.Dummy ∉ tgs.
Proof.
  intros H Hin. apply list_elem_of_In in Hin.
  rewrite forallb_forall in H. specialize (H _ Hin).
  by rewrite bool_decide_eq_true_2 in H.
Qed.

Ltac tags_ok :=
  first [ apply not_dummy_tags; reflexivity | by left | by right ].

Ltac keeps_leaf :=
  first
    [ apply keeps_ret
    | apply keeps_raise
    | apply keeps_gets
    | apply keeps_lift
    | apply triple_is_safe_path
    | apply triple_tree_set_text
    | apply triple_tree_set_open
    | apply triple_tree_set_values
    | apply keeps_tree_insert; [solve [eauto] | tags_ok] ].

Ltac keeps_step :=
  first
    [ keeps_leaf
    | apply keeps_when
    | apply keeps_for_each; intros ?
    | apply keeps_try_except; [|intros ?]
    | match goal with
      | |- keeps _ (if ?b then _ else _) => destruct b
      | |- keeps _ ((if ?b then _ else _) ≫= _) => destruct b
      end
    | eapply keeps_bind_val;
      [ apply triple_tree_insert; [solve [eauto] | tags_ok]
      | intros ?; apply triple_pure;
        let H := fresh in
        intros H; try (specialize (H _ eq_refl); subst);
        match goal with
        | |- triple ?I ?m _ _ => change (keeps I m)
        end ]
    | apply keeps_bind; [try keeps_leaf | intros ?] ].

Lemma keeps_populate_folder (os : OS) (q parent : Tk.iid) path item :
  parent = q ∨ (∃ p, parent = inl p) →
  keeps (J q) (populate_folder os parent path item).
Proof. intros Hp. unfold populate_folder. by repeat keeps_step. Qed.

Lemma keeps_populate_file (os : OS) (q parent : Tk.iid) path exts item :
  parent = q ∨ (∃ p, parent = inl p) →
  keeps (J q) (populate_file os parent path exts item).
Proof. intros Hp. unfold populate_file. by repeat keeps_step. Qed.

Lemma keeps_populate_tree (os : OS) (q parent : Tk.iid) path exts :
  parent = q ∨ (∃ p, parent = inl p) →
  keeps (J q) (populate_tree os parent path exts).
Proof.
  intros Hp. unfold populate_tree.
  do 4 keeps_step.
  - by repeat keeps_step.
  - keeps_step.
    + keeps_step. by apply keeps_populate_folder.
    + keeps_step. by apply keeps_populate_file.
Qed.

(** ** The selection methods keep the tree and the selection well formed *)

Lemma triple_derive {A} (P : app → Prop) (φ : Prop) (Q : A → app → Prop)
    (E : app → Prop) (m : M A) :
  (∀ st, P st → φ) → (φ → triple P m Q E) → triple P m Q E.
Proof. intros Hφ Hm st Hst. apply Hm; eauto. Qed.

Lemma triple_item_of (P E : app → Prop) (i : Tk.iid) :
  (∀ st, P st → E st) →
  triple P (tree_item i)
    (fun it st => P st ∧ Tk.items (tree st) !! i = Some it) E.
Proof.
  intros HE. eapply triple_conseq; [apply (triple_tree_item P)|done|done|done].
Qed.

Lemma triple_children_of (P E : app → Prop) (i : Tk.iid) :
  (∀ st, P st → E st) →
  triple P (tree_get_children i)
    (fun cs st => P st ∧ ∃ it, Tk.items (tree st) !! i = Some it ∧
                               Tk.children it = cs) E.
Proof.
  intros HE.
  eapply triple_conseq; [apply (triple_tree_get_children P)|done|done|done].
Qed.

Lemma J_change_parent q q' st :
  J q st → parent_ok (tree st) q' → J q' st.
Proof. intros (? & ? & _) ?. split; [done|]. by split. Qed.

Lemma J_inl q p st : J q st → J (inl p) st.
Proof. intros H. by eapply J_change_parent. Qed.

Lemma not_placeholder_inl tv p : tree_wf tv → not_placeholder tv (inl p).
Proof.
  intros (Hd & _ & _) it Hit Hdm. by destruct (Hd _ _ Hit Hdm) as (_ & n & ?).
Qed.

Lemma parent_ok_of_item tv q it :
  Tk.items tv !! q = Some it → Tk.Dummy ∉ Tk.tags it → parent_ok tv q.
Proof. intros Hit Hdm. destruct q; [done|]. simpl. eauto. Qed.

Lemma folder_is_path tv i it :
  tree_wf tv → Tk.items tv !! i = Some it → Tk.has_tag Tk.Folder it = true →
  ∃ p, i = inl p.
Proof.
  intros (_ & Hauto & _) Hit Hf. destruct i as [p|n]; [eauto|].
  apply bool_decide_eq_true in Hf.
  destruct (Hauto _ _ Hit) as [Ht|Ht]; rewrite Ht in Hf;
    by apply list_elem_of_singleton in Hf.
Qed.

Lemma keeps_calculate_tokens_for_directory os q d :
  keeps (J q) (calculate_tokens_for_directory os d).
Proof.
  unfold calculate_tokens_for_directory.
  apply keeps_bind; [|intros ?]; apply keeps_modify; by intros st H.
Qed.

Lemma keeps_update_total_tokens q : keeps (J q) update_total_tokens.
Proof.
  apply keeps_modify. intros st ((Hwf & Hexc & Hex) & Hsh & Hq).
  split; [|done]. split; [done|]. split; simpl.
  - intros i it [_ Hi]%elem_of_filter. by apply Hexc.
  - intros p [_ Hp]%elem_of_filter. by apply Hex.
Qed.

Lemma triple_materialize (os : OS) (item : Tk.iid) :
  triple (fun st => W st ∧ not_placeholder (tree st) item)
    (materialize os item) (fun _ => W) W.
Proof.
  unfold materialize. eapply triple_bind.
  { apply triple_children_of with (E := W). by intros st [? _]. }
  intros children.
  apply triple_conseq with (P' := J item) (Q' := fun _ => J item)
                           (E' := J item).
  - apply keeps_bind.
    { destruct children as [|c [|]]; repeat keeps_step. }
    intros only_dummy. apply keeps_when. apply keeps_bind.
    + apply keeps_for_each. intros child. eapply keeps_bind_val.
      { by apply triple_item_of. }
      intros it. destruct (Tk.has_tag Tk.Dummy it) eqn:Hd; simpl.
      * apply triple_tree_delete_placeholder. by apply bool_decide_eq_true in Hd.
      * by intros st [? _].
    + intros ?. apply keeps_bind; [apply keeps_gets|intros exts].
      apply keeps_populate_tree. by left.
  - intros st ([Hw Hnp] & it & Hit & _). eapply J_change_parent; [done|].
    eapply parent_ok_of_item; eauto.
  - intros _ st H. by eapply J_inl.
  - intros st H. by eapply J_inl.
Qed.

Lemma triple_set_text_tags (q i : Tk.iid) (it : Tk.item) txt :
  triple (fun st => J q st ∧ Tk.items (tree st) !! i = Some it)
    (tree_set_text i txt)
    (fun _ st => J q st ∧ ∃ it', Tk.items (tree st) !! i = Some it' ∧
                                Tk.tags it' = Tk.tags it) (J q).
Proof.
  intros st [HJ Hi]. pose proof (triple_tree_set_text q i txt st HJ) as H.
  revert H. unfold tree_set_text, on_tree, Tk.set_text. rewrite Hi. simpl.
  intros H. split; [done|]. eexists. split; [apply lookup_insert_eq|done].
Qed.

Lemma J_check q st i it :
  J q st → Tk.items (tree st) !! i = Some it → Tk.Excluded ∉ Tk.tags it →
  J q (set_checked_items (fun c => {[ i ]} ∪ c) st).
Proof.
  intros ((Hwf & Hexc & Hex) & Hsh & Hq) Hi Hx.
  split; [|done]. split; [done|]. split; simpl.
  - intros j x [->%elem_of_singleton|Hj]%elem_of_union Hjx.
    + congruence.
    + by apply (Hexc j).
  - intros p [->%elem_of_singleton|Hp]%elem_of_union; [eauto|by apply Hex].
Qed.

Lemma J_subset (q : Tk.iid) (st : app) (f : gset Tk.iid → gset Tk.iid) :
  (∀ c, f c ⊆ c) → J q st → J q (set_checked_items f st).
Proof.
  intros Hf ((Hwf & Hexc & Hex) & Hsh & Hq).
  split; [|done]. split; [done|]. split; simpl.
  - intros j x Hj. apply Hexc. by apply (Hf _ j).
  - intros p Hp. apply Hex. by apply (Hf _ (inl p)).
Qed.

(** What a folder does once it is checked or clicked: open, fill,
    start the aggregation. *)
Lemma triple_folder_block (item : Tk.iid) (it : Tk.item) (m : M unit) :
  (∀ p, item = inl p → triple (fun st => W st ∧ not_placeholder (tree st) item)
                         m (fun _ => W) W) →
  triple (fun st => W st ∧ ∃ it', Tk.items (tree st) !! item = Some it' ∧
                                  Tk.tags it' = Tk.tags it)
    (when (Tk.has_tag Tk.Folder it) m) (fun _ => W) W.
Proof.
  intros Hm. destruct (Tk.has_tag Tk.Folder it) eqn:Hf; simpl.
  - apply (triple_derive _ (∃ p, item = inl p)).
    + intros st [Hw (it' & Hit' & Ht)]. eapply folder_is_path; [apply Hw|done|].
      unfold Tk.has_tag in *. by rewrite Ht.
    + intros [p ->]. eapply triple_conseq; [by eapply Hm|..]; try done.
      intros st [Hw _]. split; [done|]. apply not_placeholder_inl, Hw.
  - by intros st [? _].
Qed.

Lemma keeps_check_item_and_children (depth : nat) (os : OS) (item : Tk.iid)
    (skip : bool) :
  keeps W (check_item_and_children depth os item skip).
Proof.
  revert item. induction depth as [|depth IH]; intros item; simpl.
  { apply keeps_raise. }
  eapply keeps_bind_val; [by apply triple_item_of|]. intros it.
  destruct (Tk.has_tag Tk.Excluded it) eqn:Hx.
  { by intros st [? _]. }
  eapply triple_bind; [apply triple_set_text_tags|]. intros ?.
  eapply triple_bind.
  { apply (triple_modify _ (fun _ st => W st ∧ ∃ it', Tk.items (tree st) !! item = Some it' ∧ Tk.tags it' = Tk.tags it)).
    intros st (HJ & it' & Hit' & Ht). split; [|by eauto].
    eapply J_check; [done..|]. rewrite Ht.
    by apply bool_decide_eq_false in Hx. }
  intros ?. eapply triple_bind.
  { apply triple_item_of with (E := W). by intros st [? _]. }
  intros it2. apply triple_bind with (Q := fun _ => W).
  { apply triple_conseq with
      (P' := fun st => W st ∧ ∃ it', Tk.items (tree st) !! item = Some it' ∧
                                     Tk.tags it' = Tk.tags it2)
      (Q' := fun _ => W) (E' := W);
      [|intros st [[? _] ?]; split; [done|]; by eexists|done|done].
    apply triple_folder_block. intros p ->.
    apply triple_bind with (Q := fun _ => W).
    { apply triple_conseq with (P' := W) (Q' := fun _ => W) (E' := W);
        [apply triple_tree_set_open|by intros st [? _]|done|done]. }
    intros ?. apply triple_bind with (Q := fun _ => W).
    { apply triple_conseq with
        (P' := fun st => W st ∧ not_placeholder (tree st) (inl p))
        (Q' := fun _ => W) (E' := W);
        [apply triple_materialize| |done|done].
      intros st Hw. split; [done|]. apply not_placeholder_inl, Hw. }
    intros ?. apply keeps_bind; [apply keeps_gets|intros cache].
    apply keeps_when, keeps_calculate_tokens_for_directory. }
  intros ?. apply keeps_bind; [|intros children].
  { eapply keeps_weaken; [|by apply triple_children_of]. by intros ? st [? _]. }
  apply keeps_for_each. intros child. apply IH.
Qed.

Lemma keeps_uncheck_item_and_children (depth : nat) (item : Tk.iid) :
  keeps W (uncheck_item_and_children depth item).
Proof.
  revert item. induction depth as [|depth IH]; intros item; simpl.
  { apply keeps_raise. }
  apply keeps_bind; [|intros it].
  { eapply keeps_weaken; [|by apply triple_item_of]. by intros ? st [? _]. }
  destruct (Tk.has_tag Tk.Excluded it); [apply keeps_ret|].
  apply keeps_bind; [apply triple_tree_set_text|intros ?].
  apply keeps_bind; [|intros ?].
  { apply keeps_modify. intros st. apply J_subset.
    by intros c x [? _]%elem_of_difference. }
  apply keeps_bind; [|intros children].
  { eapply keeps_weaken; [|by apply triple_children_of]. by intros ? st [? _]. }
  apply keeps_for_each. intros child. apply IH.
Qed.

Lemma keeps_tree_item (I : app → Prop) (i : Tk.iid) : keeps I (tree_item i).
Proof. eapply keeps_weaken; [|by apply triple_item_of]. by intros ? st [? _]. Qed.

Lemma keeps_tree_get_children (I : app → Prop) (i : Tk.iid) :
  keeps I (tree_get_children i).
Proof.
  eapply keeps_weaken; [|by apply triple_children_of]. by intros ? st [? _].
Qed.

Lemma keeps_handle_click (depth : nat) (os : OS) (item : Tk.iid) :
  keeps W (handle_click depth os item).
Proof.
  unfold handle_click. case_bool_decide; [apply keeps_update_total_tokens|].
  eapply keeps_bind_val; [by apply triple_item_of|]. intros it.
  destruct (Tk.has_tag Tk.Excluded it); [by intros st [? _]|].
  apply triple_bind with (Q := fun _ => W); [|intros ?; apply keeps_update_total_tokens].
  destruct (PyStr.startswith (Tk.text it) "☐").
  { eapply triple_conseq; [apply keeps_check_item_and_children|..]; try done.
    by intros st [? _]. }
  destruct (PyStr.startswith (Tk.text it) "☑").
  { eapply triple_conseq; [apply keeps_uncheck_item_and_children|..]; try done.
    by intros st [? _]. }
  apply triple_conseq with
    (P' := fun st => W st ∧ ∃ it', Tk.items (tree st) !! item = Some it' ∧
                                   Tk.tags it' = Tk.tags it)
    (Q' := fun _ => W) (E' := W);
    [|intros st [? ?]; split; [done|]; by eexists|done|done].
  apply triple_folder_block. intros p ->.
  apply triple_bind with (Q := fun _ => W); [apply triple_materialize|].
  intros ?. apply keeps_bind; [apply keeps_gets|intros cache].
  apply keeps_when, keeps_calculate_tokens_for_directory.
Qed.

Lemma triple_on_folder_open (os : OS) (item : Tk.iid) :
  triple (fun st => W st ∧ not_placeholder (tree st) item)
    (on_folder_open os item) (fun _ => W) W.
Proof.
  unfold on_folder_open. destruct (negb _); simpl.
  - apply triple_materialize.
  - by intros st [? _].
Qed.

Lemma keeps_on_folder_close (depth : nat) (item : Tk.iid) :
  keeps W (on_folder_close depth item).
Proof.
  unfold on_folder_close. apply keeps_when.
  apply keeps_bind; [apply keeps_tree_item|intros it].
  apply keeps_bind; [|intros ?; apply keeps_update_total_tokens].
  apply keeps_when, keeps_uncheck_item_and_children.
Qed.

Lemma keeps_materialize_path (os : OS) (p : string) :
  keeps W (materialize os (inl p)).
Proof.
  eapply triple_conseq; [apply triple_materialize|..]; try done.
  intros st Hw. split; [done|]. apply not_placeholder_inl, Hw.
Qed.

Lemma keeps_expand_and_select_children (depth : nat) (os : OS) (item : Tk.iid)
    (acc : list string) :
  keeps W (expand_and_select_children depth os item acc).
Proof.
  revert item acc. induction depth as [|depth IH]; intros item acc; simpl.
  { apply keeps_raise. }
  eapply keeps_bind_val; [by apply triple_item_of|]. intros it.
  destruct (Tk.has_tag Tk.Excluded it); [by intros st [? _]|].
  destruct (Tk.has_tag Tk.Folder it) eqn:Hf.
  - apply (triple_derive _ (∃ p, item = inl p)).
    { intros st [Hw Hit]. eapply folder_is_path; [apply Hw|done..]. }
    intros [p ->].
    apply triple_conseq with (P' := W) (Q' := fun _ => W) (E' := W);
      [|by intros st [? _]|done|done].
    apply keeps_bind; [apply keeps_check_item_and_children|intros ?].
    apply keeps_bind; [apply triple_tree_set_open|intros ?].
    apply keeps_bind; [apply keeps_materialize_path|intros ?].
    apply keeps_bind; [apply keeps_gets|intros cache].
    apply keeps_bind; [apply keeps_tree_get_children|intros children].
    generalize (if bool_decide (Tk.iid_str (inl p) ∈ cache) then acc
                else acc ++ [Tk.iid_str (inl p)]).
    induction children as [|c cs IHcs]; intros acc'.
    + apply keeps_ret.
    + apply keeps_bind; [apply IH|intros acc'']. apply IHcs.
  - apply triple_conseq with (P' := W) (Q' := fun _ => W) (E' := W);
      [|by intros st [? _]|done|done].
    apply keeps_bind; [apply keeps_check_item_and_children|intros ?].
    apply keeps_ret.
Qed.

Lemma J_clear q st : J q st → J q (set_checked_items (fun _ => ∅) st).
Proof.
  intros ((Hwf & _ & _) & Hsh & Hq). split; [|done]. split; [done|].
  split; simpl; [intros i it Hi|intros p Hi]; by apply not_elem_of_empty in Hi.
Qed.

Lemma keeps_expand_all_folders (depth : nat) (os : OS) :
  keeps W (expand_all_folders depth os).
Proof.
  unfold expand_all_folders.
  apply keeps_bind; [apply keeps_gets|intros dir]. apply keeps_when.
  apply keeps_bind; [apply keeps_modify; intros st; apply J_clear|intros ?].
  do 3 (apply keeps_bind; [by apply keeps_modify|intros ?]).
  apply keeps_bind; [apply keeps_tree_get_children|intros top].
  apply keeps_bind.
  { generalize (@nil string). induction top as [|c cs IHcs]; intros acc.
    - apply keeps_ret.
    - apply keeps_bind; [apply keeps_expand_and_select_children|intros acc'].
      apply IHcs. }
  intros folders. destruct (PyStr.truthy folders);
    [|apply keeps_update_total_tokens].
  apply keeps_bind; [by apply keeps_modify|intros ?].
  induction folders as [|f fs IHfs].
  - apply keeps_ret.
  - apply keeps_bind; [apply keeps_gets|intros cancel].
    destruct (negb cancel); [|apply keeps_ret].
    apply keeps_bind; [apply keeps_calculate_tokens_for_directory|intros ?].
    apply IHfs.
Qed.

Lemma keeps_collapse_and_deselect (depth : nat) (item : Tk.iid) :
  keeps W (collapse_and_deselect_folder_recursive depth item).
Proof.
  revert item. induction depth as [|depth IH]; intros item; simpl.
  { apply keeps_raise. }
  apply keeps_bind; [apply keeps_tree_item|intros it].
  apply keeps_bind; [apply keeps_when, triple_tree_set_text|intros ?].
  apply keeps_when.
  apply keeps_bind; [apply keeps_tree_get_children|intros children].
  apply keeps_bind; [|intros ?; apply triple_tree_set_open].
  apply keeps_for_each. intros child. apply IH.
Qed.

Lemma keeps_collapse_all_folders (depth : nat) :
  keeps W (collapse_all_folders depth).
Proof.
  unfold collapse_all_folders.
  apply keeps_bind; [apply keeps_gets|intros dir]. apply keeps_when.
  apply keeps_bind; [apply keeps_modify; intros st; apply J_clear|intros ?].
  apply keeps_bind; [apply keeps_tree_get_children|intros top].
  apply keeps_bind; [|intros ?; apply keeps_update_total_tokens].
  apply keeps_for_each. intros c. apply keeps_collapse_and_deselect.
Qed.

Lemma triple_delete_all (l : list Tk.iid) :
  triple (fun st => T st ∧ ∃ it, Tk.items (tree st) !! Tk.root = Some it ∧
                                 (∀ c, c ∈ l → c ∈ Tk.children it) ∧ NoDup l)
    (for_each l tree_delete) (fun _ => T) (fun _ => False).
Proof.
  induction l as [|c l IH]; simpl.
  { by intros st [? _]. }
  eapply triple_bind; [|intros ?; apply IH].
  intros st ([Hwf Hsh] & it & Hit & Hin & Hnd).
  pose proof Hsh as (H0 & H1 & _ & _ & H4).
  assert (c ∈ Tk.children it) as Hc by (apply Hin; by left).
  assert (c ≠ Tk.root) as Hroot.
  { intros ->. by destruct (H4 _ _ Hit). }
  destruct (H1 _ _ _ Hit Hc) as [itc Hitc].
  unfold tree_delete, on_tree.
  destruct (Tk.delete (tree st) c) as [r tv'] eqn:Hdel.
  assert (tree_wf tv') as Hwf' by by eapply delete_tree_wf.
  assert (tree_shape tv') as Hsh' by by eapply delete_shape.
  assert (r = Returns tt) as ->.
  { revert Hdel. unfold Tk.delete. rewrite bool_decide_eq_false_2 by done.
    rewrite Hitc. by intros [= <- _]. }
  split; [done|]. simpl.
  destruct Hsh' as ([it' Hit'] & _).
  destruct (delete_lookup _ _ _ _ _ Hdel Hit') as (_ & it0 & Hit0 & ->).
  assert (it0 = it) as -> by congruence.
  exists (Tk.remove_child c it). split; [done|]. split.
  - intros c' Hc'. simpl.
    rewrite list_elem_of_In, filter_In, <- list_elem_of_In. split.
    + apply Hin. by right.
    + apply negb_true_iff, bool_decide_eq_false. intros ->.
      by apply NoDup_cons in Hnd as [? _].
  - by apply NoDup_cons in Hnd as [_ ?].
Qed.

Lemma keeps_refresh_files (os : OS) : keeps W (refresh_files os).
Proof.
  unfold refresh_files.
  apply keeps_bind; [apply keeps_gets|intros dir]. apply keeps_when.
  eapply keeps_bind_val; [by apply triple_children_of|]. intros top.
  apply triple_bind with (Q := fun _ => T).
  { eapply triple_conseq; [apply (triple_delete_all top)|..]; try done.
    intros st (((Hwf & _) & Hsh & _) & it & Hit & <-).
    split; [done|]. exists it. split; [done|]. split; [done|].
    destruct Hsh as (_ & _ & _ & H3 & _). by eapply H3. }
  intros ?. apply triple_bind with (Q := fun _ => W).
  { apply triple_modify. intros st [Hwf Hsh]. split; [|done].
    split; [done|].
    split; simpl; [intros i it Hi|intros p Hi]; by apply not_elem_of_empty in Hi. }
  intros ?.
  apply keeps_bind; [by apply keeps_modify|intros ?].
  apply keeps_bind; [apply keeps_gets|intros exts].
  apply keeps_bind; [|intros ?; apply keeps_update_total_tokens].
  apply keeps_try_except; [|intros ?; apply keeps_ret].
  apply keeps_populate_tree. by left.
Qed.

Lemma keeps_toggle_exclude (os : OS) (enabled : bool) :
  keeps W (toggle_exclude os enabled).
Proof.
  unfold toggle_exclude.
  apply keeps_bind; [by apply keeps_modify|intros ?].
  apply keeps_bind; [apply keeps_gets|intros entry].
  apply keeps_bind; [by apply keeps_modify|intros ?].
  apply keeps_refresh_files.
Qed.

Lemma keeps_browse_directory (os : OS) (directory : string) :
  keeps W (browse_directory os directory).
Proof.
  unfold browse_directory. apply keeps_when.
  apply keeps_bind; [by apply keeps_modify|intros ?].
  apply keeps_refresh_files.
Qed.

(** The queue and the threads do not touch the selection. *)
Lemma keeps_update_item_tokens (item_path : string) (tokens : nat) :
  keeps W (update_item_tokens item_path tokens).
Proof.
  unfold update_item_tokens.
  apply keeps_bind; [apply keeps_tree_get_children|intros ids].
  induction ids as [|i ids IH]; simpl; [apply keeps_ret|].
  apply keeps_bind; [apply keeps_tree_item|intros it].
  destruct (Tk.values it) as [|v0 vs]; [apply keeps_raise|].
  case_bool_decide; [|apply IH].
  destruct vs; [apply keeps_raise|apply triple_tree_set_values].
Qed.

Lemma keeps_cleanup_calculation_ui : keeps W cleanup_calculation_ui.
Proof. by apply keeps_modify. Qed.

Lemma keeps_process_message (m : msg) : keeps W (process_message m).
Proof.
  destruct m as [item_path tokens|path e|d total|]; simpl.
  - apply keeps_update_item_tokens.
  - apply keeps_bind; [apply keeps_gets|intros [[|n]|]];
      first [apply keeps_ret | by apply keeps_modify].
  - apply keeps_bind; [by apply keeps_modify|intros ?].
    apply keeps_bind; [apply keeps_gets|intros [n|]];
      [|apply keeps_cleanup_calculation_ui].
    apply keeps_bind; [apply keeps_gets|intros results].
    apply keeps_bind;
      [destruct results; first [apply keeps_ret | by apply keeps_modify]
      |intros ?].
    apply keeps_bind; [by apply keeps_modify|intros ?].
    apply keeps_when, keeps_cleanup_calculation_ui.
  - apply keeps_bind; [apply keeps_gets|intros pending].
    apply keeps_bind; [|intros ?; apply keeps_cleanup_calculation_ui].
    destruct pending; first [apply keeps_ret | by apply keeps_modify].
Qed.

Lemma keeps_drain_queue (q : list msg) : keeps W (drain_queue q).
Proof.
  induction q as [|m q IH]; simpl.
  - apply keeps_bind; [apply keeps_gets|intros threads].
    destruct (negb _); [apply keeps_cleanup_calculation_ui|by apply keeps_modify].
  - apply keeps_bind; [by apply keeps_modify|intros ?].
    apply keeps_bind; [apply keeps_process_message|intros ?]. apply IH.
Qed.

Lemma keeps_poll : keeps W poll.
Proof.
  unfold poll. apply keeps_bind; [apply keeps_gets|intros [|n]];
    [apply keeps_ret|].
  apply keeps_bind; [by apply keeps_modify|intros ?].
  unfold check_token_queue.
  apply keeps_try_except; [|intros ?; apply keeps_cleanup_calculation_ui].
  apply keeps_bind; [apply keeps_gets|intros q]. apply keeps_drain_queue.
Qed.

Lemma thread_step_selection (os : OS) (i : nat) (st : app) :
  tree (thread_step os i st) = tree st ∧
  checked_items (thread_step os i st) = checked_items st.
Proof.
  unfold thread_step. destruct (active_threads st !! i) as [w|]; [|done].
  by destruct (worker_step os st w).
Qed.

Lemma keeps_thread_step (os : OS) (i : nat) : keeps W (modify (thread_step os i)).
Proof.
  apply keeps_modify. intros st. unfold W, J.
  by destruct (thread_step_selection os i st) as [-> ->].
Qed.

Lemma keeps_calculate_directory_tokens (os : OS) (d : string) :
  keeps W (calculate_directory_tokens os d).
Proof.
  unfold calculate_directory_tokens.
  apply keeps_bind; [apply keeps_gets|intros cache].
  case_bool_decide; [apply keeps_ret|apply keeps_calculate_tokens_for_directory].
Qed.

Lemma W_init : W init.
Proof.
  assert (∀ i it, Tk.items Tk.empty !! i = Some it →
            i = Tk.root ∧ it = Tk.mk_item "" [] [] true []) as Hl.
  { intros i it. unfold Tk.empty. simpl.
    by intros [-> <-]%lookup_singleton_Some. }
  split; [split; [split; [|split]|split]|split; [split; [|split; [|split; [|split]]]|done]];
    simpl.
  - intros i it [-> ->]%Hl. by intros ?%elem_of_nil.
  - by intros n it [? _]%Hl.
  - intros n [it [? _]%Hl]. done.
  - by intros i it ?%not_elem_of_empty.
  - by intros p ?%not_elem_of_empty.
  - unfold Tk.empty. simpl. rewrite lookup_singleton_eq. eauto.
  - intros p it c [-> ->]%Hl. by intros ?%elem_of_nil.
  - intros p p' it it' c [-> ->]%Hl. by intros _ ?%elem_of_nil.
  - intros p it [-> ->]%Hl. constructor.
  - intros p it [-> ->]%Hl. by intros ?%elem_of_nil.
Qed.

Lemma keeps_final {A} (I : app → Prop) (m : M A) (st : app) :
  keeps I m → I st → I (m st).2.
Proof.
  intros Hm Hst. specialize (Hm st Hst). by destruct (m st) as [[a|c e] st'].
Qed.

Lemma reachable_wf (os : OS) (st : app) : reachable os st → W st.
Proof.
  induction 1 as [|st depth e Hreach IH Hen]; [apply W_init|].
  unfold step. destruct e; unfold handler.
  - by apply keeps_final; [apply keeps_handle_click|].
  - by apply keeps_final; [apply keeps_check_item_and_children|].
  - by apply keeps_final; [apply keeps_uncheck_item_and_children|].
  - by apply keeps_final; [apply keeps_expand_all_folders|].
  - by apply keeps_final; [apply keeps_collapse_all_folders|].
  - pose proof (triple_on_folder_open os item st (conj IH Hen)) as H.
    by destruct (on_folder_open os item st) as [[a|c e] st'].
  - by apply keeps_final; [apply keeps_on_folder_close|].
  - by apply keeps_final; [apply keeps_browse_directory|].
  - by apply keeps_final; [apply keeps_refresh_files|].
  - by apply keeps_final; [apply keeps_toggle_exclude|].
  - done.
  - done.
  - done.
  - done.
  - by apply keeps_final; [apply keeps_calculate_directory_tokens|].
  - by apply keeps_final; [apply keeps_poll|].
  - by apply keeps_final; [apply keeps_thread_step|].
Qed.

(** Checking an excluded item changes nothing. *)
Lemma check_excluded_noop (depth : nat) (os : OS) (item : Tk.iid)
    (skip : bool) (st : app) (it : Tk.item) :
  Tk.items (tree st) !! item = Some it → Tk.Excluded ∈ Tk.tags it →
  check_item_and_children (S depth) os item skip st = (Returns tt, st).
Proof.
  intros Hit Hx. simpl.
  unfold mbind, M_bind, bind, tree_item, gets, lift, Tk.item_of. simpl.
  rewrite Hit. unfold Tk.has_tag. by rewrite bool_decide_eq_true_2.
Qed.

(** C3.  In every state the application can reach, by any sequence of
    clicks, checks, unchecks, expand-all, collapse-all, openings and
    closings of folders, refreshes, polls and thread steps, no item
    marked excluded is in [checked_items]; and checking an excluded
    item, directly or from the cascade over the children of a checked
    folder, returns at once and leaves the state as it was. *)
Theorem excluded_never_checked (os : OS) (st : app) :
  reachable os st →
  no_excluded_checked st ∧
  (∀ depth item skip it,
     Tk.items (tree st) !! item = Some it → Tk.Excluded ∈ Tk.tags it →
     check_item_and_children (S depth) os item skip st = (Returns tt, st)).
Proof.
  intros Hreach. split.
  - by destruct (reachable_wf os st Hreach) as ((_ & Hexc & _) & _).
  - intros depth item skip it. apply check_excluded_noop.
Qed.

(** After a click on [src] and a click on the excluded [env]: the
    theorem at that state. *)
Lemma excluded_never_checked_witness : no_excluded_checked selected_repo.
Proof.
  refine (proj1 (excluded_never_checked (Toy.os Toy.repo) selected_repo _)).
  unfold selected_repo, browsed_repo.
  repeat (apply reachable_step; [|exact I]). apply reachable_init.
Defined.

Example selected_repo_checked :
  elements (checked_items selected_repo) =
    [inl "/repo/src/main.py"; inl "/repo/src/A.PY"; inl "/repo/src"] ∧
  Tk.tags <$> Tk.items (tree selected_repo) !! inl "/repo/env" =
    Some [Tk.Folder; Tk.Excluded].
Proof. split; vm_compute; reflexivity. Qed.

(** ** C1: cancellation and the memoized directories *)

Lemma frame_on_tree {A} C ts (f : Tk.treeview → outcome A * Tk.treeview) :
  keeps (aggregation_kept C ts) (on_tree f).
Proof.
  intros st H. unfold on_tree. destruct (f (tree st)) as [[a|c e] tv]; exact H.
Qed.

Lemma frame_is_safe_path C ts (os : OS) path :
  keeps (aggregation_kept C ts) (is_safe_path os path).
Proof.
  intros st H. unfold is_safe_path.
  destruct (FileHandler.is_safe_path os (file_handler st) path) as [[a|c e] fh];
    exact H.
Qed.

Lemma frame_calculate_tokens_for_directory C ts (os : OS) d :
  keeps (aggregation_kept C ts) (calculate_tokens_for_directory os d).
Proof.
  intros st [Hc Hp]. split; [exact Hc|]. simpl.
  by apply prefix_app_r.
Qed.

Lemma frame_update_total_tokens C ts :
  keeps (aggregation_kept C ts) update_total_tokens.
Proof. intros st H. exact H. Qed.

Create HintDb frame.

#[local] Hint Resolve frame_calculate_tokens_for_directory
  frame_update_total_tokens : frame.

Ltac frame_step :=
  lazymatch goal with
  | |- keeps _ (ret _) => apply keeps_ret
  | |- keeps _ (raise _ _) => apply keeps_raise
  | |- keeps _ (gets _) => apply keeps_gets
  | |- keeps _ (lift _) => apply keeps_lift
  | |- keeps _ (tree_item _) => apply keeps_tree_item
  | |- keeps _ (tree_get_children _) => apply keeps_tree_get_children
  | |- keeps _ (tree_insert _ _ _ _ _) => apply frame_on_tree
  | |- keeps _ (tree_delete _) => apply frame_on_tree
  | |- keeps _ (tree_set_text _ _) => apply frame_on_tree
  | |- keeps _ (tree_set_open _ _) => apply frame_on_tree
  | |- keeps _ (tree_set_values _ _) => apply frame_on_tree
  | |- keeps _ (is_safe_path _ _) => apply frame_is_safe_path
  | |- keeps _ (modify _) => apply keeps_modify; intros ? ?; assumption
  | |- keeps _ (when _ _) => apply keeps_when
  | |- keeps _ (for_each _ _) => apply keeps_for_each; intros ?
  | |- keeps _ (try_except _ _ _) => apply keeps_try_except; [|intros ?]
  | |- keeps _ (if ?b then _ else _) => destruct b
  | |- keeps _ ((if ?b then _ else _) ≫= _) => destruct b
  | |- keeps _ (match ?x with _ => _ end) => destruct x
  | |- keeps _ ((match ?x with _ => _ end) ≫= _) => destruct x
  | |- keeps _ (_ ≫= _) => apply keeps_bind; [|intros ?]
  | |- keeps _ _ => solve [eauto with frame]
  end.

Lemma frame_populate_tree C ts (os : OS) parent path exts :
  keeps (aggregation_kept C ts) (populate_tree os parent path exts).
Proof.
  unfold populate_tree, populate_folder, populate_file. repeat frame_step.
Qed.

#[local] Hint Resolve frame_populate_tree : frame.

Lemma frame_materialize C ts (os : OS) item :
  keeps (aggregation_kept C ts) (materialize os item).
Proof. unfold materialize. repeat frame_step. Qed.

#[local] Hint Resolve frame_materialize : frame.

Lemma frame_check_item_and_children C ts (depth : nat) (os : OS) item skip :
  keeps (aggregation_kept C ts) (check_item_and_children depth os item skip).
Proof.
  revert item. induction depth as [|depth IH]; intros item; simpl.
  { apply keeps_raise. }
  repeat frame_step.
Qed.

Lemma frame_uncheck_item_and_children C ts (depth : nat) item :
  keeps (aggregation_kept C ts) (uncheck_item_and_children depth item).
Proof.
  revert item. induction depth as [|depth IH]; intros item; simpl.
  { apply keeps_raise. }
  repeat frame_step.
Qed.

#[local] Hint Resolve frame_check_item_and_children
  frame_uncheck_item_and_children : frame.

Lemma frame_handle_click C ts (depth : nat) (os : OS) item :
  keeps (aggregation_kept C ts) (handle_click depth os item).
Proof. unfold handle_click. repeat frame_step. Qed.

Lemma frame_on_folder_open C ts (os : OS) item :
  keeps (aggregation_kept C ts) (on_folder_open os item).
Proof. unfold on_folder_open. repeat frame_step. Qed.

Lemma frame_on_folder_close C ts (depth : nat) item :
  keeps (aggregation_kept C ts) (on_folder_close depth item).
Proof. unfold on_folder_close. repeat frame_step. Qed.

Lemma frame_expand_and_select_children C ts (depth : nat) (os : OS) item acc :
  keeps (aggregation_kept C ts) (expand_and_select_children depth os item acc).
Proof.
  revert item acc. induction depth as [|depth IH]; intros item acc; simpl.
  { apply keeps_raise. }
  apply keeps_bind; [apply keeps_tree_item|intros it].
  destruct (Tk.has_tag Tk.Excluded it); [apply keeps_ret|].
  apply keeps_bind; [apply frame_check_item_and_children|intros ?].
  destruct (Tk.has_tag Tk.Folder it); [|apply keeps_ret].
  do 3 (apply keeps_bind; [frame_step|intros ?]).
  apply keeps_bind; [apply keeps_tree_get_children|intros children].
  match goal with |- keeps _ (_ children ?a) => generalize a end.
  induction children as [|c cs IHcs]; intros acc'; [apply keeps_ret|].
  apply keeps_bind; [apply IH|intros acc'']. apply IHcs.
Qed.

Lemma frame_expand_all_folders C ts (depth : nat) (os : OS) :
  keeps (aggregation_kept C ts) (expand_all_folders depth os).
Proof.
  unfold expand_all_folders.
  apply keeps_bind; [apply keeps_gets|intros dir]. apply keeps_when.
  do 4 (apply keeps_bind; [frame_step|intros ?]).
  apply keeps_bind; [apply keeps_tree_get_children|intros top].
  apply keeps_bind.
  { generalize (@nil string). induction top as [|c cs IHcs]; intros acc.
    - apply keeps_ret.
    - apply keeps_bind; [apply frame_expand_and_select_children|intros acc'].
      apply IHcs. }
  intros folders. destruct (PyStr.truthy folders);
    [|apply frame_update_total_tokens].
  apply keeps_bind; [frame_step|intros ?].
  induction folders as [|f fs IHfs].
  - apply keeps_ret.
  - apply keeps_bind; [apply keeps_gets|intros cancel].
    destruct (negb cancel); [|apply keeps_ret].
    apply keeps_bind; [apply frame_calculate_tokens_for_directory|intros ?].
    apply IHfs.
Qed.

Lemma frame_collapse_and_deselect C ts (depth : nat) item :
  keeps (aggregation_kept C ts) (collapse_and_deselect_folder_recursive depth item).
Proof.
  revert item. induction depth as [|depth IH]; intros item; simpl.
  { apply keeps_raise. }
  repeat frame_step.
Qed.

#[local] Hint Resolve frame_collapse_and_deselect : frame.

Lemma frame_collapse_all_folders C ts (depth : nat) :
  keeps (aggregation_kept C ts) (collapse_all_folders depth).
Proof. unfold collapse_all_folders. repeat frame_step. Qed.

Lemma frame_refresh_files C ts (os : OS) :
  keeps (aggregation_kept C ts) (refresh_files os).
Proof. unfold refresh_files. repeat frame_step. Qed.

#[local] Hint Resolve frame_refresh_files : frame.

Lemma frame_toggle_exclude C ts (os : OS) enabled :
  keeps (aggregation_kept C ts) (toggle_exclude os enabled).
Proof. unfold toggle_exclude. repeat frame_step. Qed.

Lemma frame_browse_directory C ts (os : OS) directory :
  keeps (aggregation_kept C ts) (browse_directory os directory).
Proof. unfold browse_directory. repeat frame_step. Qed.

Lemma frame_calculate_directory_tokens C ts (os : OS) d :
  keeps (aggregation_kept C ts) (calculate_directory_tokens os d).
Proof. unfold calculate_directory_tokens. repeat frame_step. Qed.

(** The methods of the interface, the timer apart, leave the memoized
    directories as they are and the threads at their places. *)
Lemma interface_keeps_aggregation (depth : nat) (os : OS) (e : event) (st : app) :
  e ≠ Poll → (∀ i, e ≠ Thread i) →
  aggregation_kept (calculated_directories st) (active_threads st)
    (step depth os e st).
Proof.
  intros Hp Ht.
  assert (aggregation_kept (calculated_directories st) (active_threads st) st)
    as H0 by done.
  unfold step. destruct e; unfold handler.
  - by apply keeps_final; [apply frame_handle_click|].
  - by apply keeps_final; [apply frame_check_item_and_children|].
  - by apply keeps_final; [apply frame_uncheck_item_and_children|].
  - by apply keeps_final; [apply frame_expand_all_folders|].
  - by apply keeps_final; [apply frame_collapse_all_folders|].
  - by apply keeps_final; [apply frame_on_folder_open|].
  - by apply keeps_final; [apply frame_on_folder_close|].
  - by apply keeps_final; [apply frame_browse_directory|].
  - by apply keeps_final; [apply frame_refresh_files|].
  - by apply keeps_final; [apply frame_toggle_exclude|].
  - done.
  - done.
  - done.
  - done.
  - by apply keeps_final; [apply frame_calculate_directory_tokens|].
  - done.
  - by destruct (Ht i).
Qed.

(** The timer: the threads stay, and a directory is memoized only for
    a [Done] message that was on the queue. *)
Lemma poll_tree_only {A} C q ts (f : Tk.treeview → outcome A * Tk.treeview) :
  keeps (cache_from C q ts) (on_tree f).
Proof.
  intros st H. unfold on_tree. destruct (f (tree st)) as [[a|c e] tv]; exact H.
Qed.

Lemma poll_update_item_tokens C q ts item_path tokens :
  keeps (cache_from C q ts) (update_item_tokens item_path tokens).
Proof.
  unfold update_item_tokens.
  apply keeps_bind; [apply keeps_tree_get_children|intros ids].
  induction ids as [|i ids IH]; simpl; [apply keeps_ret|].
  apply keeps_bind; [apply keeps_tree_item|intros it].
  destruct (Tk.values it) as [|v0 vs]; [apply keeps_raise|].
  case_bool_decide; [|apply IH].
  destruct vs; [apply keeps_raise|apply poll_tree_only].
Qed.

Lemma poll_cleanup C q ts : keeps (cache_from C q ts) cleanup_calculation_ui.
Proof. by apply keeps_modify. Qed.

Lemma poll_process_message C q ts (m : msg) :
  m ∈ q → keeps (cache_from C q ts) (process_message m).
Proof.
  intros Hm. destruct m as [item_path tokens|path e|d total|]; simpl.
  - apply poll_update_item_tokens.
  - apply keeps_bind; [apply keeps_gets|intros [[|n]|]];
      first [apply keeps_ret | by apply keeps_modify].
  - apply keeps_bind.
    { apply keeps_modify. intros st [Hts Hc]. split; [done|]. simpl.
      intros d' [->%elem_of_singleton|Hd]%elem_of_union; [|by apply Hc].
      right. by exists total. }
    intros ?.
    apply keeps_bind; [apply keeps_gets|intros [n|]]; [|apply poll_cleanup].
    apply keeps_bind; [apply keeps_gets|intros results].
    apply keeps_bind;
      [destruct results; first [apply keeps_ret | by apply keeps_modify]
      |intros ?].
    apply keeps_bind; [by apply keeps_modify|intros ?].
    apply keeps_when, poll_cleanup.
  - apply keeps_bind; [apply keeps_gets|intros pending].
    apply keeps_bind; [|intros ?; apply poll_cleanup].
    destruct pending; first [apply keeps_ret | by apply keeps_modify].
Qed.

Lemma poll_drain_queue C q ts (q' : list msg) :
  q' ⊆ q → keeps (cache_from C q ts) (drain_queue q').
Proof.
  induction q' as [|m q' IH]; intros Hsub; simpl.
  - apply keeps_bind; [apply keeps_gets|intros threads].
    destruct (negb _); [apply poll_cleanup|by apply keeps_modify].
  - apply keeps_bind; [by apply keeps_modify|intros ?].
    apply keeps_bind.
    { apply poll_process_message, Hsub. by left. }
    intros ?. apply IH. intros x Hx. apply Hsub. by right.
Qed.

Lemma poll_cache_from (st : app) :
  cache_from (calculated_directories st) (token_queue st) (active_threads st)
    (poll st).2.
Proof.
  assert (cache_from (calculated_directories st) (token_queue st)
            (active_threads st) st) as H0.
  { split; [done|]. by left. }
  unfold poll, mbind, M_bind, bind, gets. simpl.
  destruct (polls_scheduled st) as [|n]; [done|].
  unfold modify, check_token_queue, try_except, mbind, M_bind, bind, gets. simpl.
  set (st1 := set_polls_scheduled (λ _, n) st).
  pose proof (poll_drain_queue (calculated_directories st) (token_queue st)
                (active_threads st) (token_queue st) (λ x H, H) st1 H0) as H.
  destruct (drain_queue (token_queue st) st1) as [[[]|c e] st2]; simpl; done.
Qed.

(** Threads. *)
Lemma thread_step_result (os : OS) (i : nat) (st : app) (w : worker) :
  active_threads st !! i = Some w →
  thread_step os i st =
    thread_result i (worker_step os st w).1 (worker_step os st w).2 st.
Proof.
  intros Hw. unfold thread_step. rewrite Hw.
  by destruct (worker_step os st w).
Qed.

Lemma thread_step_cache (os : OS) (i : nat) (st : app) :
  calculated_directories (thread_step os i st) = calculated_directories st.
Proof.
  unfold thread_step. destruct (active_threads st !! i) as [w|]; [|done].
  by destruct (worker_step os st w).
Qed.

Lemma thread_step_threads (os : OS) (i : nat) (st : app) (w : worker) :
  active_threads st !! i = Some w →
  active_threads (thread_step os i st) =
    <[ i := (worker_step os st w).1 ]> (active_threads st).
Proof. intros Hw. by rewrite (thread_step_result _ _ _ _ Hw). Qed.

Lemma thread_step_other (os : OS) (i j : nat) (st : app) (w : worker) :
  i ≠ j → active_threads st !! i = Some w →
  active_threads (thread_step os j st) !! i = Some w.
Proof.
  intros Hij Hw. unfold thread_step.
  destruct (active_threads st !! j) as [w'|]; [|done].
  destruct (worker_step os st w'). simpl.
  by rewrite list_lookup_insert_ne.
Qed.

Lemma thread_result_step (os : OS) (i : nat) (w : worker) (msgs : list msg)
    (st : app) :
  (i < length (active_threads st))%nat →
  thread_step os i (thread_result i w msgs st) =
    thread_result i (worker_step os st w).1 (msgs ++ (worker_step os st w).2) st.
Proof.
  intros Hi.
  rewrite (thread_step_result os i _ w).
  2:{ simpl. by apply list_lookup_insert_eq. }
  change (worker_step os (thread_result i w msgs st) w) with (worker_step os st w).
  destruct (worker_step os st w) as [w' msgs']. simpl.
  unfold thread_result, set_token_queue, set_active_threads. simpl.
  by rewrite list_insert_insert_eq, app_assoc.
Qed.

Lemma run_app (depth : nat) (os : OS) (es1 es2 : list event) (st : app) :
  run depth os (es1 ++ es2) st = run depth os es2 (run depth os es1 st).
Proof. unfold run. apply fold_left_app. Qed.

Lemma replicate_add {A} (n m : nat) (x : A) :
  replicate (n + m) x = replicate n x ++ replicate m x.
Proof. induction n; simpl; congruence. Qed.

(** An undisturbed thread works through the files of a directory. *)
Lemma thread_runs_files (depth : nat) (os : OS) (i : nat) (st : app)
    (d root : string) (filenames : list string)
    (rest : list (string * list string)) (t : nat) (msgs : list msg) :
  (i < length (active_threads st))%nat → cancel_operation st = false →
  ∃ n,
    run depth os (replicate n (Thread i))
      (thread_result i (mk_worker d t (WFile root filenames rest)) msgs st) =
    thread_result i
      (mk_worker d (t + (files_messages os st root filenames).2) (WDir rest))
      (msgs ++ (files_messages os st root filenames).1) st.
Proof.
  intros Hi Hc. revert t msgs.
  induction filenames as [|f fs IH]; intros t msgs.
  - exists 1%nat. simpl. unfold step, handler, modify. simpl.
    rewrite thread_result_step by done. simpl.
    by rewrite Nat.add_0_r.
  - simpl.
    destruct (process_file os st root f) as [m1 t1] eqn:Hpf.
    destruct (files_messages os st root fs) as [m2 t2] eqn:Hfm.
    destruct (IH (t + t1)%nat (msgs ++ m1)) as [n Hn].
    exists (2 + n)%nat. rewrite replicate_add, run_app.
    simpl replicate. unfold run at 2. simpl fold_left.
    unfold step, handler, modify. simpl.
    rewrite thread_result_step by done.
    unfold worker_step at 1 2. simpl. rewrite Hc. simpl.
    rewrite thread_result_step by done.
    unfold worker_step. simpl. rewrite Hpf. simpl.
    rewrite app_nil_r. simpl in Hn. rewrite Hn.
    by rewrite Nat.add_assoc, app_assoc.
Qed.

(** An undisturbed thread works through the walk and reports [Done]
    with the tokens of all the files. *)
Lemma thread_runs_walk (depth : nat) (os : OS) (i : nat) (st : app)
    (d : string) (w : list (string * list string)) (t : nat) (msgs : list msg) :
  (i < length (active_threads st))%nat → cancel_operation st = false →
  ∃ n,
    run depth os (replicate n (Thread i))
      (thread_result i (mk_worker d t (WDir w)) msgs st) =
    thread_result i
      (mk_worker d (t + (walk_messages os st w).2) WExited)
      (msgs ++ (walk_messages os st w).1 ++
       [Done d (t + (walk_messages os st w).2)]) st.
Proof.
  intros Hi Hc. revert t msgs.
  induction w as [|[root filenames] rest IH]; intros t msgs.
  - exists 1%nat. simpl. unfold step, handler, modify. simpl.
    rewrite thread_result_step by done. simpl.
    by rewrite Nat.add_0_r.
  - simpl.
    destruct (files_messages os st root filenames) as [m1 t1] eqn:Hfm.
    destruct (walk_messages os st rest) as [m2 t2] eqn:Hwm.
    destruct (thread_runs_files depth os i st d root filenames rest t msgs Hi Hc)
      as [n1 Hn1].
    destruct (IH (t + t1)%nat (msgs ++ m1)) as [n2 Hn2].
    exists (1 + (n1 + n2))%nat. rewrite replicate_add, run_app.
    simpl replicate. unfold run at 2. simpl fold_left.
    unfold step at 1, handler, modify. simpl.
    rewrite thread_result_step by done.
    unfold worker_step. simpl. rewrite Hc. simpl. rewrite app_nil_r.
    rewrite replicate_add, run_app, Hn1, Hfm. simpl.
    simpl in Hn2. rewrite Hn2.
    by rewrite Nat.add_assoc, !app_assoc.
Qed.

Lemma request_starts_worker (depth : nat) (os : OS) (d : string) (st : app) :
  d ∉ calculated_directories st →
  step depth os (Request d) st =
    set_polls_scheduled S
      (set_active_threads
         (fun ts => ts ++ [mk_worker d 0 (WDir (walk os d))]) st).
Proof.
  intros Hd. unfold step, handler, calculate_directory_tokens.
  unfold mbind, M_bind, bind, gets. simpl.
  by rewrite bool_decide_eq_false_2.
Qed.

Lemma thread_result_id (i : nat) (w : worker) (st : app) :
  active_threads st !! i = Some w → thread_result i w [] st = st.
Proof.
  intros Hw. destruct st. unfold thread_result, set_token_queue,
    set_active_threads. simpl in *.
  by rewrite list_insert_id, app_nil_r.
Qed.

(** What a thread does with the files depends on the settings only. *)
Lemma walk_messages_settings (os : OS) (st st' : app)
    (w : list (string * list string)) :
  dir_entry st = dir_entry st' → exclude_enabled st = exclude_enabled st' →
  file_handler st = file_handler st' → filter_entry st = filter_entry st' →
  walk_messages os st w = walk_messages os st' w.
Proof.
  intros H1 H2 H3 H4.
  assert (∀ root f, process_file os st root f = process_file os st' root f)
    as Hpf.
  { intros root f. unfold process_file, extensions_of.
    by rewrite H1, H2, H3, H4. }
  assert (∀ root fs, files_messages os st root fs =
                     files_messages os st' root fs) as Hfm.
  { intros root fs. induction fs as [|f fs IH]; simpl; [done|].
    by rewrite Hpf, IH. }
  induction w as [|[root fs] rest IH]; simpl; [done|].
  by rewrite Hfm, IH.
Qed.

Lemma event_cases (e : event) :
  e = Poll ∨ (∃ j, e = Thread j) ∨ (e ≠ Poll ∧ ∀ j, e ≠ Thread j).
Proof. destruct e; eauto. Qed.




Example cancel_after_last_check_queue :
  let st := run 50 (Toy.os Toy.repo)
              [CancelButton; Thread 0; Thread 0; Thread 0] src_requested in
  cancel_operation st = true ∧
  token_queue st =
    [Progress "/repo/src/main.py" 8; Progress "/repo/src/A.PY" 4;
     Done "/repo/src" 12] ∧
  elements (calculated_directories (step 50 (Toy.os Toy.repo) Poll st)) =
    ["/repo/src"].
Proof. vm_compute. done. Qed.

(** ** C5: listing a folder *)

(** The order of [sorted] on strings. *)
Lemma ascii_compare_lt_trans (a b c : ascii) :
  Ascii.compare a b = Lt → Ascii.compare b c = Lt → Ascii.compare a c = Lt.
Proof.
  unfold Ascii.compare. rewrite !N.compare_lt_iff. lia.
Qed.

Lemma string_compare_trans (s1 s2 s3 : string) :
  String.compare s1 s2 ≠ Gt → String.compare s2 s3 ≠ Gt →
  String.compare s1 s3 ≠ Gt.
Proof.
  revert s2 s3. induction s1 as [|a s1 IH]; intros [|b s2] [|c s3]; simpl;
    try done.
  destruct (Ascii.compare a b) eqn:Hab; [|clear IH|done].
  - apply Ascii.compare_eq_iff in Hab as ->.
    destruct (Ascii.compare b c); [apply IH|done|done].
  - intros _. destruct (Ascii.compare b c) eqn:Hbc; [|  |done].
    + apply Ascii.compare_eq_iff in Hbc as <-. by rewrite Hab.
    + by rewrite (ascii_compare_lt_trans a b c).
Qed.

Lemma leb_not_gt (s1 s2 : string) :
  String.leb s1 s2 = true ↔ String.compare s1 s2 ≠ Gt.
Proof. unfold String.leb. by destruct (String.compare s1 s2). Qed.

Lemma leb_trans (s1 s2 s3 : string) :
  String.leb s1 s2 = true → String.leb s2 s3 = true → String.leb s1 s3 = true.
Proof. rewrite !leb_not_gt. apply string_compare_trans. Qed.

Lemma insert_by_perm (x : string) (l : list string) :
  Permutation (insert_by String.leb x l) (x :: l).
Proof.
  induction l as [|y l IH]; simpl; [done|].
  destruct (String.leb x y); [done|].
  rewrite IH. apply perm_swap.
Qed.

Lemma insert_by_ascending (x : string) (l : list string) :
  ascending l → ascending (insert_by String.leb x l).
Proof.
  induction 1 as [|y l Hl IH Hy]; simpl.
  { repeat constructor. }
  destruct (String.leb x y) eqn:Hxy.
  - constructor; [by constructor|]. constructor; [done|].
    eapply Forall_impl; [exact Hy|]. intros z Hz. by eapply leb_trans.
  - constructor; [done|].
    rewrite (insert_by_perm x l). constructor; [|done].
    destruct (String.leb_total x y) as [H|H]; [congruence|done].
Qed.

Lemma sorted_perm (l : list string) : Permutation (sorted l) l.
Proof.
  unfold sorted. induction l as [|x l IH]; simpl; [done|].
  by rewrite insert_by_perm, IH.
Qed.

Lemma sorted_ascending (l : list string) : ascending (sorted l).
Proof.
  unfold sorted. induction l as [|x l IH]; simpl; [constructor|].
  by apply insert_by_ascending.
Qed.

(** The rows under an item after an insertion. *)
Lemma nodes_of_ext tv tv' parent itp itp' extra :
  Tk.items tv !! parent = Some itp → Tk.items tv' !! parent = Some itp' →
  Tk.children itp' = Tk.children itp ++ extra →
  (∀ c, c ∈ Tk.children itp → node_at tv' c = node_at tv c) →
  nodes_of tv' parent = nodes_of tv parent ++ omap (node_at tv') extra.
Proof.
  intros Hp Hp' Hch Hsame. unfold nodes_of. rewrite Hp, Hp', Hch, omap_app.
  f_equal. apply list_omap_ext. clear Hch Hp Hp'.
  induction (Tk.children itp) as [|c l IH]; constructor.
  - apply Hsame. by left.
  - apply IH. intros c' Hc'. apply Hsame. by right.
Qed.

Lemma node_at_add_child tv c c' it :
  Tk.items tv !! c = Some it →
  Some (mk_node c (Tk.text (Tk.add_child c' it)) (Tk.values (Tk.add_child c' it))
          (Tk.tags (Tk.add_child c' it))) = node_at tv c.
Proof. intros Hc. unfold node_at. by rewrite Hc. Qed.

Lemma row_insert tv0 parent added tv s txt vals tgs :
  listing_inv tv0 parent added tv →
  Tk.items tv0 !! inl s = None → inl s ∉ map node_id added →
  ∃ tv', Tk.insert tv parent (Some s) txt vals tgs = (Returns (inl s), tv') ∧
         listing_inv tv0 parent (added ++ [mk_node (inl s) txt vals tgs]) tv' ∧
         inl s ≠ parent ∧ is_Some (Tk.items tv' !! inl s).
Proof.
  intros ((itp & Hp & Hch) & Hn & Hser & Hkeys) H0 Hadd.
  assert (Tk.items tv !! inl s = None) as Hs.
  { destruct (Tk.items tv !! inl s) eqn:E; [|done].
    destruct (Hkeys s) as [[? ?]|?]; [eauto|congruence|done]. }
  assert (inl s ≠ parent) as Hne by congruence.
  destruct (Tk.insert tv parent (Some s) txt vals tgs) as [r tv'] eqn:Hins.
  assert (r = Returns (inl s)) as ->.
  { revert Hins. unfold Tk.insert. rewrite Hp, Hs. by intros [= <- _]. }
  destruct (insert_lookup _ _ _ _ _ _ _ _ Hins) as (itp' & Hp' & _ & Hser' & Hl).
  assert (itp' = itp) as -> by congruence. clear Hp'.
  rewrite (decide_False (P := parent = inl s)) in Hl by done.
  exists tv'. split; [done|]. split; [|split; [done|]].
  - split; [|split; [|split]].
    + exists (Tk.add_child (inl s) itp). split.
      { rewrite Hl. by rewrite decide_True. }
      intros c. simpl. rewrite elem_of_app, list_elem_of_singleton.
      intros [Hc| ->]; rewrite Hl; repeat case_decide; try done; eauto.
    + rewrite (nodes_of_ext tv tv' parent itp (Tk.add_child (inl s) itp) [inl s]
                 Hp); [| |done|].
      * rewrite Hn, <- app_assoc. f_equal. simpl. unfold node_at.
        rewrite Hl. rewrite decide_False by done. by rewrite decide_True.
      * rewrite Hl. by rewrite decide_True.
      * intros c Hc. destruct (Hch c Hc) as [ic Hic]. unfold node_at at 1.
        rewrite Hl. case_decide as E1.
        { subst c. by apply node_at_add_child. }
        case_decide as E2; [congruence|]. done.
    + intros n. rewrite Hser', Hl. case_decide as E1.
      { subst parent. intros _. apply Hser. by exists itp. }
      case_decide as E2; [done|]. apply Hser.
    + intros s'. rewrite Hl, map_app, elem_of_app. simpl.
      rewrite list_elem_of_singleton.
      case_decide as E1.
      { subst parent. intros _.
        destruct (Hkeys s') as [?|?]; [by exists itp|by left|by right; left]. }
      case_decide as E2.
      { injection E2 as ->. intros _. right. by right. }
      intros H'. destruct (Hkeys s' H') as [?|?]; [by left|by right; left].
  - rewrite Hl. rewrite decide_False by done. rewrite decide_True by done. eauto.
Qed.

Lemma dummy_insert tv0 parent added tv s :
  listing_inv tv0 parent added tv →
  is_Some (Tk.items tv !! inl s) → inl s ≠ parent →
  ∃ r tv', Tk.insert tv (inl s) None "" [] [Tk.Dummy] = (Returns r, tv') ∧
           listing_inv tv0 parent added tv'.
Proof.
  intros ((itp & Hp & Hch) & Hn & Hser & Hkeys) [it Hs] Hne.
  destruct (Tk.insert tv (inl s) None "" [] [Tk.Dummy]) as [r tv'] eqn:Hins.
  assert (∃ i, r = Returns i) as [i ->].
  { revert Hins. unfold Tk.insert. rewrite Hs. intros [= <- _]. eauto. }
  destruct (insert_lookup _ _ _ _ _ _ _ _ Hins) as (it' & Hs' & -> & Hser' & Hl).
  assert (it' = it) as -> by congruence. clear Hs'.
  rewrite (decide_False (P := inl s = inr (S (Tk.serial tv)))) in Hl by done.
  assert (∀ j, is_Some (Tk.items tv !! j) → j ≠ inr (S (Tk.serial tv))) as Hfresh.
  { intros j Hj ->. apply Hser in Hj. lia. }
  exists (inr (S (Tk.serial tv))), tv'. split; [done|].
  assert (Tk.items tv' !! parent = Some itp) as Hp'.
  { rewrite Hl. rewrite decide_False by done.
    rewrite decide_False; [done|]. apply Hfresh. eauto. }
  split; [|split; [|split]].
  - exists itp. split; [done|]. intros c Hc. rewrite Hl.
    repeat case_decide; try done; eauto.
  - rewrite (nodes_of_ext tv tv' parent itp itp [] Hp Hp');
      [by rewrite app_nil_r| by rewrite app_nil_r |].
    intros c Hc. unfold node_at at 1. rewrite Hl.
    case_decide as E1.
    { subst c. by apply node_at_add_child. }
    case_decide as E2; [|done].
    destruct (Hfresh c (Hch c Hc) E2).
  - intros n. rewrite Hser', Hl. case_decide as E1; [done|].
    case_decide as E2.
    { injection E2 as ->. done. }
    intros Hx. apply Hser in Hx. lia.
  - intros s'. rewrite Hl. case_decide as E1.
    { injection E1 as ->. intros _. apply Hkeys. by exists it. }
    case_decide as E2; [done|]. apply Hkeys.
Qed.

Lemma tree_insert_run parent id txt vals tgs tv s1 r tv' :
  Tk.insert tv parent id txt vals tgs = (r, tv') →
  tree_insert parent id txt vals tgs (set_tree (λ _, tv) s1) =
    (r, set_tree (λ _, tv') s1).
Proof. intros H. unfold tree_insert, on_tree. simpl. by rewrite H. Qed.

Lemma bind_run {A B} (m : M A) (f : A → M B) st a st' :
  m st = (Returns a, st') → (m ≫= f) st = f a st'.
Proof. intros H. unfold mbind, M_bind, bind. by rewrite H. Qed.

Lemma try_except_run {A} (m : M A) catches (h : string → M A) st a st' :
  m st = (Returns a, st') → try_except m catches h st = (Returns a, st').
Proof. intros H. unfold try_except. by rewrite H. Qed.

Lemma try_except_ex {A} (m : M A) catches (h : string → M A) st s1 a
    (Q : Tk.treeview → Prop) :
  (∃ tv', m st = (Returns a, set_tree (λ _, tv') s1) ∧ Q tv') →
  ∃ tv', try_except m catches h st = (Returns a, set_tree (λ _, tv') s1) ∧ Q tv'.
Proof.
  intros (tv' & H & HQ). exists tv'. split; [|done]. by apply try_except_run.
Qed.

Lemma try_except_catch {A} (m : M A) catches (h : string → M A) st c e st' :
  m st = (Raises c e, st') → catches c = true →
  try_except m catches h st = h e st'.
Proof. intros H Hc. unfold try_except. by rewrite H, Hc. Qed.

Lemma bind_raise {A B} (m : M A) (f : A → M B) st c e st' :
  m st = (Raises c e, st') → (m ≫= f) st = (Raises c e, st').
Proof. intros H. unfold mbind, M_bind, bind. by rewrite H. Qed.

Section ListingProofs.
Context (os : OS) (parent : Tk.iid) (p : string) (s1 : app) (tv0 : Tk.treeview).
Hypothesis no_links : ∀ q, islink os q = false.
Hypothesis one_kind : ∀ q, isdir os q = true → isfile os q = false.

Let ip (item : string) : string := normpath os (path_join os p item).
Let folder_of := folder_node os (dir_entry s1) (exclude_enabled s1)
                   (FileHandler.exclude_patterns (file_handler s1)) p.

Lemma populate_folder_lists (added : list node) (tv : Tk.treeview) (item : string) :
  (∃ rel, relpath os (ip item) (dir_entry s1) = Returns rel) →
  listing_inv tv0 parent added tv →
  (is_Some (folder_of item) →
   Tk.items tv0 !! inl (ip item) = None ∧ inl (ip item) ∉ map node_id added) →
  ∃ tv', populate_folder os parent p item (set_tree (λ _, tv) s1) =
           (Returns tt, set_tree (λ _, tv') s1) ∧
         listing_inv tv0 parent (added ++ option_list (folder_of item)) tv'.
Proof.
  intros [rel Hrel] Hinv Hfresh. subst folder_of. unfold folder_node in *.
  fold (ip item) in *. rewrite Hrel in *.
  unfold populate_folder. fold (ip item).
  erewrite bind_run; [|reflexivity]. simpl dir_entry.
  erewrite bind_run; [|by rewrite Hrel].
  rewrite no_links.
  destruct (isdir os (ip item)) eqn:Hdir.
  - destruct Hfresh as [H0 Hadd]; [eauto|].
    apply try_except_ex.
    erewrite bind_run; [|reflexivity]. 
    erewrite bind_run; [|reflexivity]. simpl exclude_enabled. simpl file_handler.
    change (FileHandler.should_exclude (file_handler s1) rel) with
      (FileHandler.should_exclude
         (FileHandler.mk (FileHandler.exclude_patterns (file_handler s1)) ∅) rel).
    destruct (exclude_enabled s1 && _).
    + destruct (row_insert tv0 parent added tv (ip item) ("⊘ " +:+ item)
                  [Tk.CStr "(excluded)"] [Tk.Folder; Tk.Excluded] Hinv H0 Hadd)
        as (tv1 & Hins & Hinv1 & Hne & Hsome).
      erewrite bind_run; [|by apply tree_insert_run].
      destruct (dummy_insert _ _ _ _ _ Hinv1 Hsome Hne) as (r & tv2 & Hins2 & Hinv2).
      erewrite bind_run; [|by apply tree_insert_run].
      exists tv2. by split.
    + destruct (row_insert tv0 parent added tv (ip item) ("☐ " +:+ item)
                  [Tk.CStr ""] [Tk.Folder] Hinv H0 Hadd)
        as (tv1 & Hins & Hinv1 & Hne & Hsome).
      erewrite bind_run; [|by apply tree_insert_run].
      destruct (dummy_insert _ _ _ _ _ Hinv1 Hsome Hne) as (r & tv2 & Hins2 & Hinv2).
      erewrite bind_run; [|by apply tree_insert_run].
      exists tv2. by split.
  - exists tv. simpl. rewrite app_nil_r. by split.
Qed.

Let file_of (extensions : list string) :=
  file_node os (dir_entry s1) (exclude_enabled s1)
    (FileHandler.exclude_patterns (file_handler s1)) p extensions.

Lemma populate_file_lists (extensions : list string) (added : list node)
    (tv : Tk.treeview) (item : string) :
  (∃ rel, relpath os (ip item) (dir_entry s1) = Returns rel) →
  listing_inv tv0 parent added tv →
  (is_Some (file_of extensions item) →
   Tk.items tv0 !! inl (ip item) = None ∧ inl (ip item) ∉ map node_id added) →
  ∃ tv', populate_file os parent p extensions item (set_tree (λ _, tv) s1) =
           (Returns tt, set_tree (λ _, tv') s1) ∧
         listing_inv tv0 parent (added ++ option_list (file_of extensions item)) tv'.
Proof.
  intros [rel Hrel] Hinv Hfresh. subst file_of. unfold file_node in *.
  fold (ip item) in *. rewrite Hrel in *.
  unfold populate_file. fold (ip item).
  erewrite bind_run; [|reflexivity]. simpl dir_entry.
  erewrite bind_run; [|by rewrite Hrel].
  destruct (isfile os (ip item)) eqn:Hfile; simpl when.
  2:{ exists tv. simpl. rewrite app_nil_r. by split. }
  apply try_except_ex.
  erewrite bind_run; [|reflexivity].
  erewrite bind_run; [|reflexivity].
  change (exclude_enabled (set_tree (λ _, tv) s1)) with (exclude_enabled s1).
  change (file_handler (set_tree (λ _, tv) s1)) with (file_handler s1).
  change (FileHandler.should_exclude (file_handler s1) rel) with
    (FileHandler.should_exclude
       (FileHandler.mk (FileHandler.exclude_patterns (file_handler s1)) ∅) rel)
    in *.
  destruct (exclude_enabled s1 && _).
  { destruct Hfresh as [H0 Hadd]; [eauto|].
    destruct (row_insert tv0 parent added tv (ip item) ("⊘ " +:+ item)
                [Tk.CStr "(excluded)"] [Tk.File; Tk.Excluded] Hinv H0 Hadd)
      as (tv1 & Hins & Hinv1 & _).
    erewrite bind_run; [|by apply tree_insert_run].
    exists tv1. by split. }
  destruct (matches_extensions extensions item); simpl when.
  2:{ exists tv. simpl. rewrite app_nil_r. by split. }
  destruct Hfresh as [H0 Hadd]; [eauto|].
  destruct (TokenCounter.count_tokens_in_file os (ip item)) as [tc|c e] eqn:Hcount.
  - apply try_except_ex.
    erewrite bind_run; [|reflexivity].
    destruct (Nat.eqb tc 0 && _).
    + destruct (row_insert tv0 parent added tv (ip item) ("☐ " +:+ item)
                  [Tk.CStr "(binary)"] [Tk.File; Tk.Binary] Hinv H0 Hadd)
        as (tv1 & Hins & Hinv1 & _).
      erewrite bind_run; [|by apply tree_insert_run].
      exists tv1. by split.
    + destruct (row_insert tv0 parent added tv (ip item) ("☐ " +:+ item)
                  [Tk.CInt tc] [Tk.File] Hinv H0 Hadd)
        as (tv1 & Hins & Hinv1 & _).
      erewrite bind_run; [|by apply tree_insert_run].
      exists tv1. by split.
  - erewrite try_except_catch; [| |reflexivity].
    2:{ apply bind_raise. reflexivity. }
    destruct (row_insert tv0 parent added tv (ip item) ("☐ " +:+ item)
                [Tk.CStr "(error)"] [Tk.File; Tk.Error] Hinv H0 Hadd)
      as (tv1 & Hins & Hinv1 & _).
    erewrite bind_run; [|by apply tree_insert_run].
    exists tv1. by split.
Qed.

Lemma for_each_lists (f : string → M unit) (g : string → option node)
    (l : list string) :
  (∀ added tv item,
     item ∈ l → listing_inv tv0 parent added tv →
     (is_Some (g item) →
      Tk.items tv0 !! inl (ip item) = None ∧ inl (ip item) ∉ map node_id added) →
     ∃ tv', f item (set_tree (λ _, tv) s1) = (Returns tt, set_tree (λ _, tv') s1) ∧
            listing_inv tv0 parent (added ++ option_list (g item)) tv') →
  (∀ item nd, g item = Some nd → node_id nd = inl (ip item)) →
  NoDup (map ip l) →
  ∀ added tv,
    listing_inv tv0 parent added tv →
    (∀ item, item ∈ l → is_Some (g item) →
       Tk.items tv0 !! inl (ip item) = None ∧ inl (ip item) ∉ map node_id added) →
    ∃ tv', for_each l f (set_tree (λ _, tv) s1) =
             (Returns tt, set_tree (λ _, tv') s1) ∧
           listing_inv tv0 parent (added ++ omap g l) tv'.
Proof.
  intros Hstep Hid. induction l as [|a l IH]; intros Hnd added tv Hinv Hfresh.
  { exists tv. simpl. rewrite app_nil_r. by split. }
  apply NoDup_cons in Hnd as [Ha Hnd].
  destruct (Hstep added tv a) as (tv1 & Hrun & Hinv1); [by left|done|..].
  { apply Hfresh. by left. }
  destruct (IH) with (added := added ++ option_list (g a)) (tv := tv1)
    as (tv2 & Hrun2 & Hinv2); [..|done|done| |].
  { intros added' tv' item Hitem. apply Hstep. by right. }
  { intros item Hitem Hsome. destruct (Hfresh item) as [H0 Hadd];
      [by right|done|]. split; [done|].
    rewrite map_app, elem_of_app. intros [?|Hin]; [done|].
    destruct (g a) as [nd|] eqn:Hga; simpl in Hin.
    - apply list_elem_of_singleton in Hin. rewrite (Hid _ _ Hga) in Hin.
      injection Hin as Hin. apply Ha. rewrite <- Hin.
      apply list_elem_of_In, in_map, list_elem_of_In. done.
    - by apply elem_of_nil in Hin. }
  exists tv2. split.
  - simpl. erewrite bind_run; [|exact Hrun]. exact Hrun2.
  - replace (omap g (a :: l)) with (option_list (g a) ++ omap g l).
    + by rewrite app_assoc.
    + simpl. by destruct (g a).
Qed.
End ListingProofs.


Lemma listing_inv_start (tv : Tk.treeview) (parent : Tk.iid) :
  tree_wf tv → tree_shape tv → is_Some (Tk.items tv !! parent) →
  listing_inv tv parent [] tv.
Proof.
  intros (_ & _ & Hser) (_ & Hch & _) [itp Hp]. split; [|split; [|split]].
  - exists itp. split; [done|]. intros c Hc. by eapply Hch.
  - by rewrite app_nil_r.
  - done.
  - intros s Hs. by left.
Qed.

Lemma set_tree_id (st : app) : set_tree (λ _, tree st) st = st.
Proof. by destruct st. Qed.

Lemma folder_node_id os dir enabled patterns p item nd :
  folder_node os dir enabled patterns p item = Some nd →
  node_id nd = inl (normpath os (path_join os p item)) ∧
  isdir os (normpath os (path_join os p item)) = true.
Proof.
  unfold folder_node. destruct (relpath os _ dir); [|done].
  destruct (isdir os _); [|done]. intros [= <-]. by destruct (_ && _).
Qed.

Lemma file_node_id os dir enabled patterns p exts item nd :
  file_node os dir enabled patterns p exts item = Some nd →
  node_id nd = inl (normpath os (path_join os p item)) ∧
  isfile os (normpath os (path_join os p item)) = true.
Proof.
  unfold file_node. destruct (relpath os _ dir); [|done].
  destruct (isfile os _); [|done]. destruct (_ && _).
  { by intros [= <-]. }
  destruct (matches_extensions exts item); [|done]. intros [= <-].
  destruct (TokenCounter.count_tokens_in_file os _); [|done].
  by destruct (_ && _).
Qed.

(** One listing, in a session that does not hold the folder. *)
Lemma populate_tree_lists (os : OS) (st : app) (parent : Tk.iid)
    (path : string) (extensions : list string) (items : list string) :
  (∀ q, islink os q = false) →
  (∀ q, isdir os q = true → isfile os q = false) →
  listdir os (normpath os path) = Returns items →
  NoDup (map (fun item => normpath os (path_join os (normpath os path) item)) items) →
  fresh_session os st (normpath os path) →
  listable os st parent (normpath os path) items →
  ∃ st',
    populate_tree os parent path extensions st = (Returns tt, st') ∧
    listing_inv (tree st) parent
      (list_children os (dir_entry st) (exclude_enabled st)
         (FileHandler.exclude_patterns (file_handler st)) (normpath os path)
         extensions items)
      (tree st') ∧
    (∀ real_path, realpath os (normpath os path) = Returns real_path →
                  real_path ∈ FileHandler.visited_paths (file_handler st')).
Proof.
  intros Hlink Hkind Hlist Hnd (rp & Hreal & Hrp) (Hwf & Hsh & Hp & Hitems).
  set (p := normpath os path) in *.
  set (ip := fun item => normpath os (path_join os p item)) in *.
  set (s1 := set_file_handler
               (λ _, FileHandler.mk (FileHandler.exclude_patterns (file_handler st))
                       ({[rp]} ∪ FileHandler.visited_paths (file_handler st))) st).
  assert (is_safe_path os p st = (Returns true, s1)) as Hsafe.
  { unfold is_safe_path, FileHandler.is_safe_path, FileHandler.is_safe_path_try.
    rewrite Hreal. by rewrite bool_decide_eq_false_2. }
  assert (NoDup (map ip (sorted items))) as Hnd'.
  { assert (Permutation (map ip (sorted items)) (map ip items)) as Hperm
      by apply Permutation_map, sorted_perm.
    by rewrite Hperm. }
  assert (∀ item, item ∈ sorted items → item ∈ items) as Hin.
  { intros item. by rewrite (sorted_perm items). }
  pose proof (listing_inv_start (tree st) parent Hwf Hsh Hp) as Hinv0.
  destruct (for_each_lists os parent p s1 (tree st)
              (populate_folder os parent p)
              (folder_node os (dir_entry s1) (exclude_enabled s1)
                 (FileHandler.exclude_patterns (file_handler s1)) p)
              (sorted items)) with (added := @nil node) (tv := tree st)
    as (tv1 & Hrun1 & Hinv1); [..|done|done| |].
  { intros added tv item Hitem Hinv Hfresh.
    apply populate_folder_lists; [done| |done|done].
    apply (Hitems item (Hin _ Hitem)). }
  { intros item nd Hnode. by apply folder_node_id in Hnode as [? _]. }
  { intros item Hitem _. split; [apply (Hitems item (Hin _ Hitem))|].
    by intros ?%elem_of_nil. }
  destruct (for_each_lists os parent p s1 (tree st)
              (populate_file os parent p extensions)
              (file_node os (dir_entry s1) (exclude_enabled s1)
                 (FileHandler.exclude_patterns (file_handler s1)) p extensions)
              (sorted items))
    with (added := [] ++ omap (folder_node os (dir_entry s1) (exclude_enabled s1)
                         (FileHandler.exclude_patterns (file_handler s1)) p)
                         (sorted items)) (tv := tv1)
    as (tv2 & Hrun2 & Hinv2); [..|done|done| |].
  { intros added tv item Hitem Hinv Hfresh.
    apply populate_file_lists; [| done|done].
    apply (Hitems item (Hin _ Hitem)). }
  { intros item nd Hnode. by apply file_node_id in Hnode as [? _]. }
  { intros item Hitem [nd Hnode]. split; [apply (Hitems item (Hin _ Hitem))|].
    apply file_node_id in Hnode as [_ Hfile].
    simpl. intros Hx. apply list_elem_of_In, in_map_iff in Hx as (nd' & Hid & Hx).
    apply list_elem_of_In, list_elem_of_omap in Hx as (item' & _ & Hnode').
    apply folder_node_id in Hnode' as [Hid' Hdir].
    rewrite Hid' in Hid. injection Hid as Hid.
    fold (ip item') in Hdir. fold (ip item) in Hfile. 
    unfold ip in *. rewrite Hid in Hdir.
    apply Hkind in Hdir. congruence. }
  exists (set_tree (λ _, tv2) s1). split; [|split].
  - unfold populate_tree. fold p. apply try_except_run.
    rewrite (bind_run _ _ _ _ _ Hsafe). cbv beta.
    change (negb true) with false. cbv iota.
    assert (lift (listdir os p) s1 = (Returns items, s1)) as Hl
      by (unfold lift; by rewrite Hlist).
    rewrite (bind_run _ _ _ _ _ Hl).
    change (set_tree (λ _, tree st) s1) with (set_tree (λ _, tree s1) s1) in Hrun1.
    rewrite (set_tree_id s1) in Hrun1.
    rewrite (bind_run _ _ _ _ _ Hrun1). exact Hrun2.
  - exact Hinv2.
  - intros rp' Hrp'. simpl. assert (rp' = rp) as -> by congruence.
    apply elem_of_union_l. by apply elem_of_singleton.
Qed.

Lemma marker_insert tv0 parent added tv txt vals tgs :
  listing_inv tv0 parent added tv →
  ∃ tv', Tk.insert tv parent None txt vals tgs =
           (Returns (inr (S (Tk.serial tv))), tv') ∧
         nodes_of tv' parent =
           nodes_of tv parent ++ [mk_node (inr (S (Tk.serial tv))) txt vals tgs].
Proof.
  intros ((itp & Hp & Hch) & Hn & Hser & Hkeys).
  destruct (Tk.insert tv parent None txt vals tgs) as [r tv'] eqn:Hins.
  assert (r = Returns (inr (S (Tk.serial tv)))) as ->.
  { revert Hins. unfold Tk.insert. rewrite Hp. by intros [= <- _]. }
  destruct (insert_lookup _ _ _ _ _ _ _ _ Hins) as (itp' & Hp' & _ & _ & Hl).
  assert (itp' = itp) as -> by congruence. clear Hp'.
  assert (∀ j, is_Some (Tk.items tv !! j) → j ≠ inr (S (Tk.serial tv))) as Hfresh.
  { intros j Hj ->. apply Hser in Hj. lia. }
  assert (parent ≠ inr (S (Tk.serial tv))) as Hne by (apply Hfresh; eauto).
  rewrite (decide_False (P := parent = inr (S (Tk.serial tv)))) in Hl by done.
  exists tv'. split; [done|].
  rewrite (nodes_of_ext tv tv' parent itp
             (Tk.add_child (inr (S (Tk.serial tv))) itp)
             [inr (S (Tk.serial tv))] Hp); [| |done|].
  - f_equal. simpl. unfold node_at. rewrite Hl.
    rewrite decide_False by done. by rewrite decide_True.
  - rewrite Hl. by rewrite decide_True.
  - intros c Hc. unfold node_at at 1. rewrite Hl. case_decide as E1.
    { subst c. by apply node_at_add_child. }
    case_decide as E2; [|done]. destruct (Hfresh c (Hch c Hc) E2).
Qed.

(** A listing in a session that holds the folder already. *)
Lemma populate_tree_again (os : OS) (st : app) (parent : Tk.iid)
    (path : string) (extensions : list string) (real_path : string)
    (tv0 : Tk.treeview) (added : list node) :
  realpath os (normpath os path) = Returns real_path →
  real_path ∈ FileHandler.visited_paths (file_handler st) →
  listing_inv tv0 parent added (tree st) →
  listed os st parent path extensions =
    [skip_marker (S (Tk.serial (tree st)))].
Proof.
  intros Hreal Hin Hinv.
  destruct (marker_insert tv0 parent added (tree st)
              "⚠ Skipped: Potential circular reference"
              [Tk.CStr "(skipped)"] [Tk.Error] Hinv) as (tv' & Hins & Hnodes).
  assert (is_safe_path os (normpath os path) st =
            (Returns false, set_file_handler (λ _, file_handler st) st)) as Hsafe.
  { unfold is_safe_path, FileHandler.is_safe_path, FileHandler.is_safe_path_try.
    rewrite Hreal. by rewrite bool_decide_eq_true_2. }
  assert (populate_tree os parent path extensions st =
            (Returns tt,
             set_tree (λ _, tv') (set_file_handler (λ _, file_handler st) st)))
    as Hrun.
  { unfold populate_tree. apply try_except_run.
    rewrite (bind_run _ _ _ _ _ Hsafe). cbv beta.
    change (negb false) with true. cbv iota.
    assert (tree_insert parent None "⚠ Skipped: Potential circular reference"
              [Tk.CStr "(skipped)"] [Tk.Error]
              (set_file_handler (λ _, file_handler st) st) =
            (Returns (inr (S (Tk.serial (tree st)))),
             set_tree (λ _, tv') (set_file_handler (λ _, file_handler st) st)))
      as Hi.
    { unfold tree_insert, on_tree. simpl. by rewrite Hins. }
    by rewrite (bind_run _ _ _ _ _ Hi). }
  unfold listed. rewrite Hrun. simpl. rewrite Hnodes.
  by rewrite drop_app_length.
Qed.

Lemma list_children_entries os dir enabled patterns p exts items nd :
  nd ∈ list_children os dir enabled patterns p exts items →
  ∃ item, item ∈ items ∧ node_id nd = inl (normpath os (path_join os p item)).
Proof.
  unfold list_children. rewrite elem_of_app, !list_elem_of_omap.
  intros [(item & Hitem & Hnode)|(item & Hitem & Hnode)]; exists item;
    rewrite (sorted_perm items) in Hitem; (split; [done|]).
  - by apply folder_node_id in Hnode as [? _].
  - by apply file_node_id in Hnode as [? _].
Qed.

Lemma listed_lists (os : OS) (st : app) (parent : Tk.iid)
    (path : string) (extensions : list string) (items : list string) :
  (∀ q, islink os q = false) →
  (∀ q, isdir os q = true → isfile os q = false) →
  listdir os (normpath os path) = Returns items →
  NoDup (map (fun item => normpath os (path_join os (normpath os path) item)) items) →
  fresh_session os st (normpath os path) →
  listable os st parent (normpath os path) items →
  listed os st parent path extensions =
    list_children os (dir_entry st) (exclude_enabled st)
      (FileHandler.exclude_patterns (file_handler st)) (normpath os path)
      extensions items.
Proof.
  intros Hlink Hkind Hlist Hnd Hfresh Hable.
  destruct (populate_tree_lists os st parent path extensions items)
    as (st' & Hrun & (_ & Hnodes & _) & _); try done.
  unfold listed. rewrite Hrun. simpl. rewrite Hnodes.
  by rewrite drop_app_length.
Qed.

Lemma ascending_sublist (l1 l2 : list string) :
  l1 `sublist_of` l2 → ascending l2 → ascending l1.
Proof.
  induction 1 as [|x l1 l2 Hsub IH|x l1 l2 Hsub IH]; intros Hasc.
  - constructor.
  - apply StronglySorted_inv in Hasc as [Hl Hx]. constructor; [by apply IH|].
    rewrite Forall_forall in Hx. apply Forall_forall. intros y Hy.
    apply Hx. by eapply elem_of_sublist.
  - apply StronglySorted_inv in Hasc as [Hl _]. by apply IH.
Qed.

Lemma omap_ids (ip : string → string) (g : string → option node)
    (l : list string) :
  (∀ item nd, g item = Some nd → node_id nd = inl (ip item)) →
  map node_id (omap g l) =
    map (fun item => inl (ip item)) (filter (fun item => is_Some (g item)) l).
Proof.
  intros Hid. induction l as [|a l IH]; [done|].
  rewrite filter_cons.
  change (omap g (a :: l)) with
    (match g a with Some y => y :: omap g l | None => omap g l end).
  destruct (g a) as [nd|] eqn:Ha.
  - rewrite decide_True by eauto.
    change (node_id nd :: map node_id (omap g l) =
            inl (ip a) :: map (fun item => inl (ip item))
                            (filter (fun item => is_Some (g item)) l)).
    by rewrite (Hid _ _ Ha), IH.
  - rewrite decide_False; [done|]. by intros [? ?].
Qed.

Lemma list_children_order os dir enabled patterns p exts items :
  ∃ folders files,
    ascending folders ∧ ascending files ∧
    (∀ item, item ∈ folders →
       item ∈ items ∧ isdir os (normpath os (path_join os p item)) = true) ∧
    (∀ item, item ∈ files →
       item ∈ items ∧ isfile os (normpath os (path_join os p item)) = true) ∧
    map node_id (list_children os dir enabled patterns p exts items) =
      map (fun item => inl (normpath os (path_join os p item)))
        (folders ++ files).
Proof.
  exists (filter (fun item => is_Some (folder_node os dir enabled patterns p item))
            (sorted items)),
         (filter (fun item => is_Some (file_node os dir enabled patterns p exts item))
            (sorted items)).
  split; [|split; [|split; [|split]]].
  - eapply ascending_sublist; [apply sublist_filter|apply sorted_ascending].
  - eapply ascending_sublist; [apply sublist_filter|apply sorted_ascending].
  - intros item [[nd Hnode] Hitem]%list_elem_of_filter.
    rewrite (sorted_perm items) in Hitem. split; [done|].
    by apply folder_node_id in Hnode as [_ ?].
  - intros item [[nd Hnode] Hitem]%list_elem_of_filter.
    rewrite (sorted_perm items) in Hitem. split; [done|].
    by apply file_node_id in Hnode as [_ ?].
  - unfold list_children. rewrite !map_app. f_equal.
    + apply (omap_ids (fun item => normpath os (path_join os p item))).
      intros item nd Hnode. by apply folder_node_id in Hnode as [? _].
    + apply (omap_ids (fun item => normpath os (path_join os p item))).
      intros item nd Hnode. by apply file_node_id in Hnode as [? _].
Qed.

(** C5.  In a file system without symbolic links, [populate_tree]
    called for a folder whose resolved path is not in [visited_paths]
    (as after [clear_visited_paths]), on a well-formed tree that holds
    [parent] and none of the entries, adds under [parent] the rows of
    [list_children]: the folders, then the files, each group in
    ascending order of the names, every row an entry of the folder.
    The rows depend on the file system, the folder, the filter and the
    exclusion settings only: a call in any state with the same
    settings, again with the resolved path not in [visited_paths], adds
    the same rows.  Called once more without [visited_paths] cleared,
    [populate_tree] adds the skip marker and nothing else. *)
Theorem listing_after_reset (os : OS) (st : app) (parent : Tk.iid)
    (path : string) (extensions : list string) (items : list string) :
  let p := normpath os path in
  let item_path := fun item => normpath os (path_join os p item) in
  let rows := list_children os (dir_entry st) (exclude_enabled st)
                (FileHandler.exclude_patterns (file_handler st)) p
                extensions items in
  (∀ q, islink os q = false) →
  (∀ q, isdir os q = true → isfile os q = false) →
  listdir os p = Returns items →
  NoDup (map item_path items) →
  fresh_session os st p →
  listable os st parent p items →
  listed os st parent path extensions = rows ∧
  (∃ folders files,
     ascending folders ∧ ascending files ∧
     (∀ item, item ∈ folders →
        item ∈ items ∧ isdir os (item_path item) = true) ∧
     (∀ item, item ∈ files →
        item ∈ items ∧ isfile os (item_path item) = true) ∧
     map node_id rows =
       map (fun item => inl (item_path item)) (folders ++ files)) ∧
  (∀ st2, dir_entry st2 = dir_entry st →
          exclude_enabled st2 = exclude_enabled st →
          FileHandler.exclude_patterns (file_handler st2) =
            FileHandler.exclude_patterns (file_handler st) →
          fresh_session os st2 p → listable os st2 parent p items →
          listed os st2 parent path extensions = rows) ∧
  (let st1 := (populate_tree os parent path extensions st).2 in
   listed os st1 parent path extensions =
     [skip_marker (S (Tk.serial (tree st1)))]).
Proof.
  intros p item_path rows Hlink Hkind Hlist Hnd Hfresh Hable.
  split; [by apply listed_lists|].
  split; [apply list_children_order|]. split.
  - intros st2 H1 H2 H3 Hfresh2 Hable2. subst rows. rewrite <- H1, <- H2, <- H3.
    by apply listed_lists.
  - destruct (populate_tree_lists os st parent path extensions items)
      as (st' & Hrun & Hinv & Hvis); try done.
    rewrite Hrun. simpl. destruct Hfresh as (rp & Hreal & _).
    eapply populate_tree_again; [exact Hreal|by apply Hvis|exact Hinv].
Qed.

Lemma assoc_key {A} (k : string) (l : list (string * A)) :
  is_Some (Toy.assoc k l) → k ∈ map fst l.
Proof.
  induction l as [|[k' v] l IH]; simpl.
  { by intros [? ?]. }
  destruct (String.eqb_spec k' k) as [->|Hne]; intros H.
  - by left.
  - right. by apply IH.
Qed.

Lemma toy_one_kind (q : string) :
  isdir (Toy.os Toy.repo) q = true → isfile (Toy.os Toy.repo) q = false.
Proof.
  intros H. apply bool_decide_eq_true, assoc_key in H.
  change (q ∈ ["/repo"; "/repo/src"; "/repo/env"]) in H.
  rewrite !elem_of_cons in H.
  destruct H as [->|[->|[->|H]]];
    [vm_compute; reflexivity..|by apply elem_of_nil in H].
Qed.

(** [/repo] listed into the empty tree: the theorem at that state. *)
Lemma listing_after_reset_witness :
  listed (Toy.os Toy.repo) typed_repo Tk.root "/repo" [".py"] =
    [ mk_node (inl "/repo/env") "⊘ env" [Tk.CStr "(excluded)"]
        [Tk.Folder; Tk.Excluded];
      mk_node (inl "/repo/src") "☐ src" [Tk.CStr ""] [Tk.Folder];
      mk_node (inl "/repo/a.py") "☐ a.py" [Tk.CInt 8] [Tk.File] ].
Proof.
  refine (proj1 (listing_after_reset (Toy.os Toy.repo) typed_repo Tk.root
                   "/repo" [".py"] ["src"; "a.py"; "environment.txt"; "env"]
                   _ _ _ _ _ _)).
  - intros q. reflexivity.
  - apply toy_one_kind.
  - reflexivity.
  - apply (@bool_decide_unpack _ (NoDup_dec _)). vm_compute. exact I.
  - exists "/repo". split; [reflexivity|]. apply not_elem_of_empty.
  - destruct W_init as ((Hwf & _) & Hsh & _).
    split; [exact Hwf|]. split; [exact Hsh|]. split.
    { vm_compute. eauto. }
    intros item Hitem. split.
    + simpl. unfold Toy.rel. repeat case_match; eauto.
    + rewrite !elem_of_cons in Hitem.
      destruct Hitem as [->|[->|[->|[->|Hitem]]]];
        [vm_compute; reflexivity..|by apply elem_of_nil in Hitem].
Defined.

(** The folder [/r/empty] listed twice in the same session: the second
    listing adds the skip marker, the first added nothing. *)
Lemma relisting_adds_skip_marker : ¬ listing_idempotent (Toy.os Toy.hollow).
Proof.
  intros H.
  specialize (H (fun _ => eq_refl) browsed_hollow (inl "/r/empty") "/r/empty"
                [".py"]).
  vm_compute in H. discriminate H.
Qed.

(** The same through the interface: the empty folder checked,
    unchecked and checked again. *)
Example empty_folder_checked_twice :
  nodes_of
    (tree (run 50 (Toy.os Toy.hollow)
             [Click (inl "/r/empty"); Click (inl "/r/empty");
              Click (inl "/r/empty")] browsed_hollow))
    (inl "/r/empty") =
  [ mk_node (inr 2%nat) "☑ Skipped: Potential circular reference"
      [Tk.CStr "(skipped)"] [Tk.Error] ].
Proof. vm_compute. reflexivity. Qed.

(** ** More on [should_exclude] *)

Lemma replace_char_idem (a b : ascii) (s : string) :
  a ≠ b → PyStr.replace_char a b (PyStr.replace_char a b s) = PyStr.replace_char a b s.
Proof.
  intros Hab. induction s as [|c s IH]; [done|]. simpl. rewrite IH. f_equal.
  destruct (Ascii.eqb_spec c a) as [->|Hc].
  - destruct (Ascii.eqb_spec b a) as [->|?]; done.
  - by rewrite (proj2 (Ascii.eqb_neq c a)).
Qed.

(** X1.  With an empty set of patterns [should_exclude] excludes no
    path, and a path that is excluded stays excluded when patterns are
    added. *)
Theorem should_exclude_monotone (self self' : FileHandler.t) (p : string) :
  (FileHandler.exclude_patterns self = ∅ →
   FileHandler.should_exclude self p = false) ∧
  (FileHandler.exclude_patterns self ⊆ FileHandler.exclude_patterns self' →
   FileHandler.should_exclude self p = true →
   FileHandler.should_exclude self' p = true).
Proof.
  unfold FileHandler.should_exclude, PyStr.any. split.
  - intros ->. apply not_true_iff_false. rewrite existsb_exists.
    intros (c & _ & Hc%bool_decide_eq_true). by apply not_elem_of_empty in Hc.
  - intros Hsub. rewrite !existsb_exists.
    intros (c & Hin & Hc%bool_decide_eq_true). exists c. split; [done|].
    apply bool_decide_eq_true. by apply Hsub.
Qed.

(** X2.  [should_exclude] gives the same answer for a path and for
    that path with every backslash written as a forward slash. *)
Theorem should_exclude_separators (self : FileHandler.t) (p : string) :
  FileHandler.should_exclude self (PyStr.replace_char "\" "/" p) =
  FileHandler.should_exclude self p.
Proof.
  unfold FileHandler.should_exclude. by rewrite replace_char_idem.
Qed.

(** X3.  [is_safe_path] leaves the exclusion patterns alone and only
    adds to [visited_paths].  After it was asked about [path], a path
    that resolves to a real path visited before, or to the real path of
    [path], is refused and the session stays as it is.  After
    [clear_visited_paths], [path] is accepted again when it resolves,
    and the session holds its real path alone. *)
Theorem is_safe_path_session (os : OS) (self : FileHandler.t) (path : string) :
  let self' := (FileHandler.is_safe_path os self path).2 in
  FileHandler.exclude_patterns self' = FileHandler.exclude_patterns self ∧
  FileHandler.visited_paths self ⊆ FileHandler.visited_paths self' ∧
  (∀ path2 r, realpath os path2 = Returns r →
     (r ∈ FileHandler.visited_paths self ∨ realpath os path = Returns r) →
     FileHandler.is_safe_path os self' path2 = (Returns false, self')) ∧
  (∀ r, realpath os path = Returns r →
     FileHandler.is_safe_path os (FileHandler.clear_visited_paths self') path =
       (Returns true,
        FileHandler.mk (FileHandler.exclude_patterns self) {[ r ]})).
Proof.
  unfold FileHandler.is_safe_path, FileHandler.is_safe_path_try.
  destruct (realpath os path) as [r0|c0 m0] eqn:Hreal; simpl.
  - case_bool_decide as Hin; simpl.
    + split; [done|]. split; [done|]. split.
      * intros path2 r -> [Hr|[= <-]]; by rewrite bool_decide_eq_true_2.
      * intros r [= <-]. rewrite bool_decide_eq_false_2 by apply not_elem_of_empty.
        by rewrite (right_id_L ∅ (∪)).
    + split; [done|]. split; [apply union_subseteq_r|]. split.
      * intros path2 r -> Hr. simpl. rewrite bool_decide_eq_true_2; [done|].
        destruct Hr as [Hr|[= <-]]; [by apply elem_of_union_r|].
        by apply elem_of_union_l, elem_of_singleton.
      * intros r [= <-]. rewrite bool_decide_eq_false_2 by apply not_elem_of_empty.
        by rewrite (right_id_L ∅ (∪)).
  - split; [done|]. split; [done|]. split; [|done].
    intros path2 r -> [Hr|?]; [|done]. by rewrite bool_decide_eq_true_2.
Qed.

(** ** More on [is_binary_file] and [count_tokens_in_file] *)

(** X4.  [count_tokens_in_file] returns 0 for a file whose bytes
    cannot be read.  When it raises, the exception is an [IOError]
    whose text is [Failed to count tokens in file '<path>': ] followed
    by the text of the error of the read or, when the file was read, of
    the error of the tokenizer; and the file was not taken for binary.
    A count above zero is the number of tokens of the decoded text of a
    file that was not taken for binary. *)
Theorem count_tokens_in_file_outcomes (os : OS) (filepath : string) :
  (∀ c msg, read_bytes os filepath = Raises c msg →
     TokenCounter.count_tokens_in_file os filepath = Returns 0%nat) ∧
  (∀ c msg, TokenCounter.count_tokens_in_file os filepath = Raises c msg →
     c = OSError ∧ TokenCounter.is_binary_file os filepath = false ∧
     ∃ c' msg',
       msg = "Failed to count tokens in file '" +:+ filepath +:+ "': " +:+ msg' ∧
       (read_text os filepath = Raises c' msg' ∨
        ∃ content, read_text os filepath = Returns content ∧
                   count_tokens os content = Raises c' msg')) ∧
  (∀ n, TokenCounter.count_tokens_in_file os filepath = Returns (S n) →
     TokenCounter.is_binary_file os filepath = false ∧
     ∃ content, read_text os filepath = Returns content ∧
                count_tokens os content = Returns (S n)).
Proof.
  unfold TokenCounter.count_tokens_in_file. split; [|split].
  - intros c msg H. by rewrite (is_binary_file_unreadable os filepath c msg H).
  - intros c msg. destruct (TokenCounter.is_binary_file os filepath); [done|].
    destruct (read_text os filepath) as [content|c' msg'].
    + destruct (count_tokens os content) as [tokens|c' msg'] eqn:Hcount;
        [done|].
      intros [= <- <-]. split; [done|]. split; [done|].
      exists c', msg'. split; [done|]. right. by exists content.
    + intros [= <- <-]. split; [done|]. split; [done|].
      exists c', msg'. split; [done|]. by left.
  - intros n. destruct (TokenCounter.is_binary_file os filepath); [done|].
    destruct (read_text os filepath) as [content|c' msg']; [|done].
    destruct (count_tokens os content) as [tokens|c' msg'] eqn:Hcount;
      [|done].
    intros [= ->]. split; [done|]. by exists content.
Qed.

(** ** The directory tree never loses a line *)

Lemma add_directory_to_tree_appends (depth : nat) (os : OS) (root_dir : string)
    (exclude_patterns : option (gset string)) (dir_path prefix : string)
    (tree_lines : list string) :
  ∃ extra,
    (MarkdownGenerator.add_directory_to_tree depth os root_dir exclude_patterns
       dir_path prefix tree_lines).2 = tree_lines ++ extra.
Proof.
  revert dir_path prefix tree_lines.
  induction depth as [|depth IH]; intros dir_path prefix tree_lines; simpl.
  { exists []. by rewrite app_nil_r. }
  destruct (scandir os dir_path) as [raw|c msg]; simpl.
  2:{ exists []. by rewrite app_nil_r. }
  generalize (length (sorted_by MarkdownGenerator.entry_key_le raw) - 1)%nat.
  intros last. generalize 0%nat. revert tree_lines.
  induction (sorted_by MarkdownGenerator.entry_key_le raw) as [|[name d] es IHes];
    intros tree_lines i.
  { exists []. by rewrite app_nil_r. }
  cbn [fst snd]. 
  destruct (relpath os (path_join os dir_path name) root_dir) as [rel|c msg].
  2:{ exists []. by rewrite app_nil_r. }
  destruct (MarkdownGenerator.tree_skips exclude_patterns rel); [apply IHes|].
  destruct d.
  - match goal with
    | |- context [MarkdownGenerator.add_directory_to_tree depth os root_dir
                    exclude_patterns ?p ?pre ?tl] =>
        destruct (IH p pre tl) as [extra Hextra];
        destruct (MarkdownGenerator.add_directory_to_tree depth os root_dir
                    exclude_patterns p pre tl) as [[[]|c msg] tl'] eqn:Hrec
    end; simpl in Hextra; subst tl'.
    + edestruct IHes as [extra' ->]. rewrite <- !app_assoc. by eexists.
    + destruct c; edestruct IHes as [extra' ->]; rewrite <- !app_assoc;
        by eexists.
  - edestruct IHes as [extra' ->]. rewrite <- !app_assoc. by eexists.
Qed.

(** X5.  The lines of [generate_directory_tree] always begin with the
    heading, the opening fence and the line of the root, and end with
    the closing fence, also when listing a directory fails.  The name
    on the root line is the base name of the root, or that of its
    parent, or the root as given.  For a root that lists nothing there
    is no line in between; when the root cannot be listed the only line
    in between reports the error. *)
Theorem directory_tree_fenced (depth : nat) (os : OS) (root_dir : string)
    (exclude_patterns : option (gset string)) :
  ∃ name body,
    MarkdownGenerator.directory_tree_lines depth os root_dir exclude_patterns =
      [ "# Repository Structure" +:+ nl; "```"; "📦 " +:+ name ] ++ body ++
      [ "```" +:+ nl ] ∧
    (name = basename os root_dir ∨
     name = basename os (dirname os root_dir) ∨ name = root_dir) ∧
    (scandir os root_dir = Returns [] → (0 < depth)%nat → body = []) ∧
    (∀ c msg, scandir os root_dir = Raises c msg → (0 < depth)%nat →
       body = [ "⚠️ Error generating complete tree: " +:+ msg ]).
Proof.
  unfold MarkdownGenerator.directory_tree_lines.
  set (name := MarkdownGenerator.str_or _ _).
  exists name.
  destruct (add_directory_to_tree_appends depth os root_dir exclude_patterns
              root_dir "" ["# Repository Structure" +:+ nl; "```"; "📦 " +:+ name])
    as [extra Hextra].
  destruct (MarkdownGenerator.add_directory_to_tree depth os root_dir
              exclude_patterns root_dir ""
              ["# Repository Structure" +:+ nl; "```"; "📦 " +:+ name])
    as [[[]|c msg] tl] eqn:Hrun; simpl in Hextra; subst tl.
  - exists extra. split; [by rewrite <- ?app_assoc|]. split.
    { subst name. unfold MarkdownGenerator.str_or.
      repeat case_match; auto. }
    split.
    + intros Hs Hd. destruct depth; [lia|]. simpl in Hrun.
      rewrite Hs in Hrun. simpl in Hrun. by injection Hrun as <-.
    + intros c msg Hs Hd. destruct depth; [lia|]. simpl in Hrun.
      by rewrite Hs in Hrun.
  - exists (extra ++ ["⚠️ Error generating complete tree: " +:+ msg]).
    split; [by rewrite <- ?app_assoc|]. split.
    { subst name. unfold MarkdownGenerator.str_or.
      repeat case_match; auto. }
    split.
    + intros Hs Hd. destruct depth; [lia|]. simpl in Hrun.
      by rewrite Hs in Hrun.
    + intros c' msg' Hs Hd. destruct depth; [lia|]. simpl in Hrun.
      rewrite Hs in Hrun. simpl in Hrun. by injection Hrun as <- <- <-.
Qed.

(** ** The digest *)

Lemma write_files_returns (os : OS) (common_prefix : string)
    (paths : list string) (buffer : string) :
  (∀ p, p ∈ paths → isdir os p = false →
        ∃ rel, relpath os p common_prefix = Returns rel) →
  ∃ out, MarkdownGenerator.write_files os common_prefix paths buffer = Returns out.
Proof.
  revert buffer. induction paths as [|p paths IH]; intros buffer Hrel; simpl.
  { by eexists. }
  unfold MarkdownGenerator.file_section.
  destruct (isdir os p) eqn:Hdir.
  { apply IH. intros q Hq. apply Hrel. by right. }
  destruct (Hrel p) as [rel ->]; [by left|done|].
  destruct (read_text os p); apply IH; intros q Hq; apply Hrel; by right.
Qed.

Lemma write_files_raises (os : OS) (common_prefix : string)
    (paths : list string) (buffer p : string) c msg :
  p ∈ paths → isdir os p = false →
  relpath os p common_prefix = Raises c msg →
  ∃ c' msg' q,
    MarkdownGenerator.write_files os common_prefix paths buffer = Raises c' msg' ∧
    q ∈ paths ∧ relpath os q common_prefix = Raises c' msg'.
Proof.
  intros Hin Hdir Hrel. revert buffer.
  induction paths as [|q l IH]; intros b.
  { by apply elem_of_nil in Hin. }
  simpl. unfold MarkdownGenerator.file_section at 1.
  destruct (isdir os q) eqn:Hq.
  { destruct (IH) with (buffer := b) as (c2 & m2 & q' & Hw & Hq' & Hraise).
    { apply elem_of_cons in Hin as [->|?]; [congruence|done]. }
    exists c2, m2, q'. split; [done|]. split; [by right|done]. }
  destruct (relpath os q common_prefix) as [rel|c' msg'] eqn:Hrq.
  - apply elem_of_cons in Hin as [->|Hin]; [congruence|].
    destruct (read_text os q);
      (edestruct (IH Hin) as (c2 & m2 & q' & Hw & Hq' & Hraise));
      exists c2, m2, q'; (split; [exact Hw|]); (split; [by right|done]).
  - exists c', msg', q. split; [done|]. split; [by left|done].
Qed.

(** X6.  [generate_markdown_to_string] on a non-empty selection: when
    [os.path.commonpath] raises, the result is [False] with
    [Failed to generate markdown: ] and the text of the error.  When
    the common path exists and [os.path.relpath] answers for every
    selected path that is no directory, the result is [True] with a
    document, whatever the reads of the files do.  When [relpath]
    raises for a selected path that is no directory, the result is a
    failure with the text of the error of [relpath] for one of the
    selected paths. *)
Theorem generate_markdown_to_string_outcomes (depth : nat) (os : OS)
    (exclude_patterns : option (gset string)) (paths : list string) :
  (∀ c msg, paths ≠ [] →
     commonpath os (map (dirname os) paths) = Raises c msg →
     MarkdownGenerator.generate_markdown_to_string depth os exclude_patterns paths =
       (false, "Failed to generate markdown: " +:+ msg)) ∧
  (∀ common_prefix,
     commonpath os (map (dirname os) paths) = Returns common_prefix →
     (∀ p, p ∈ paths → isdir os p = false →
           ∃ rel, relpath os p common_prefix = Returns rel) →
     ∃ doc, MarkdownGenerator.generate_markdown_to_string depth os
              exclude_patterns paths = (true, doc)) ∧
  (∀ common_prefix p c msg,
     commonpath os (map (dirname os) paths) = Returns common_prefix →
     p ∈ paths → isdir os p = false →
     relpath os p common_prefix = Raises c msg →
     ∃ c' msg',
       MarkdownGenerator.generate_markdown_to_string depth os exclude_patterns paths =
         (false, "Failed to generate markdown: " +:+ msg') ∧
       ∃ q, q ∈ paths ∧ relpath os q common_prefix = Raises c' msg').
Proof.
  unfold MarkdownGenerator.generate_markdown_to_string,
    MarkdownGenerator.generate_markdown_to_string_try.
  split; [|split].
  - intros c msg Hne ->. by destruct paths.
  - intros cp -> Hrel. destruct paths as [|p0 paths]; [by eexists|].
    simpl PyStr.truthy. cbv iota.
    match goal with
    | |- context [MarkdownGenerator.write_files os cp ?l ?b] =>
        destruct (write_files_returns os cp l b Hrel) as [out ->]
    end.
    by eexists.
  - intros cp p c msg -> Hin Hdir Hrel.
    destruct paths as [|p0 paths]; [by apply elem_of_nil in Hin|].
    simpl PyStr.truthy. cbv iota.
    match goal with
    | |- context [MarkdownGenerator.write_files os cp ?l ?b] =>
        destruct (write_files_raises os cp l b p c msg Hin Hdir Hrel)
          as (c' & msg' & q & -> & Hq & Hraise)
    end.
    exists c', msg'. split; [done|]. by exists q.
Qed.

(** The two loops write the same text when every file reads. *)
Lemma write_files_agree (os : OS) (common_prefix : string)
    (paths : list string) (buffer out : string) :
  (∀ p, p ∈ paths → isdir os p = false → ∃ content, read_text os p = Returns content) →
  MarkdownGenerator.write_files os common_prefix paths buffer = Returns out →
  MarkdownFile.write_sections os common_prefix paths buffer = (Returns tt, out).
Proof.
  revert buffer. induction paths as [|p paths IH]; intros buffer Hread; simpl.
  { by intros [= <-]. }
  unfold MarkdownGenerator.file_section, MarkdownFile.written_section.
  destruct (isdir os p) eqn:Hdir.
  { apply IH. intros q Hq. apply Hread. by right. }
  destruct (relpath os p common_prefix) as [rel|c msg]; [|done].
  destruct (Hread p) as [content ->]; [by left|done|].
  apply IH. intros q Hq. apply Hread. by right.
Qed.

(** X7.  [generate_markdown] fails with [Failed to generate markdown: ]
    and writes nothing when the output file cannot be opened.  When it
    can be opened and every selected file that is no directory can be
    read, the file it writes is the document that
    [generate_markdown_to_string] returns for the same selection, and
    the result is [True] with [Markdown file generated successfully!]. *)
Theorem generate_markdown_agrees (depth : nat) (os : OS)
    (open_w : string → outcome unit)
    (exclude_patterns : option (gset string)) (paths : list string)
    (output_path : string) :
  (∀ c msg, open_w output_path = Raises c msg →
     ∃ msg', MarkdownFile.generate_markdown depth os open_w exclude_patterns
               paths output_path =
             ((false, "Failed to generate markdown: " +:+ msg'), None)) ∧
  (∀ doc,
     open_w output_path = Returns tt →
     (∀ p, p ∈ paths → isdir os p = false →
           ∃ content, read_text os p = Returns content) →
     MarkdownGenerator.generate_markdown_to_string depth os exclude_patterns paths =
       (true, doc) →
     MarkdownFile.generate_markdown depth os open_w exclude_patterns paths
       output_path =
       ((true, "Markdown file generated successfully!"), Some doc)).
Proof.
  unfold MarkdownFile.generate_markdown,
    MarkdownGenerator.generate_markdown_to_string,
    MarkdownGenerator.generate_markdown_to_string_try.
  split.
  - intros c msg ->.
    destruct (if PyStr.truthy paths then _ else _) as [[cp root]|c' msg'];
      by eexists.
  - intros doc -> Hread.
    destruct (if PyStr.truthy paths then _ else _) as [[cp root]|c' msg'];
      [|done].
    destruct (MarkdownGenerator.write_files _ _ _ _) as [out|c' msg'] eqn:Hw;
      [|done].
    intros [= <-]. by rewrite (write_files_agree _ _ _ _ _ Hread Hw).
Qed.

(** The loop that looks for [.git] stops at the first directory, going
    up from where it starts, that has one. *)
Lemma find_repo_root_nearest (n : nat) (os : OS) (start : string) :
  ∃ k, MarkdownGenerator.find_repo_root n os start =
         Nat.iter k (dirname os) start ∧
       ∀ j, (j < k)%nat →
         path_exists os (path_join os (Nat.iter j (dirname os) start) ".git")
           = false.
Proof.
  revert start. induction n as [|n IH]; intros start; simpl.
  { exists 0%nat. split; [done|]. lia. }
  destruct (PyStr.nonempty start && _) eqn:Hgo.
  2:{ exists 0%nat. split; [done|]. lia. }
  apply andb_true_iff in Hgo as [_ Hgit%negb_true_iff].
  destruct (String.eqb (dirname os start) start).
  { exists 0%nat. split; [done|]. lia. }
  destruct (IH (dirname os start)) as (k & Hk & Hbelow).
  exists (S k). split.
  - rewrite Hk. clear. induction k as [|k IHk]; [done|]. simpl. by rewrite IHk.
  - intros [|j] Hj; [done|].
    replace (Nat.iter (S j) (dirname os) start)
      with (Nat.iter j (dirname os) (dirname os start)).
    + apply Hbelow. lia.
    + clear. induction j as [|j IHj]; [done|]. simpl. by rewrite IHj.
Qed.

(** X8.  For a non-empty selection whose common directory is
    [common_prefix], the document is what the loop over the selected
    paths appends to the tree of a directory [root] (to nothing when
    [root] is the empty string), and [root] is [common_prefix] itself
    or the nearest directory, going up from [common_prefix] with
    [dirname], that holds a [.git] entry. *)
Theorem digest_tree_root (depth : nat) (os : OS)
    (exclude_patterns : option (gset string)) (paths : list string)
    (common_prefix : string) :
  paths ≠ [] →
  commonpath os (map (dirname os) paths) = Returns common_prefix →
  ∃ root,
    MarkdownGenerator.generate_markdown_to_string_try depth os exclude_patterns
      paths =
      MarkdownGenerator.write_files os common_prefix paths
        (if PyStr.nonempty root then
           "" +:+ MarkdownGenerator.generate_directory_tree depth os root
                    exclude_patterns
              +:+ (nl +:+ nl +:+ "# Selected Files" +:+ nl +:+ nl)
         else "") ∧
    (root = common_prefix ∨
     path_exists os (path_join os root ".git") = true ∧
     ∃ k, root = Nat.iter k (dirname os) common_prefix ∧
          ∀ j, (j < k)%nat →
            path_exists os
              (path_join os (Nat.iter j (dirname os) common_prefix) ".git")
              = false).
Proof.
  intros Hne Hcp. unfold MarkdownGenerator.generate_markdown_to_string_try.
  destruct paths as [|p0 paths]; [done|]. simpl PyStr.truthy. cbv iota.
  rewrite Hcp.
  destruct (find_repo_root_nearest (S (String.length common_prefix)) os
              common_prefix) as (k & Hk & Hbelow).
  destruct (path_exists os (path_join os
              (MarkdownGenerator.find_repo_root (S (String.length common_prefix))
                 os common_prefix) ".git")) eqn:Hgit; simpl negb; cbv iota.
  - eexists. split; [reflexivity|]. right. split; [done|]. exists k. by split.
  - eexists. split; [reflexivity|]. by left.
Qed.

(** The selection [/repo/src/main.py]: its common directory is
    [/repo/src]. *)
Lemma digest_tree_root_witness :
  ∃ root,
    MarkdownGenerator.generate_markdown_to_string_try 5 (Toy.os Toy.repo) None
      ["/repo/src/main.py"] =
      MarkdownGenerator.write_files (Toy.os Toy.repo) "/repo/src"
        ["/repo/src/main.py"]
        (if PyStr.nonempty root then
           "" +:+ MarkdownGenerator.generate_directory_tree 5 (Toy.os Toy.repo)
                    root None
              +:+ (nl +:+ nl +:+ "# Selected Files" +:+ nl +:+ nl)
         else "") ∧
    (root = "/repo/src" ∨
     path_exists (Toy.os Toy.repo) (path_join (Toy.os Toy.repo) root ".git")
       = true ∧
     ∃ k, root = Nat.iter k (dirname (Toy.os Toy.repo)) "/repo/src" ∧
          ∀ j, (j < k)%nat →
            path_exists (Toy.os Toy.repo)
              (path_join (Toy.os Toy.repo)
                 (Nat.iter j (dirname (Toy.os Toy.repo)) "/repo/src") ".git")
              = false).
Proof.
  apply (digest_tree_root 5 (Toy.os Toy.repo) None ["/repo/src/main.py"]
           "/repo/src").
  - discriminate.
  - vm_compute. reflexivity.
Defined.

(** ** What the methods of the interface leave as it is *)

(** A property of the state that the elementary updates keep is kept
    by the methods built from them.  Each lemma asks only for the
    updates its method makes. *)
Section Stable.
Variable I : app → Prop.

Hypothesis I_tree : ∀ st tv, I st → I (set_tree (λ _, tv) st).
Hypothesis I_safe :
  ∀ os p st,
    I st →
    I (set_file_handler
         (λ _, (FileHandler.is_safe_path os (file_handler st) p).2) st).
Hypothesis I_check :
  ∀ item st, I st → I (set_checked_items (λ c, {[ item ]} ∪ c) st).
Hypothesis I_uncheck :
  ∀ item st, I st → I (set_checked_items (λ c, c ∖ {[ item ]}) st).
Hypothesis I_clear : ∀ st, I st → I (set_checked_items (λ _, ∅) st).
Hypothesis I_recount :
  ∀ st, I st →
    I (set_checked_items
         (filter (λ i, is_Some (Tk.items (tree st) !! i))) st).
Hypothesis I_spawn :
  ∀ w st, I st →
    I (set_polls_scheduled S (set_active_threads (λ ts, ts ++ [w]) st)).
Hypothesis I_pending : ∀ p st, I st → I (set_pending_calculations p st).
Hypothesis I_results : ∀ r st, I st → I (set_calculation_results r st).
Hypothesis I_cancel_false : ∀ st, I st → I (set_cancel_operation false st).
Hypothesis I_clear_visited :
  ∀ st, I st → I (set_file_handler FileHandler.clear_visited_paths st).
Hypothesis I_queue : ∀ q st, I st → I (set_token_queue (λ _, q) st).
Hypothesis I_memo :
  ∀ d st, I st → I (set_calculated_directories (λ c, {[ d ]} ∪ c) st).
Hypothesis I_polls : ∀ f st, I st → I (set_polls_scheduled f st).
Hypothesis I_enabled : ∀ b st, I st → I (set_exclude_enabled b st).
Hypothesis I_handler : ∀ fh st, I st → I (set_file_handler (λ _, fh) st).
Hypothesis I_dir : ∀ d st, I st → I (set_dir_entry d st).

Lemma stable_on_tree {A} (f : Tk.treeview → outcome A * Tk.treeview) :
  keeps I (on_tree f).
Proof.
  intros st H. unfold on_tree.
  destruct (f (tree st)) as [[a|c e] tv]; by apply I_tree.
Qed.

Lemma stable_is_safe_path (os : OS) (p : string) : keeps I (is_safe_path os p).
Proof.
  intros st H. unfold is_safe_path.
  pose proof (I_safe os p st H) as H'.
  destruct (FileHandler.is_safe_path os (file_handler st) p) as [[a|c e] fh];
    exact H'.
Qed.

Lemma stable_update_total_tokens : keeps I update_total_tokens.
Proof. apply keeps_modify. intros st. apply I_recount. Qed.

Lemma stable_calculate_tokens_for_directory (os : OS) (d : string) :
  keeps I (calculate_tokens_for_directory os d).
Proof. intros st H. by apply I_spawn. Qed.

Lemma stable_cleanup_calculation_ui : keeps I cleanup_calculation_ui.
Proof. apply keeps_modify. intros st. apply I_cancel_false. Qed.

Ltac stable_step :=
  lazymatch goal with
  | |- keeps _ (ret _) => apply keeps_ret
  | |- keeps _ (raise _ _) => apply keeps_raise
  | |- keeps _ (gets _) => apply keeps_gets
  | |- keeps _ (lift _) => apply keeps_lift
  | |- keeps _ (tree_item _) => apply keeps_tree_item
  | |- keeps _ (tree_get_children _) => apply keeps_tree_get_children
  | |- keeps _ (tree_insert _ _ _ _ _) => apply stable_on_tree
  | |- keeps _ (tree_delete _) => apply stable_on_tree
  | |- keeps _ (tree_set_text _ _) => apply stable_on_tree
  | |- keeps _ (tree_set_open _ _) => apply stable_on_tree
  | |- keeps _ (tree_set_values _ _) => apply stable_on_tree
  | |- keeps _ (is_safe_path _ _) => apply stable_is_safe_path
  | |- keeps _ update_total_tokens => apply stable_update_total_tokens
  | |- keeps _ cleanup_calculation_ui => apply stable_cleanup_calculation_ui
  | |- keeps _ (calculate_tokens_for_directory _ _) =>
      apply stable_calculate_tokens_for_directory
  | |- keeps _ (modify _) =>
      apply keeps_modify; intros ? ?;
      first [ by apply I_check | by apply I_uncheck | by apply I_clear
            | by apply I_pending | by apply I_results
            | by apply I_cancel_false | by apply I_clear_visited
            | by apply I_queue | by apply I_memo | by apply I_polls
            | by apply I_enabled | by apply I_handler | by apply I_dir ]
  | |- keeps _ (when _ _) => apply keeps_when
  | |- keeps _ (for_each _ _) => apply keeps_for_each; intros ?
  | |- keeps _ (try_except _ _ _) => apply keeps_try_except; [|intros ?]
  | |- keeps _ (if ?b then _ else _) => destruct b
  | |- keeps _ ((if ?b then _ else _) ≫= _) => destruct b
  | |- keeps _ (match ?x with _ => _ end) => destruct x
  | |- keeps _ ((match ?x with _ => _ end) ≫= _) => destruct x
  | |- keeps _ (_ ≫= _) => apply keeps_bind; [|intros ?]
  | |- keeps _ _ => solve [eauto]
  end.

Lemma stable_populate_folder (os : OS) parent path item :
  keeps I (populate_folder os parent path item).
Proof. unfold populate_folder. repeat stable_step. Qed.

Lemma stable_populate_file (os : OS) parent path exts item :
  keeps I (populate_file os parent path exts item).
Proof. unfold populate_file. repeat stable_step. Qed.

Lemma stable_populate_tree (os : OS) parent path exts :
  keeps I (populate_tree os parent path exts).
Proof.
  pose proof stable_populate_folder. pose proof stable_populate_file.
  unfold populate_tree. repeat stable_step.
Qed.

Lemma stable_materialize (os : OS) item : keeps I (materialize os item).
Proof.
  pose proof stable_populate_tree.
  unfold materialize. repeat stable_step.
Qed.

Lemma stable_check_item_and_children (depth : nat) (os : OS) item skip :
  keeps I (check_item_and_children depth os item skip).
Proof.
  pose proof stable_materialize.
  revert item. induction depth as [|depth IH]; intros item; simpl.
  { apply keeps_raise. }
  repeat stable_step.
Qed.

(** With [skip_calculation=True] no thread is started. *)
Lemma stable_check_item_skipping (depth : nat) (os : OS) item :
  keeps I (check_item_and_children depth os item true).
Proof.
  pose proof stable_materialize.
  revert item. induction depth as [|depth IH]; intros item; simpl.
  { apply keeps_raise. }
  change (negb true) with false. simpl andb. repeat stable_step.
Qed.

Lemma stable_uncheck_item_and_children (depth : nat) item :
  keeps I (uncheck_item_and_children depth item).
Proof.
  revert item. induction depth as [|depth IH]; intros item; simpl.
  { apply keeps_raise. }
  repeat stable_step.
Qed.

Lemma stable_handle_click (depth : nat) (os : OS) item :
  keeps I (handle_click depth os item).
Proof.
  pose proof stable_materialize.
  pose proof stable_check_item_skipping.
  pose proof stable_uncheck_item_and_children.
  unfold handle_click. repeat stable_step.
Qed.

Lemma stable_on_folder_open (os : OS) item : keeps I (on_folder_open os item).
Proof.
  pose proof stable_materialize. unfold on_folder_open. repeat stable_step.
Qed.

Lemma stable_on_folder_close (depth : nat) item :
  keeps I (on_folder_close depth item).
Proof.
  pose proof stable_uncheck_item_and_children.
  unfold on_folder_close. repeat stable_step.
Qed.

Lemma stable_collapse_and_deselect (depth : nat) item :
  keeps I (collapse_and_deselect_folder_recursive depth item).
Proof.
  revert item. induction depth as [|depth IH]; intros item; simpl.
  { apply keeps_raise. }
  repeat stable_step.
Qed.

Lemma stable_collapse_all_folders (depth : nat) :
  keeps I (collapse_all_folders depth).
Proof.
  pose proof stable_collapse_and_deselect.
  unfold collapse_all_folders. repeat stable_step.
Qed.

Lemma stable_expand_and_select_children (depth : nat) (os : OS) item acc :
  keeps I (expand_and_select_children depth os item acc).
Proof.
  revert item acc. induction depth as [|depth IH]; intros item acc; simpl.
  { apply keeps_raise. }
  apply keeps_bind; [apply keeps_tree_item|intros it].
  destruct (Tk.has_tag Tk.Excluded it); [apply keeps_ret|].
  apply keeps_bind; [apply stable_check_item_skipping|intros ?].
  destruct (Tk.has_tag Tk.Folder it); [|apply keeps_ret].
  apply keeps_bind; [apply stable_on_tree|intros ?].
  apply keeps_bind; [apply stable_materialize|intros ?].
  apply keeps_bind; [apply keeps_gets|intros ?].
  apply keeps_bind; [apply keeps_tree_get_children|intros children].
  match goal with |- keeps _ (_ children ?a) => generalize a end.
  induction children as [|c cs IHcs]; intros acc'; [apply keeps_ret|].
  apply keeps_bind; [apply IH|intros acc'']. apply IHcs.
Qed.

Lemma stable_refresh_files (os : OS) : keeps I (refresh_files os).
Proof.
  pose proof stable_populate_tree.
  unfold refresh_files. repeat stable_step.
Qed.

Lemma stable_update_item_tokens (item_path : string) (tokens : nat) :
  keeps I (update_item_tokens item_path tokens).
Proof.
  unfold update_item_tokens.
  apply keeps_bind; [apply keeps_tree_get_children|intros ids].
  induction ids as [|i ids IH]; simpl; [apply keeps_ret|].
  apply keeps_bind; [apply keeps_tree_item|intros it].
  destruct (Tk.values it) as [|v0 vs]; [apply keeps_raise|].
  case_bool_decide; [|apply IH].
  destruct vs; [apply keeps_raise|apply stable_on_tree].
Qed.

Lemma stable_process_message (m : msg) : keeps I (process_message m).
Proof.
  pose proof stable_update_item_tokens.
  destruct m; simpl; repeat stable_step.
Qed.

Lemma stable_poll : keeps I poll.
Proof.
  pose proof stable_process_message.
  unfold poll. apply keeps_bind; [apply keeps_gets|intros [|n]];
    [apply keeps_ret|].
  apply keeps_bind; [stable_step|intros ?].
  unfold check_token_queue. apply keeps_try_except; [|intros ?; stable_step].
  apply keeps_bind; [apply keeps_gets|intros q].
  induction q as [|m q IH]; simpl; repeat stable_step.
Qed.

Lemma stable_expand_all_folders (depth : nat) (os : OS) :
  keeps I (expand_all_folders depth os).
Proof.
  unfold expand_all_folders.
  apply keeps_bind; [apply keeps_gets|intros dir]. apply keeps_when.
  do 4 (apply keeps_bind; [stable_step|intros ?]).
  apply keeps_bind; [apply keeps_tree_get_children|intros top].
  apply keeps_bind.
  { generalize (@nil string). induction top as [|c cs IHcs]; intros acc.
    - apply keeps_ret.
    - apply keeps_bind; [apply stable_expand_and_select_children|intros acc'].
      apply IHcs. }
  intros folders. destruct (PyStr.truthy folders);
    [|apply stable_update_total_tokens].
  apply keeps_bind; [stable_step|intros ?].
  induction folders as [|f fs IHfs].
  - apply keeps_ret.
  - apply keeps_bind; [apply keeps_gets|intros cancel].
    destruct (negb cancel); [|apply keeps_ret].
    apply keeps_bind; [apply stable_calculate_tokens_for_directory|intros ?].
    apply IHfs.
Qed.

Lemma stable_toggle_exclude (os : OS) (enabled : bool) :
  keeps I (toggle_exclude os enabled).
Proof.
  pose proof stable_refresh_files.
  unfold toggle_exclude. repeat stable_step.
Qed.

Lemma stable_browse_directory (os : OS) (directory : string) :
  keeps I (browse_directory os directory).
Proof.
  pose proof stable_refresh_files.
  unfold browse_directory. repeat stable_step.
Qed.

Lemma stable_calculate_directory_tokens (os : OS) (d : string) :
  keeps I (calculate_directory_tokens os d).
Proof. unfold calculate_directory_tokens. repeat stable_step. Qed.

(** The methods that neither take a setting from the user nor raise the
    cancellation flag. *)
Lemma stable_handler (depth : nat) (os : OS) (e : event) :
  match e with
  | Browse _ | ToggleExclude _ | TypeDirectory _ | TypeFilter _
  | TypeExclude _ | CancelButton | Thread _ => False
  | _ => True
  end →
  keeps I (handler depth os e).
Proof.
  destruct e; try done; intros _; simpl.
  - apply stable_handle_click.
  - apply stable_check_item_and_children.
  - apply stable_uncheck_item_and_children.
  - apply stable_expand_all_folders.
  - apply stable_collapse_all_folders.
  - apply stable_on_folder_open.
  - apply stable_on_folder_close.
  - apply stable_refresh_files.
  - apply stable_calculate_directory_tokens.
  - apply stable_poll.
Qed.

End Stable.

(** ** Checking and unchecking *)

Lemma tree_item_run (st : app) (item : Tk.iid) (it : Tk.item) :
  Tk.items (tree st) !! item = Some it → tree_item item st = (Returns it, st).
Proof.
  intros H. unfold tree_item, mbind, M_bind, bind, gets, lift, Tk.item_of.
  by rewrite H.
Qed.

Lemma tree_set_text_run (st : app) (item : Tk.iid) (it : Tk.item) (txt : string) :
  Tk.items (tree st) !! item = Some it →
  tree_set_text item txt st =
    (Returns tt,
     set_tree (λ _, Tk.mk_tree
                      (<[ item := Tk.mk_item txt (Tk.values it) (Tk.tags it)
                                    (Tk.is_open it) (Tk.children it) ]>
                         (Tk.items (tree st)))
                      (Tk.serial (tree st))) st).
Proof.
  intros H. unfold tree_set_text, on_tree, Tk.set_text. by rewrite H.
Qed.

Lemma has_tag_false (t : Tk.tag) (it : Tk.item) :
  t ∉ Tk.tags it → Tk.has_tag t it = false.
Proof. intros H. unfold Tk.has_tag. by apply bool_decide_eq_false. Qed.

(** X9.  [check_item_and_children] never removes an item from
    [checked_items], however it ends; and an item that exists and is
    not marked excluded is in [checked_items] afterwards. *)
Theorem check_item_and_children_checks (depth : nat) (os : OS)
    (item : Tk.iid) (skip : bool) (st : app) :
  let st' := (check_item_and_children depth os item skip st).2 in
  checked_items st ⊆ checked_items st' ∧
  (∀ it, (0 < depth)%nat →
         Tk.items (tree st) !! item = Some it → Tk.Excluded ∉ Tk.tags it →
         item ∈ checked_items st').
Proof.
  assert (∀ C d i, keeps (λ s, C ⊆ checked_items s)
                     (check_item_and_children d os i skip)) as Hkeeps.
  { intros C d i. apply stable_check_item_and_children; simpl; try done.
    intros ? s Hs. set_solver. }
  split.
  - by apply (keeps_final _ _ _ (Hkeeps (checked_items st) depth item)).
  - intros it Hd Hit Hx. destruct depth as [|depth]; [lia|]. simpl.
    rewrite (bind_run _ _ _ _ _ (tree_item_run st item it Hit)).
    rewrite (has_tag_false _ _ Hx).
    rewrite (bind_run _ _ _ _ _ (tree_set_text_run st item it _ Hit)).
    match goal with
    | |- context [(modify ?f ≫= ?k) ?s] =>
        change ((modify f ≫= k) s) with (k tt (f s))
    end.
    match goal with
    | |- _ ∈ checked_items (?m ?s).2 =>
        cut (keeps (λ s', {[ item ]} ⊆ checked_items s') m);
        [ intros Hrest;
          pose proof (keeps_final _ m s Hrest) as Hsub; simpl in Hsub;
          set_solver |]
    end.
    pose proof (stable_materialize (λ s', {[ item ]} ⊆ checked_items s')) as Hm.
    apply keeps_bind; [apply keeps_tree_item|intros it'].
    apply keeps_bind.
    { apply keeps_when.
      apply keeps_bind; [by apply stable_on_tree|intros ?].
      apply keeps_bind; [by apply Hm|intros ?].
      apply keeps_bind; [apply keeps_gets|intros ?].
      apply keeps_when. by apply stable_calculate_tokens_for_directory. }
    intros ?. apply keeps_bind; [apply keeps_tree_get_children|intros cs].
    apply keeps_for_each. intros c. apply Hkeeps.
Qed.

(** X10.  [uncheck_item_and_children] never adds an item to
    [checked_items], however it ends; and an item that exists and is
    not marked excluded is not in [checked_items] afterwards. *)
Theorem uncheck_item_and_children_unchecks (depth : nat) (item : Tk.iid)
    (st : app) :
  let st' := (uncheck_item_and_children depth item st).2 in
  checked_items st' ⊆ checked_items st ∧
  (∀ it, (0 < depth)%nat →
         Tk.items (tree st) !! item = Some it → Tk.Excluded ∉ Tk.tags it →
         item ∉ checked_items st').
Proof.
  assert (∀ C d i, keeps (λ s, checked_items s ⊆ C)
                     (uncheck_item_and_children d i)) as Hkeeps.
  { intros C d i. apply stable_uncheck_item_and_children; simpl; try done.
    intros ? s Hs. set_solver. }
  split.
  - by apply (keeps_final _ _ _ (Hkeeps (checked_items st) depth item)).
  - intros it Hd Hit Hx. destruct depth as [|depth]; [lia|]. simpl.
    rewrite (bind_run _ _ _ _ _ (tree_item_run st item it Hit)).
    rewrite (has_tag_false _ _ Hx).
    rewrite (bind_run _ _ _ _ _ (tree_set_text_run st item it _ Hit)).
    match goal with
    | |- context [(modify ?f ≫= ?k) ?s] =>
        change ((modify f ≫= k) s) with (k tt (f s))
    end.
    match goal with
    | |- _ ∉ checked_items (?m ?s).2 =>
        cut (keeps (λ s', checked_items s' ⊆ checked_items st ∖ {[ item ]}) m);
        [ intros Hrest;
          pose proof (keeps_final _ m s Hrest) as Hsub; simpl in Hsub;
          set_solver |]
    end.
    apply keeps_bind; [apply keeps_tree_get_children|intros cs].
    apply keeps_for_each. intros c. apply Hkeeps.
Qed.

(** X11.  With an empty directory field [collapse_all_folders] does
    nothing; otherwise [checked_items] is empty afterwards, however
    the method ends. *)
Theorem collapse_all_folders_deselects (depth : nat) (st : app) :
  (dir_entry st = "" → collapse_all_folders depth st = (Returns tt, st)) ∧
  (dir_entry st ≠ "" →
   checked_items (collapse_all_folders depth st).2 = ∅).
Proof.
  unfold collapse_all_folders. split.
  - intros Hdir. unfold mbind, M_bind, bind, gets. by rewrite Hdir.
  - intros Hdir. unfold mbind at 1, M_bind at 1, bind at 1, gets at 1.
    destruct (dir_entry st) as [|a d] eqn:E; [done|]. simpl PyStr.nonempty.
    unfold when.
    match goal with
    | |- context [(modify ?f ≫= ?k) ?s] =>
        change ((modify f ≫= k) s) with (k tt (f s))
    end.
    match goal with
    | |- checked_items (?m ?s).2 = ∅ =>
        cut (keeps (λ s', checked_items s' = ∅) m);
        [ intros Hrest; by apply (keeps_final _ m s Hrest) |]
    end.
    pose proof (stable_collapse_and_deselect (λ s', checked_items s' = ∅)) as Hc.
    apply keeps_bind; [apply keeps_tree_get_children|intros top].
    apply keeps_bind.
    + apply keeps_for_each. intros c. by apply Hc.
    + intros ?. apply keeps_modify. intros s Hs. simpl. rewrite Hs.
      apply leibniz_equiv. apply filter_empty.
Qed.


(** ** Expand all *)

Lemma start_threads_run (os : OS) (folders : list string) (s : app) :
  cancel_operation s = false →
  ∃ s',
    (fix loop (fs : list string) : M unit :=
       match fs with
       | [] => ret tt
       | folder :: fs' =>
           cancel ← gets cancel_operation;
           if negb cancel
           then calculate_tokens_for_directory os folder;; loop fs'
           else ret tt
       end) folders s = (Returns tt, s') ∧
    active_threads s' = active_threads s ++ map (fresh_worker os) folders ∧
    polls_scheduled s' = (polls_scheduled s + length folders)%nat ∧
    cancel_operation s' = false ∧
    pending_calculations s' = pending_calculations s.
Proof.
  revert s. induction folders as [|f fs IH]; intros s Hc.
  { exists s. rewrite app_nil_r, Nat.add_0_r. by repeat split. }
  unfold mbind at 1, M_bind at 1, bind at 1, gets at 1. rewrite Hc. simpl negb.
  cbv iota.
  destruct (IH (set_polls_scheduled S
                  (set_active_threads (λ ts, ts ++ [fresh_worker os f]) s)))
    as (s' & Hrun & Ht & Hp & Hc' & Hpend); [done|].
  exists s'. split; [exact Hrun|]. simpl in *.
  rewrite Ht, Hp, <- app_assoc. split; [done|]. split; [lia|]. by split.
Qed.

(** X13.  With a directory chosen, [expand_all_folders] leaves
    [cancel_operation] false and, for a list [folders] of directories,
    sets [pending_calculations] to their number, has started one thread
    for each of them, in order, after the threads there were, and has
    scheduled one more [check_token_queue] for each. *)
Theorem expand_all_folders_pending (depth : nat) (os : OS) (st : app) :
  dir_entry st ≠ "" →
  let st' := (expand_all_folders depth os st).2 in
  cancel_operation st' = false ∧
  ∃ folders,
    pending_calculations st' = Some (length folders) ∧
    active_threads st' = active_threads st ++ map (fresh_worker os) folders ∧
    polls_scheduled st' = (polls_scheduled st + length folders)%nat.
Proof.
  intros Hdir.
  set (P := λ s,
         cancel_operation s = false ∧
         ∃ folders,
           pending_calculations s = Some (length folders) ∧
           active_threads s = active_threads st ++ map (fresh_worker os) folders ∧
           polls_scheduled s = (polls_scheduled st + length folders)%nat).
  change (P (expand_all_folders depth os st).2).
  unfold expand_all_folders.
  unfold mbind at 1, M_bind at 1, bind at 1, gets at 1.
  destruct (dir_entry st) as [|a d] eqn:E; [done|]. simpl PyStr.nonempty.
  unfold when.
  set (I1 := λ s, cancel_operation s = false ∧
                  pending_calculations s = Some 0%nat ∧
                  active_threads s = active_threads st ∧
                  polls_scheduled s = polls_scheduled st).
  set (s0 := set_cancel_operation false
               (set_calculation_results (Some ∅)
                  (set_pending_calculations (Some 0%nat)
                     (set_checked_items (λ _, ∅) st)))).
  assert (I1 s0) as H0 by done.
  assert (∀ s, I1 s → P s) as Hdone.
  { intros s (Hc & Hp & Ht & Hn). split; [done|]. exists [].
    simpl. rewrite app_nil_r, Nat.add_0_r. done. }
  do 4 (match goal with
        | |- context [(modify ?f1 ≫= ?k) ?s] =>
            change ((modify f1 ≫= k) s) with (k tt (f1 s)); cbv beta
        end).
  fold s0.
  unfold mbind at 1, M_bind at 1, bind at 1.
  pose proof (keeps_tree_get_children I1 Tk.root s0 H0) as Hget.
  destruct (tree_get_children Tk.root s0) as [[top|c e] s1]; [|by apply Hdone].
  assert (∀ top acc,
            keeps I1
              ((fix loop (cs : list Tk.iid) (acc : list string) : M (list string) :=
                  match cs with
                  | [] => ret acc
                  | item :: cs' =>
                      acc' ← expand_and_select_children depth os item acc;
                      loop cs' acc'
                  end) top acc)) as Hloop.
  { clear. intros top. induction top as [|c cs IH]; intros acc.
    - apply keeps_ret.
    - apply keeps_bind; [|intros acc'; apply IH].
      by apply stable_expand_and_select_children. }
  unfold mbind at 1, M_bind at 1, bind at 1.
  pose proof (Hloop top [] s1 Hget) as Hphase.
  match goal with
  | |- context [match ?m s1 with _ => _ end] =>
      destruct (m s1) as [[folders|c e] s2]
  end; [|by apply Hdone].
  destruct (PyStr.truthy folders).
  - match goal with
    | |- context [(modify ?f1 ≫= ?k) ?s] =>
        change ((modify f1 ≫= k) s) with (k tt (f1 s))
    end.
    cbv beta. destruct Hphase as (Hc & Hp & Ht & Hn).
    destruct (start_threads_run os folders
                (set_pending_calculations (Some (length folders)) s2))
      as (s3 & Hrun & Ht3 & Hn3 & Hc3 & Hp3); [done|].
    rewrite Hrun. simpl snd. split; [done|]. exists folders.
    rewrite Hp3, Ht3, Hn3. simpl. by rewrite Ht, Hn.
  - apply Hdone. by apply (keeps_final I1 update_total_tokens s2);
      [apply stable_update_total_tokens|].
Qed.

(** [/repo] browsed, then expand-all. *)
Lemma expand_all_folders_pending_witness :
  let st' := (expand_all_folders 50 (Toy.os Toy.repo) browsed_repo).2 in
  cancel_operation st' = false ∧
  ∃ folders,
    pending_calculations st' = Some (length folders) ∧
    active_threads st' =
      active_threads browsed_repo ++ map (fresh_worker (Toy.os Toy.repo)) folders ∧
    polls_scheduled st' = (polls_scheduled browsed_repo + length folders)%nat.
Proof.
  apply (expand_all_folders_pending 50 (Toy.os Toy.repo) browsed_repo).
  assert (dir_entry browsed_repo = "/repo") as -> by (vm_compute; reflexivity).
  discriminate.
Defined.

(** ** Refreshing *)

Lemma tree_get_children_run (st : app) (i : Tk.iid) (it : Tk.item) :
  Tk.items (tree st) !! i = Some it →
  tree_get_children i st = (Returns (Tk.children it), st).
Proof.
  intros H.
  unfold tree_get_children, Tk.get_children, mbind, M_bind, bind, gets, lift.
  simpl. by rewrite H.
Qed.

Lemma keeps_run {A} (I : app → Prop) (m : M A) (st : app) :
  keeps I m → I st → I (m st).2.
Proof.
  intros Hk HI. specialize (Hk st HI). by destruct (m st) as [[a|c e] st'].
Qed.

(** [populate_tree] asks [is_safe_path] once, for the folder itself. *)
Lemma populate_tree_session (os : OS) (parent : Tk.iid) (path : string)
    (exts : list string) (st : app) :
  file_handler (populate_tree os parent path exts st).2 =
    (FileHandler.is_safe_path os (file_handler st) (normpath os path)).2.
Proof.
  set (fh := (FileHandler.is_safe_path os (file_handler st) (normpath os path)).2).
  assert (triple (λ s, s = st) (populate_tree os parent path exts)
            (λ _ s, file_handler s = fh) (λ s, file_handler s = fh)) as H.
  { unfold populate_tree.
    eapply triple_try_except with (E' := λ s, file_handler s = fh);
      [|intros e; by apply keeps_ret|done].
    eapply triple_bind with (Q := λ _ s, file_handler s = fh).
    - intros s ->. unfold is_safe_path. subst fh.
      by destruct (FileHandler.is_safe_path os (file_handler st) (normpath os path))
        as [[a|c e] fh'].
    - intros safe. destruct (negb safe).
      + apply keeps_bind; [|intros ?; apply keeps_ret].
        by apply stable_on_tree.
      + apply keeps_bind; [apply keeps_lift|intros items].
        apply keeps_bind; [|intros ?]; apply keeps_for_each; intros item.
        * by apply stable_populate_folder.
        * by apply stable_populate_file. }
  specialize (H st eq_refl).
  by destruct (populate_tree os parent path exts st) as [[a|c e] s'].
Qed.

Lemma refresh_files_run (os : OS) (st : app) :
  W st → dir_entry st ≠ "" →
  ∃ st', refresh_files os st = (Returns tt, st') ∧ W st' ∧
    checked_items st' = ∅ ∧
    file_handler st' =
      (FileHandler.is_safe_path os
         (FileHandler.clear_visited_paths (file_handler st))
         (normpath os (dir_entry st))).2 ∧
    dir_entry st' = dir_entry st.
Proof.
  intros HW Hdir.
  pose proof HW as ((Hwf & _) & Hsh & _).
  pose proof Hsh as ([it Hit] & _ & _ & Hnd & _).
  unfold refresh_files.
  rewrite (bind_run (gets dir_entry) _ st (dir_entry st) st eq_refl).
  destruct (dir_entry st) as [|c0 d0] eqn:Ed; [done|].
  change (PyStr.nonempty (String c0 d0)) with true. unfold when.
  rewrite (bind_run _ _ _ _ _ (tree_get_children_run st Tk.root it Hit)).
  pose proof (triple_delete_all (Tk.children it) st) as Hdel.
  destruct (for_each (Tk.children it) tree_delete st) as [[[]|c e] s1] eqn:E1.
  2:{ exfalso. apply Hdel. split; [done|]. exists it. split; [done|].
      split; [done|]. by eapply Hnd. }
  assert (T s1) as HT.
  { apply Hdel. split; [done|]. exists it. split; [done|]. split; [done|].
    by eapply Hnd. }
  assert (file_handler s1 = file_handler st ∧ dir_entry s1 = String c0 d0)
    as [Hfh1 Hd1].
  { pose proof (keeps_run (λ s, file_handler s = file_handler st ∧
                               dir_entry s = String c0 d0)
                  (for_each (Tk.children it) tree_delete) st) as Hk.
    rewrite E1 in Hk. apply Hk; [|done].
    apply keeps_for_each. intros x. by apply stable_on_tree. }
  rewrite (bind_run _ _ _ _ _ E1).
  set (s2 := set_file_handler FileHandler.clear_visited_paths
               (set_checked_items (λ _, ∅) s1)).
  set (p := populate_tree os Tk.root (String c0 d0) (extensions_of s2) s2).
  assert (W s2) as HW2.
  { destruct HT as [Hwf1 Hsh1]. split; [|done]. split; [done|].
    split; simpl; [intros i it' Hi|intros q Hi]; by apply not_elem_of_empty in Hi. }
  assert (W p.2) as HW3.
  { apply keeps_run; [|done]. apply keeps_populate_tree. by left. }
  assert (checked_items p.2 = ∅ ∧ dir_entry p.2 = String c0 d0) as [Hc3 Hd3].
  { apply (keeps_run (λ s, checked_items s = ∅ ∧ dir_entry s = String c0 d0));
      [|done].
    by apply stable_populate_tree. }
  pose proof (populate_tree_session os Tk.root (String c0 d0)
                (extensions_of s2) s2) as Hfh3.
  fold p in Hfh3.
  exists (set_checked_items
            (filter (λ i, is_Some (Tk.items (tree p.2) !! i))) p.2).
  split.
  { unfold mbind, M_bind, bind, modify, gets, try_except. simpl.
    fold s2. fold p. by destruct p as [[[]|c e] s3]. }
  split.
  { apply (keeps_run W update_total_tokens p.2); [|done].
    apply keeps_update_total_tokens. }
  simpl. rewrite Hc3, Hfh3. subst s2. simpl. rewrite Hfh1.
  split; [|done]. apply leibniz_equiv. apply filter_empty.
Qed.

(** X14.  In a state the application can reach, [refresh_files] does
    nothing when the directory field is empty; otherwise it returns
    normally, [checked_items] is empty afterwards, the exclusion
    patterns are unchanged, and the visited paths are exactly the real
    path of the directory, if it resolves. *)
Theorem refresh_files_resets (os : OS) (st : app) :
  reachable os st →
  (dir_entry st = "" → refresh_files os st = (Returns tt, st)) ∧
  (dir_entry st ≠ "" →
   ∃ st', refresh_files os st = (Returns tt, st') ∧
     checked_items st' = ∅ ∧
     FileHandler.exclude_patterns (file_handler st') =
       FileHandler.exclude_patterns (file_handler st) ∧
     ∀ r, r ∈ FileHandler.visited_paths (file_handler st') ↔
          realpath os (normpath os (dir_entry st)) = Returns r).
Proof.
  intros Hreach. split.
  - intros E. unfold refresh_files.
    rewrite (bind_run (gets dir_entry) _ st (dir_entry st) st eq_refl).
    by rewrite E.
  - intros Hdir.
    destruct (refresh_files_run os st (reachable_wf os st Hreach) Hdir)
      as (st' & Hrun & _ & Hc & Hfh & _).
    exists st'. split; [done|]. split; [done|]. rewrite Hfh.
    unfold FileHandler.is_safe_path, FileHandler.is_safe_path_try. simpl.
    destruct (realpath os (normpath os (dir_entry st))) as [r0|c0 m0]; simpl.
    + rewrite bool_decide_eq_false_2 by apply not_elem_of_empty. simpl.
      split; [done|]. intros r. rewrite (right_id_L ∅ (∪)), elem_of_singleton.
      split; [by intros ->|by intros [= ->]].
    + split; [done|]. intros r. split; [|done].
      intros Hr. by apply not_elem_of_empty in Hr.
Qed.

Lemma refresh_files_resets_witness :
  ∃ st', refresh_files (Toy.os Toy.repo) selected_repo = (Returns tt, st') ∧
    checked_items st' = ∅ ∧
    FileHandler.exclude_patterns (file_handler st') =
      FileHandler.exclude_patterns (file_handler selected_repo) ∧
    ∀ r, r ∈ FileHandler.visited_paths (file_handler st') ↔
         realpath (Toy.os Toy.repo)
           (normpath (Toy.os Toy.repo) (dir_entry selected_repo)) = Returns r.
Proof.
  refine (proj2 (refresh_files_resets (Toy.os Toy.repo) selected_repo _) _).
  - unfold selected_repo, browsed_repo.
    repeat (apply reachable_step; [|exact I]). apply reachable_init.
  - assert (dir_entry selected_repo = "/repo") as -> by (vm_compute; reflexivity).
    discriminate.
Defined.

(** ** A click and a second click *)

(** A row without children and without the folder tag, as
    [populate_tree] makes them for files. *)
Lemma check_leaf_run (depth : nat) (os : OS) (item : Tk.iid) (skip : bool)
    (st : app) (it : Tk.item) :
  Tk.items (tree st) !! item = Some it →
  Tk.Excluded ∉ Tk.tags it → Tk.Folder ∉ Tk.tags it → Tk.children it = [] →
  check_item_and_children (S depth) os item skip st =
    (Returns tt,
     set_checked_items (λ c, {[ item ]} ∪ c)
       (set_tree (λ _, Tk.mk_tree
                   (<[ item := Tk.mk_item ("☑ " +:+ drop_chars 2 (Tk.text it))
                                 (Tk.values it) (Tk.tags it) (Tk.is_open it)
                                 (Tk.children it) ]> (Tk.items (tree st)))
                   (Tk.serial (tree st))) st)).
Proof.
  intros Hit Hx Hf Hc. simpl.
  rewrite (bind_run _ _ _ _ _ (tree_item_run st item it Hit)).
  rewrite (has_tag_false _ _ Hx).
  rewrite (bind_run _ _ _ _ _ (tree_set_text_run st item it _ Hit)).
  match goal with
  | |- context [(modify ?f ≫= ?k) ?s] =>
      change ((modify f ≫= k) s) with (k tt (f s))
  end.
  cbv beta.
  set (it' := Tk.mk_item _ _ _ _ _).
  set (s1 := set_checked_items _ _).
  assert (Tk.items (tree s1) !! item = Some it') as Hit'.
  { subst s1. simpl. apply lookup_insert_eq. }
  rewrite (bind_run _ _ _ _ _ (tree_item_run s1 item it' Hit')).
  rewrite (has_tag_false Tk.Folder it') by done.
  unfold when at 1.
  rewrite (bind_run (ret tt) _ s1 tt s1 eq_refl).
  rewrite (bind_run _ _ _ _ _ (tree_get_children_run s1 item it' Hit')).
  subst it'. simpl. by rewrite Hc.
Qed.

Lemma uncheck_leaf_run (depth : nat) (item : Tk.iid) (st : app) (it : Tk.item) :
  Tk.items (tree st) !! item = Some it →
  Tk.Excluded ∉ Tk.tags it → Tk.children it = [] →
  uncheck_item_and_children (S depth) item st =
    (Returns tt,
     set_checked_items (λ c, c ∖ {[ item ]})
       (set_tree (λ _, Tk.mk_tree
                   (<[ item := Tk.mk_item ("☐ " +:+ drop_chars 2 (Tk.text it))
                                 (Tk.values it) (Tk.tags it) (Tk.is_open it)
                                 (Tk.children it) ]> (Tk.items (tree st)))
                   (Tk.serial (tree st))) st)).
Proof.
  intros Hit Hx Hc. simpl.
  rewrite (bind_run _ _ _ _ _ (tree_item_run st item it Hit)).
  rewrite (has_tag_false _ _ Hx).
  rewrite (bind_run _ _ _ _ _ (tree_set_text_run st item it _ Hit)).
  match goal with
  | |- context [(modify ?f ≫= ?k) ?s] =>
      change ((modify f ≫= k) s) with (k tt (f s))
  end.
  cbv beta.
  set (it' := Tk.mk_item _ _ _ _ _).
  set (s1 := set_checked_items _ _).
  assert (Tk.items (tree s1) !! item = Some it') as Hit'.
  { subst s1. simpl. apply lookup_insert_eq. }
  rewrite (bind_run _ _ _ _ _ (tree_get_children_run s1 item it' Hit')).
  subst it'. simpl. by rewrite Hc.
Qed.

Lemma drop_box (name : string) :
  skip_continuation name = name →
  drop_chars 2 ("☐ " +:+ name) = name ∧ drop_chars 2 ("☑ " +:+ name) = name.
Proof. intros Hn. by split. Qed.

Lemma update_total_tokens_run (st : app) :
  (∀ i, i ∈ checked_items st → is_Some (Tk.items (tree st) !! i)) →
  update_total_tokens st = (Returns tt, st).
Proof.
  intros H. unfold update_total_tokens, modify. f_equal.
  destruct st. unfold set_checked_items. simpl in *. f_equal.
  apply leibniz_equiv. intros i. rewrite elem_of_filter. naive_solver.
Qed.

(** X15.  A click on an unchecked row that has no children, is no
    folder and is not excluded checks it: the row is added to
    [checked_items] and its label gets the checked box.  A second click
    brings back the state before the first.  The rows in
    [checked_items] are rows of the tree, and the name on the label
    starts at a character boundary. *)
Theorem click_twice_restores (depth : nat) (os : OS) (item : Tk.iid)
    (st : app) (it : Tk.item) (name : string) :
  (0 < depth)%nat → item ≠ Tk.root →
  Tk.items (tree st) !! item = Some it →
  Tk.text it = "☐ " +:+ name → skip_continuation name = name →
  Tk.Excluded ∉ Tk.tags it → Tk.Folder ∉ Tk.tags it → Tk.children it = [] →
  item ∉ checked_items st →
  (∀ i, i ∈ checked_items st → is_Some (Tk.items (tree st) !! i)) →
  let st1 := step depth os (Click item) st in
  checked_items st1 = {[ item ]} ∪ checked_items st ∧
  (∃ it1, Tk.items (tree st1) !! item = Some it1 ∧
          Tk.text it1 = "☑ " +:+ name) ∧
  step depth os (Click item) st1 = st.
Proof.
  intros Hd Hroot Hit Htext Hname Hx Hf Hc Hnin Hex.
  destruct depth as [|depth]; [lia|].
  set (it1 := Tk.mk_item ("☑ " +:+ name) (Tk.values it) (Tk.tags it)
                (Tk.is_open it) (Tk.children it)).
  set (s1 := set_checked_items (λ c, {[ item ]} ∪ c)
               (set_tree (λ _, Tk.mk_tree (<[ item := it1 ]> (Tk.items (tree st)))
                                 (Tk.serial (tree st))) st)).
  assert (handle_click (S depth) os item st = (Returns tt, s1)) as Hrun1.
  { unfold handle_click. rewrite bool_decide_eq_false_2 by done.
    rewrite (bind_run _ _ _ _ _ (tree_item_run st item it Hit)).
    rewrite (has_tag_false _ _ Hx). rewrite Htext.
    change (PyStr.startswith ("☐ " +:+ name) "☐") with true. cbv iota.
    rewrite (bind_run _ _ _ _ _
               (check_leaf_run depth os item true st it Hit Hx Hf Hc)).
    rewrite Htext.
    rewrite (proj1 (drop_box name Hname)).
    fold it1. fold s1. apply update_total_tokens_run.
    intros i. subst s1. simpl. rewrite elem_of_union, elem_of_singleton.
    intros [->|Hi].
    - rewrite lookup_insert_eq. by eexists.
    - destruct (decide (i = item)) as [->|Hne].
      + rewrite lookup_insert_eq. by eexists.
      + rewrite lookup_insert_ne by done. by apply Hex. }
  assert (Tk.items (tree s1) !! item = Some it1) as Hit1.
  { subst s1. simpl. apply lookup_insert_eq. }
  intros st1. assert (st1 = s1) as -> by (subst st1; unfold step; simpl; by rewrite Hrun1).
  split; [done|]. split; [by exists it1|].
  unfold step. simpl. unfold handle_click.
  rewrite bool_decide_eq_false_2 by done.
  rewrite (bind_run _ _ _ _ _ (tree_item_run s1 item it1 Hit1)).
  rewrite (has_tag_false Tk.Excluded it1) by done.
  change (PyStr.startswith (Tk.text it1) "☐") with false.
  change (PyStr.startswith (Tk.text it1) "☑") with true. cbv iota.
  rewrite (bind_run _ _ _ _ _
             (uncheck_leaf_run depth item s1 it1 Hit1 Hx Hc)).
  change (Tk.text it1) with ("☑ " +:+ name).
  rewrite (proj2 (drop_box name Hname)).
  assert (∀ s, s = st → (update_total_tokens s).2 = st) as Hfin.
  { intros s ->. by rewrite (update_total_tokens_run st Hex). }
  apply Hfin. subst s1 it1. destruct st as [[items serial] checked ?]. simpl in *.
  unfold set_checked_items, set_tree. simpl. f_equal.
  - f_equal. rewrite insert_insert_eq. rewrite <- Htext.
    apply insert_id. by destruct it.
  - apply leibniz_equiv. set_solver.
Qed.

Lemma click_twice_restores_witness :
  let st1 := step 50 (Toy.os Toy.repo) (Click (inl "/repo/a.py")) browsed_repo in
  checked_items st1 = {[ inl "/repo/a.py" ]} ∪ checked_items browsed_repo ∧
  (∃ it1, Tk.items (tree st1) !! inl "/repo/a.py" = Some it1 ∧
          Tk.text it1 = "☑ " +:+ "a.py") ∧
  step 50 (Toy.os Toy.repo) (Click (inl "/repo/a.py")) st1 = browsed_repo.
Proof.
  apply (click_twice_restores 50 (Toy.os Toy.repo) (inl "/repo/a.py")
           browsed_repo
           (Tk.mk_item "☐ a.py" [Tk.CInt 8] [Tk.File] false []) "a.py").
  - lia.
  - done.
  - vm_compute. reflexivity.
  - reflexivity.
  - reflexivity.
  - simpl. intros H. apply list_elem_of_singleton in H. discriminate.
  - simpl. intros H. apply list_elem_of_singleton in H. discriminate.
  - reflexivity.
  - assert (checked_items browsed_repo = ∅) as -> by (vm_compute; reflexivity).
    apply not_elem_of_empty.
  - assert (checked_items browsed_repo = ∅) as -> by (vm_compute; reflexivity).
    intros i Hi. by apply not_elem_of_empty in Hi.
Defined.

(** ** Copying: the files of a checked folder *)

Lemma files_readable_sound (os : OS) (root : string)
    (filenames files : list string) :
  ∃ more, (files_readable os root filenames files).2 = files ++ more ∧
    ∀ p, p ∈ more →
      ∃ filename, filename ∈ filenames ∧ p = path_join os root filename ∧
                  decodes os p = true.
Proof.
  revert files. induction filenames as [|f fs IH]; intros files; simpl.
  { exists []. rewrite app_nil_r. split; [done|]. by intros p ?%elem_of_nil. }
  assert (∃ more, (files_readable os root fs files).2 = files ++ more ∧
            ∀ p, p ∈ more →
              ∃ filename, filename ∈ f :: fs ∧ p = path_join os root filename ∧
                          decodes os p = true) as Hskip.
  { destruct (IH files) as (more & -> & Hmore). exists more. split; [done|].
    intros p Hp. destruct (Hmore p Hp) as (f' & ? & ? & ?).
    exists f'. split; [by right|done]. }
  assert (∃ more : list string, files = files ++ more ∧
            ∀ p, p ∈ more →
              ∃ filename, filename ∈ f :: fs ∧ p = path_join os root filename ∧
                          decodes os p = true) as Hstop.
  { exists []. rewrite app_nil_r. split; [done|]. by intros p ?%elem_of_nil. }
  destruct (read_text_1k os (path_join os root f)) as [t|c e] eqn:Hread.
  - destruct (IH (files ++ [path_join os root f])) as (more & -> & Hmore).
    exists (path_join os root f :: more).
    split; [by rewrite <- app_assoc|].
    intros p [->|Hp]%elem_of_cons.
    + exists f. split; [by left|]. split; [done|]. unfold decodes. by rewrite Hread.
    + destruct (Hmore p Hp) as (f' & ? & ? & ?). exists f'. split; [by right|done].
  - destruct c; first [exact Hskip | exact Hstop].
Qed.

Lemma get_files_from_folder_loop_sound (os : OS)
    (w : list (string * list string)) (files : list string) :
  ∃ more, get_files_from_folder_loop os w files = files ++ more ∧
    ∀ p, p ∈ more →
      ∃ root filenames filename,
        (root, filenames) ∈ w ∧ filename ∈ filenames ∧
        p = path_join os root filename ∧ decodes os p = true.
Proof.
  revert files. induction w as [|[root fns] w IH]; intros files; simpl.
  { exists []. rewrite app_nil_r. split; [done|]. by intros p ?%elem_of_nil. }
  destruct (files_readable_sound os root fns files) as (more1 & Hr & H1).
  destruct (files_readable os root fns files) as [[[]|c e] files'];
    simpl in Hr; subst files'.
  - destruct (IH (files ++ more1)) as (more2 & -> & H2).
    exists (more1 ++ more2). split; [by rewrite app_assoc|].
    intros p [Hp|Hp]%elem_of_app.
    + destruct (H1 p Hp) as (f & ? & ? & ?). exists root, fns, f.
      split; [by left|done].
    + destruct (H2 p Hp) as (r & fs & f & ? & ?). exists r, fs, f.
      split; [by right|done].
  - exists more1. split; [done|]. intros p Hp.
    destruct (H1 p Hp) as (f & ? & ? & ?). exists root, fns, f.
    split; [by left|done].
Qed.

Lemma files_readable_complete (os : OS) (root : string)
    (filenames files : list string) :
  (∀ f, f ∈ filenames → skipped_error os (path_join os root f)) →
  files_readable os root filenames files =
    (Returns tt,
     files ++ List.filter (decodes os) (map (path_join os root) filenames)).
Proof.
  revert files. induction filenames as [|f fs IH]; intros files Hok; simpl.
  { by rewrite app_nil_r. }
  assert (skipped_error os (path_join os root f)) as Hf by (apply Hok; by left).
  unfold skipped_error in Hf.
  unfold decodes at 1.
  destruct (read_text_1k os (path_join os root f)) as [t|c e].
  - rewrite IH by (intros f' Hf'; apply Hok; by right).
    by rewrite <- app_assoc.
  - destruct Hf as [-> | ->]; apply IH; intros f' Hf'; apply Hok; by right.
Qed.

(** X16.  Each path [get_files_from_folder] returns is a file that the
    walk of the folder lists and whose first kilobyte decodes.  When
    reading fails only with [UnicodeDecodeError] or [PermissionError],
    the result is exactly these files, in the order of the walk. *)
Theorem get_files_from_folder_decodable (os : OS) (folder_path : string) :
  (∀ p, p ∈ get_files_from_folder os folder_path →
     ∃ root filenames filename,
       (root, filenames) ∈ walk os folder_path ∧ filename ∈ filenames ∧
       p = path_join os root filename ∧
       ∃ text, read_text_1k os p = Returns text) ∧
  ((∀ root filenames filename,
      (root, filenames) ∈ walk os folder_path → filename ∈ filenames →
      skipped_error os (path_join os root filename)) →
   get_files_from_folder os folder_path =
     flat_map (λ '(root, filenames),
                 List.filter (decodes os) (map (path_join os root) filenames))
       (walk os folder_path)).
Proof.
  unfold get_files_from_folder. split.
  - intros p Hp.
    destruct (get_files_from_folder_loop_sound os (walk os folder_path) [])
      as (more & Hrun & Hmore).
    rewrite Hrun in Hp. destruct (Hmore p Hp) as (r & fs & f & ? & ? & ? & Hd).
    exists r, fs, f. repeat (split; [done|]).
    unfold decodes in Hd. destruct (read_text_1k os p); [by eexists|done].
  - generalize (walk os folder_path). intros w Hok.
    rewrite <- (app_nil_l (flat_map _ w)). generalize (@nil string).
    induction w as [|[root fns] w IH]; intros files; simpl.
    { by rewrite app_nil_r. }
    rewrite files_readable_complete.
    + rewrite IH, app_assoc; [done|].
      intros r fs f Hin. apply Hok. by right.
    + intros f Hf. apply (Hok root fns f); [by left|done].
Qed.

(** ** Copying: the checked rows *)

(** X17.  The loop of [copy_markdown_to_clipboard] over the checked
    rows adds a path to the ones collected exactly when it is a file
    that [get_files_from_folder] finds under a checked row tagged as a
    folder, or is a checked row not tagged as a folder whose first
    value is neither [(binary)] nor [(error)].  A checked identifier
    that has no row adds nothing. *)
Theorem collect_selected_rows (os : OS) (tv : Tk.treeview)
    (checked : list Tk.iid) (selected_files : list string) (p : string) :
  p ∈ collect_selected os tv checked selected_files ↔
  p ∈ selected_files ∨
  ∃ item it,
    item ∈ checked ∧ Tk.items tv !! item = Some it ∧
    ((Tk.Folder ∈ Tk.tags it ∧
      p ∈ get_files_from_folder os (Tk.iid_str item)) ∨
     ((Tk.Folder ∉ Tk.tags it) ∧ p = Tk.iid_str item ∧
      head (Tk.values it) ≠ Some (Tk.CStr "(binary)") ∧
      head (Tk.values it) ≠ Some (Tk.CStr "(error)"))).
Proof.
  revert selected_files. induction checked as [|item rest IH];
    intros selected_files; simpl.
  { split; [by left|]. intros [?|(item & it & ?%elem_of_nil & _)]; done. }
  assert (∀ P : Tk.iid → Tk.item → Prop,
            (∃ i it, i ∈ item :: rest ∧ Tk.items tv !! i = Some it ∧ P i it) ↔
            (∃ it, Tk.items tv !! item = Some it ∧ P item it) ∨
            (∃ i it, i ∈ rest ∧ Tk.items tv !! i = Some it ∧ P i it)) as Hsplit.
  { intros P. split.
    - intros (i & it & [->|Hi]%elem_of_cons & Hit & HP); [left|right]; eauto.
    - intros [(it & Hit & HP)|(i & it & Hi & Hit & HP)].
      + exists item, it. split; [by left|done].
      + exists i, it. split; [by right|done]. }
  rewrite (Hsplit (λ i it, _)). clear Hsplit.
  unfold Tk.item_of. destruct (Tk.items tv !! item) as [it|] eqn:Hit.
  2:{ rewrite IH. split; [intros [?|?]; auto|].
      intros [?|[(it & ? & _)|?]]; [by left|done|by right]. }
  unfold Tk.has_tag. case_bool_decide as Hf.
  - rewrite IH, elem_of_app. split.
    + intros [[?|?]|?]; [by left| |by right; right].
      right. left. exists it. split; [done|]. by left.
    + intros [?|[(it' & [= <-] & [[_ ?]|[? _]])|?]];
        [by left; left|by left; right|done|by right].
  - destruct (Tk.values it) as [|v vs] eqn:Hv.
    + rewrite IH, elem_of_app, list_elem_of_singleton. split.
      * intros [[?| ->]|?]; [by left| |by right; right].
        right. left. exists it. split; [done|]. right. rewrite Hv. by repeat split.
      * intros [?|[(it' & [= <-] & [[? _]|(_ & -> & _)])|?]];
          [by left; left|done|by left; right|by right].
    + destruct (bool_decide (v = Tk.CStr "(binary)") ||
                bool_decide (v = Tk.CStr "(error)")) eqn:Hmark.
      * rewrite IH. split; [intros [?|?]; auto|].
        intros [?|[(it' & [= <-] & [[? _]|(_ & _ & Hb & He)])|?]];
          [by left|done| |by right].
        rewrite Hv in Hb, He. simpl in Hb, He.
        apply orb_true_iff in Hmark as [->%bool_decide_eq_true| ->%bool_decide_eq_true];
          done.
      * apply orb_false_iff in Hmark as [Hb%bool_decide_eq_false He%bool_decide_eq_false].
        rewrite IH, elem_of_app, list_elem_of_singleton. split.
        -- intros [[?| ->]|?]; [by left| |by right; right].
           right. left. exists it. split; [done|]. right. rewrite Hv. simpl.
           repeat split; [done|congruence|congruence].
        -- intros [?|[(it' & [= <-] & [[? _]|(_ & -> & _)])|?]];
             [by left; left|done|by left; right|by right].
Qed.

(** ** What changes a setting *)

Lemma is_safe_path_patterns (os : OS) (self : FileHandler.t) (path : string) :
  FileHandler.exclude_patterns (FileHandler.is_safe_path os self path).2 =
  FileHandler.exclude_patterns self.
Proof.
  unfold FileHandler.is_safe_path, FileHandler.is_safe_path_try.
  destruct (realpath os path) as [r0|c0 m0]; simpl; [|done].
  by case_bool_decide.
Qed.

Lemma keeps_step (I : app → Prop) (depth : nat) (os : OS) (e : event) (st : app) :
  keeps I (handler depth os e) → I st → I (step depth os e st).
Proof.
  intros Hk HI. specialize (Hk st HI). unfold step.
  by destruct (handler depth os e st) as [[a|c m] st'].
Qed.

Lemma thread_step_settings (os : OS) (i : nat) (st : app) :
  let st' := thread_step os i st in
  cancel_operation st' = cancel_operation st ∧
  dir_entry st' = dir_entry st ∧
  filter_entry st' = filter_entry st ∧
  exclude_entry st' = exclude_entry st ∧
  exclude_enabled st' = exclude_enabled st ∧
  file_handler st' = file_handler st.
Proof.
  unfold thread_step. destruct (active_threads st !! i) as [w|]; [|done].
  by destruct (worker_step os st w) as [w' msgs].
Qed.

Ltac field_kept :=
  intros; simpl; try rewrite is_safe_path_patterns; done.

Ltac settle_with I0 Hth :=
  first
    [ apply (keeps_step I0); [apply stable_handler; field_kept|field_kept]
    | apply (keeps_step I0); [apply stable_browse_directory; field_kept|field_kept]
    | apply (keeps_step I0); [apply stable_toggle_exclude; field_kept|field_kept]
    | unfold step; simpl;
      match goal with
      | |- context [thread_step ?os ?i ?st] =>
          destruct (Hth i st) as (?&?&?&?&?&Hfh); rewrite ?Hfh;
          repeat split; congruence
      end
    | unfold step; simpl; done ].

(** X18.  One step of the application, whichever of the methods of
    [event] it runs: [cancel_operation] goes from false to true only by
    the cancel button; the directory field changes only by browsing or
    typing, the exclusion field only by typing; the exclusion flag and
    the exclusion patterns change only by [toggle_exclude]. *)
Theorem settings_change_only_by_their_events (depth : nat) (os : OS)
    (e : event) (st : app) :
  let st' := step depth os e st in
  (cancel_operation st = false → cancel_operation st' = true →
   e = CancelButton) ∧
  (dir_entry st' ≠ dir_entry st →
   (∃ d, e = Browse d) ∨ (∃ s, e = TypeDirectory s)) ∧
  (exclude_entry st' ≠ exclude_entry st → ∃ s, e = TypeExclude s) ∧
  (exclude_enabled st' ≠ exclude_enabled st ∨
   FileHandler.exclude_patterns (file_handler st') ≠
     FileHandler.exclude_patterns (file_handler st) →
   ∃ b, e = ToggleExclude b).
Proof.
  intros st'.
  pose proof (thread_step_settings os) as Hth.
  split; [|split; [|split]].
  - intros H0 H1. destruct e; try done; exfalso;
      assert (cancel_operation st' = false) as H2; try congruence;
      subst st'; settle_with (λ s, cancel_operation s = false) Hth.
  - intros H. destruct e; try (by left; eauto); try (by right; eauto);
      exfalso; apply H; subst st';
      settle_with (λ s, dir_entry s = dir_entry st) Hth.
  - intros H. destruct e; try (by eauto); exfalso; apply H; subst st';
      settle_with (λ s, exclude_entry s = exclude_entry st) Hth.
  - intros H. destruct e; try (by eauto); exfalso;
      (assert (exclude_enabled st' = exclude_enabled st ∧
               FileHandler.exclude_patterns (file_handler st') =
               FileHandler.exclude_patterns (file_handler st)) as [H1 H2];
       [|by destruct H as [H|H]; apply H]);
      subst st';
      settle_with (λ s, exclude_enabled s = exclude_enabled st ∧
                     FileHandler.exclude_patterns (file_handler s) =
                     FileHandler.exclude_patterns (file_handler st)) Hth.
Qed.

(** ** What a thread reports *)

Lemma progress_total_app (l1 l2 : list msg) :
  progress_total (l1 ++ l2) = (progress_total l1 + progress_total l2)%nat.
Proof.
  induction l1 as [|[] l1 IH]; simpl; lia.
Qed.

Lemma process_file_total (os : OS) (st : app) (root filename : string) :
  let r := process_file os st root filename in
  progress_total r.1 = r.2 ∧ ∀ m, m ∈ r.1 → last_word m = false.
Proof.
  unfold process_file.
  repeat match goal with
         | |- context [if ?b then _ else _] => destruct b
         | |- context [match ?o with Returns _ => _ | Raises _ _ => _ end] =>
             destruct o
         end; simpl; (split; [lia|]); intros m Hm;
    repeat match goal with
           | H : _ ∈ [] |- _ => by apply elem_of_nil in H
           | H : _ ∈ _ :: _ |- _ => apply elem_of_cons in H as [->|H]
           end; done.
Qed.

Lemma worker_step_total (os : OS) (st : app) (w : worker) :
  let r := worker_step os st w in
  directory_path r.1 = directory_path w ∧
  total_tokens r.1 = (total_tokens w + progress_total r.2)%nat ∧
  (position w = WExited → r = (w, [])) ∧
  (∀ m, m ∈ r.2 → last_word m = true →
     r.2 = [m] ∧ position r.1 = WExited ∧
     ∀ d t, m = Done d t → d = directory_path w ∧ t = total_tokens w).
Proof.
  unfold worker_step. destruct w as [d t pos]. simpl.
  destruct pos as [[|[root filenames] rest]|root [|filename filenames] rest
                  |root filename filenames rest|]; simpl.
  - repeat split; try done; try lia.
    + apply list_elem_of_singleton in H. by subst.
    + apply list_elem_of_singleton in H. subst. by injection H1.
    + apply list_elem_of_singleton in H. subst. by injection H1.
  - destruct (cancel_operation st); simpl; repeat split; try done; try lia.
    + apply list_elem_of_singleton in H. by subst.
    + apply list_elem_of_singleton in H. by subst.
    + apply list_elem_of_singleton in H. by subst.
    + by apply elem_of_nil in H.
    + by apply elem_of_nil in H.
    + by apply elem_of_nil in H.
    + by apply elem_of_nil in H.
  - repeat split; try done; try lia; by apply elem_of_nil in H.
  - destruct (cancel_operation st); simpl; repeat split; try done; try lia.
    + apply list_elem_of_singleton in H. by subst.
    + apply list_elem_of_singleton in H. by subst.
    + apply list_elem_of_singleton in H. by subst.
    + by apply elem_of_nil in H.
    + by apply elem_of_nil in H.
    + by apply elem_of_nil in H.
    + by apply elem_of_nil in H.
  - pose proof (process_file_total os st root filename) as [Ht Hl].
    destruct (process_file os st root filename) as [msgs tokens]. simpl in *.
    split; [done|]. split; [lia|]. split; [done|].
    intros m Hm Hw. by rewrite (Hl m Hm) in Hw.
  - repeat split; try done; try lia; by apply elem_of_nil in H.
Qed.

Lemma worker_run_total (os : OS) (sts : list app) (w : worker) :
  let r := worker_run os sts w in
  directory_path r.1 = directory_path w ∧
  total_tokens r.1 = (total_tokens w + progress_total r.2)%nat ∧
  (position w = WExited → r = (w, [])) ∧
  (∀ m, m ∈ r.2 → last_word m = true →
     (∃ pre, r.2 = pre ++ [m] ∧ ∀ m', m' ∈ pre → last_word m' = false) ∧
     position r.1 = WExited ∧
     ∀ d t, m = Done d t →
       d = directory_path w ∧ t = (total_tokens w + progress_total r.2)%nat).
Proof.
  revert w. induction sts as [|st sts IH]; intros w; simpl.
  - repeat split; try done; try lia; by apply elem_of_nil in H.
  - pose proof (worker_step_total os st w) as (Hd1 & Ht1 & Hx1 & Hl1).
    destruct (worker_step os st w) as [w1 msgs1]. simpl in *.
    pose proof (IH w1) as (Hd2 & Ht2 & Hx2 & Hl2).
    destruct (worker_run os sts w1) as [w2 msgs2]. simpl in *.
    split; [congruence|]. split; [rewrite progress_total_app; lia|].
    split.
    { intros Hx. injection (Hx1 Hx) as -> ->. by injection (Hx2 Hx) as -> ->. }
    intros m Hm Hw.
    destruct (decide (m ∈ msgs1)) as [Hin|Hnin].
    + destruct (Hl1 m Hin Hw) as (-> & Hpos & HD).
      injection (Hx2 Hpos) as -> ->. simpl. split.
      { exists []. split; [done|]. intros m' Hm'. by apply elem_of_nil in Hm'. }
      split; [done|]. intros d t E. destruct (HD d t E) as [-> ->].
      split; [done|]. subst m. simpl. lia.
    + apply elem_of_app in Hm as [Hm|Hm]; [done|].
      destruct (Hl2 m Hm Hw) as ((pre & -> & Hpre) & Hpos & HD).
      split.
      { exists (msgs1 ++ pre). split; [by rewrite app_assoc|].
        intros m' [Hm'|Hm']%elem_of_app; [|by apply Hpre].
        destruct (last_word m') eqn:E; [|done].
        destruct (Hl1 m' Hm' E) as (_ & Hpos1 & _).
        injection (Hx2 Hpos1) as _ Hnil. by destruct pre. }
      split; [done|]. intros d t E. destruct (HD d t E) as [-> ->].
      split; [done|]. rewrite !progress_total_app. rewrite progress_total_app in Ht2.
      lia.
Qed.

(** X19.  A thread started by [calculate_tokens_for_directory],
    whatever the interface does between its steps: the total it holds
    is the sum of the counts of its [progress] messages; a [done] or
    [cancelled] message is its last message and the only one of the
    two kinds; and a [done] message carries the directory of the thread
    and that sum. *)
Theorem thread_reports_its_sum (os : OS) (sts : list app) (d : string) :
  let r := worker_run os sts (fresh_worker os d) in
  total_tokens r.1 = progress_total r.2 ∧
  (∀ m, m ∈ r.2 → last_word m = true →
     ∃ pre, r.2 = pre ++ [m] ∧ ∀ m', m' ∈ pre → last_word m' = false) ∧
  (∀ d' t, Done d' t ∈ r.2 → d' = d ∧ t = progress_total r.2).
Proof.
  pose proof (worker_run_total os sts (fresh_worker os d)) as (Hd & Ht & _ & Hl).
  simpl in *. split; [done|]. split.
  - intros m Hm Hw. by destruct (Hl m Hm Hw) as (? & _).
  - intros d' t Hm. destruct (Hl _ Hm eq_refl) as (_ & _ & HD).
    by apply HD.
Qed.

(** The steps of thread [i] in the application are those of
    [worker_run]. *)
Lemma thread_steps_worker_run (depth : nat) (os : OS) (i n : nat) (st : app)
    (w : worker) :
  active_threads st !! i = Some w →
  ∃ sts, length sts = n ∧
    let r := worker_run os sts w in
    active_threads (run depth os (replicate n (Thread i)) st) !! i = Some r.1 ∧
    token_queue (run depth os (replicate n (Thread i)) st) =
      token_queue st ++ r.2.
Proof.
  revert st w. induction n as [|n IH]; intros st w Hw.
  - exists []. simpl. by rewrite app_nil_r.
  - change (run depth os (replicate (S n) (Thread i)) st)
      with (run depth os (replicate n (Thread i)) (thread_step os i st)).
    pose (st1 := thread_step os i st). fold st1.
    assert (st1 = thread_step os i st) as Est by done.
    unfold thread_step in Est. rewrite Hw in Est.
    destruct (worker_step os st w) as [w1 msgs1] eqn:E1.
    assert (active_threads st1 !! i = Some w1) as Hw1.
    { rewrite Est. simpl. apply list_lookup_insert_eq. by eapply lookup_lt_Some. }
    destruct (IH st1 w1 Hw1) as (sts & Hlen & Hr).
    exists (st :: sts). split; [simpl; lia|]. simpl. rewrite E1.
    destruct (worker_run os sts w1) as [w2 msgs2]. simpl in *.
    destruct Hr as [-> ->]. split; [done|]. rewrite Est. simpl.
    by rewrite app_assoc.
Qed.

(** ** The extension filter *)

Lemma split_trailing (sep : ascii) (s : string) :
  ∃ l, l ≠ [] ∧ PyStr.split sep (s +:+ String sep "") = l ++ [""].
Proof.
  induction s as [|c s (l & Hl & IH)]; simpl.
  - rewrite Ascii.eqb_refl. by exists [""].
  - change (s ++ String sep "")%string with (s +:+ String sep ""). rewrite IH.
    destruct (Ascii.eqb c sep).
    + by exists ("" :: l).
    + destruct l as [|w l]; [done|]. by exists (String c w :: l).
Qed.

(** X20.  A blank component of the filter field lets every file pass
    the extension test of [populate_tree]: with the empty string among
    the extensions every name matches; an empty field gives the empty
    string as its only extension, and a field that ends with a comma
    has it among its extensions. *)
Theorem blank_filter_component (st : app) :
  (∀ item, "" ∈ extensions_of st →
     matches_extensions (extensions_of st) item = true) ∧
  (filter_entry st = "" → extensions_of st = [""]) ∧
  (∀ s, filter_entry st = s +:+ "," → "" ∈ extensions_of st).
Proof.
  split; [|split].
  - intros item Hin. unfold matches_extensions. apply orb_true_iff. right.
    unfold PyStr.any. apply existsb_exists. exists "". split.
    + by apply list_elem_of_In.
    + unfold PyStr.endswith. simpl. by destruct (String.rev (PyStr.lower item)).
  - unfold extensions_of. by intros ->.
  - intros s E. unfold extensions_of. rewrite E.
    destruct (split_trailing "," s) as (l & _ & ->).
    rewrite map_app. apply elem_of_app. right. by left.
Qed.

(** ** [get_files] *)

Section GetFiles.
Import FileHandler FileWalk.
Context (os : OS) (directory : string) (extensions : list string).

Lemma extends_refl self files :
  extends os directory extensions self files self files.
Proof.
  split; [done|]. exists []. split; [by rewrite app_nil_r|].
  intros p Hp. by apply elem_of_nil in Hp.
Qed.

Lemma extends_trans self1 files1 self2 files2 self3 files3 :
  extends os directory extensions self1 files1 self2 files2 →
  extends os directory extensions self2 files2 self3 files3 →
  extends os directory extensions self1 files1 self3 files3.
Proof.
  intros (E1 & new1 & -> & H1) (E2 & new2 & -> & H2). split; [congruence|].
  exists (new1 ++ new2). split; [by rewrite app_assoc|].
  intros p [Hp|Hp]%elem_of_app; [by apply H1|]. rewrite <- E1. by apply H2.
Qed.

Lemma should_exclude_patterns (a b : t) (p : string) :
  exclude_patterns a = exclude_patterns b → should_exclude a p = should_exclude b p.
Proof. intros E. unfold should_exclude. by rewrite E. Qed.

Lemma walk_dirs_extends walk top ds self files :
  (∀ d s f, d ∈ ds →
     extends os directory extensions s f
       (walk (path_join os top d) s f).2.1
       (walk (path_join os top d) s f).2.2) →
  extends os directory extensions self files
    (walk_dirs walk os top ds self files).2.1
    (walk_dirs walk os top ds self files).2.2.
Proof.
  revert self files. induction ds as [|d ds IH]; intros self files Hw; simpl.
  - apply extends_refl.
  - destruct (islink os (path_join os top d)).
    + apply IH. intros d' s f Hd'. apply Hw. by right.
    + pose proof (Hw d self files ltac:(by left)) as H1.
      destruct (walk (path_join os top d) self files) as [[[]|c e] [s1 f1]];
        simpl in *; [|done].
      eapply extends_trans; [done|]. apply IH.
      intros d' s f Hd'. apply Hw. by right.
Qed.

Lemma kept_files_found self entries top rel p :
  scandir os top = Returns entries →
  relpath os top directory = Returns rel →
  p ∈ kept_files os self extensions (if String.eqb rel "." then "" else rel)
        (map fst (List.filter (λ e, negb (snd e)) entries)) →
  found os directory extensions (exclude_patterns self) p.
Proof.
  intros Hscan Hrel. unfold kept_files.
  rewrite list_elem_of_fmap. intros (filename & -> & Hin).
  apply list_elem_of_In, filter_In in Hin as [Hin Hk].
  apply andb_true_iff in Hk as [Hx Hk]. apply negb_true_iff in Hx.
  apply list_elem_of_In, list_elem_of_fmap in Hin as ([n b] & -> & Hin).
  apply list_elem_of_In, filter_In in Hin as [Hin Hb]. simpl in *.
  apply negb_true_iff in Hb. subst b.
  exists top, rel, entries, n. split; [done|]. split; [by apply list_elem_of_In|].
  split; [done|]. split; [done|]. split; [|done].
  etrans; [|exact Hx]. by apply should_exclude_patterns.
Qed.

Lemma get_files_walk_extends depth top self files :
  extends os directory extensions self files
    (get_files_walk depth os directory extensions top self files).2.1
    (get_files_walk depth os directory extensions top self files).2.2.
Proof.
  revert top self files. induction depth as [|depth IH]; intros top self files.
  { apply extends_refl. }
  simpl. destruct (scandir os top) as [entries|c e] eqn:Hscan;
    [|apply extends_refl].
  pose proof (is_safe_path_patterns os self top) as Hpat.
  destruct (is_safe_path os self top) as [[[|]|c e] self1]; simpl in Hpat.
  - destruct (relpath os top directory) as [rel|c e] eqn:Hrel.
    + eapply extends_trans; [|apply walk_dirs_extends; intros; apply IH].
      split; [done|]. eexists. split; [done|]. intros p Hp.
      rewrite <- Hpat. by eapply kept_files_found.
    + simpl. split; [done|]. exists []. split; [by rewrite app_nil_r|].
      intros p Hp. by apply elem_of_nil in Hp.
  - eapply extends_trans; [|apply walk_dirs_extends; intros; apply IH].
    split; [done|]. exists []. split; [by rewrite app_nil_r|].
    intros p Hp. by apply elem_of_nil in Hp.
  - eapply extends_trans; [|apply walk_dirs_extends; intros; apply IH].
    split; [done|]. exists []. split; [by rewrite app_nil_r|].
    intros p Hp. by apply elem_of_nil in Hp.
Qed.

(** X21.  [get_files] raises [ValueError] with the text
    [Directory '<directory>' does not exist], and leaves the handler as
    it is, when the directory does not exist.  The list it returns is
    in ascending order, the exclusion patterns are unchanged, and each
    path joins the relative path of a directory that was listed (the
    empty string for [directory] itself) with the name of an entry of
    it that is no directory, has no excluded component and passes the
    extension test. *)
Theorem get_files_listing (depth : nat) (self : t) :
  (path_exists os directory = false →
   get_files depth os self directory extensions =
     (Raises ValueError ("Directory '" +:+ directory +:+ "' does not exist"),
      self)) ∧
  (∀ files self',
     get_files depth os self directory extensions = (Returns files, self') →
     ascending files ∧
     exclude_patterns self' = exclude_patterns self ∧
     ∀ p, p ∈ files →
       ∃ root rel entries filename,
         scandir os root = Returns entries ∧ (filename, false) ∈ entries ∧
         relpath os root directory = Returns rel ∧
         p = path_join os (if String.eqb rel "." then "" else rel) filename ∧
         should_exclude self p = false ∧
         get_files_keeps extensions filename = true).
Proof.
  unfold get_files. split.
  - by intros ->.
  - intros files self'. destruct (path_exists os directory); [|done]. simpl.
    pose proof (get_files_walk_extends depth directory
                  (clear_visited_paths self) []) as (Hpat & new & Hnew & Hf).
    destruct (get_files_walk depth os directory extensions directory
                (clear_visited_paths self) []) as [[[]|c e] [s1 f1]];
      [|done]. simpl in *. intros [= <- <-]. subst f1.
    split; [apply sorted_ascending|]. split; [done|].
    intros p Hp. rewrite sorted_perm in Hp.
    destruct (Hf p Hp) as (root & rel & entries & filename & ? & ? & ? & ? & Hx & ?).
    exists root, rel, entries, filename. repeat (split; [done|]). done.
Qed.

(** X22.  [get_files] starts from a cleared session: called again on
    the handler it leaves, it gives the same result and leaves the same
    handler; and two handlers with the same patterns give the same
    result, whatever they visited before. *)
Theorem get_files_repeatable (depth : nat) (self : t) :
  let r := get_files depth os self directory extensions in
  get_files depth os r.2 directory extensions = r ∧
  ∀ self2, exclude_patterns self2 = exclude_patterns self →
    (get_files depth os self2 directory extensions).1 = r.1.
Proof.
  assert (∀ a b, exclude_patterns a = exclude_patterns b →
                 clear_visited_paths a = clear_visited_paths b) as Hclear.
  { intros a b E. unfold clear_visited_paths. by rewrite E. }
  simpl. unfold get_files. destruct (path_exists os directory) eqn:Hex; simpl.
  2:{ split; [done|]. by intros. }
  pose proof (get_files_walk_extends depth directory
                (clear_visited_paths self) []) as (Hpat & _).
  split.
  - destruct (get_files_walk depth os directory extensions directory
                (clear_visited_paths self) []) as [[[]|c e] [s1 f1]] eqn:E;
      simpl in *; rewrite (Hclear s1 self) by done; by rewrite E.
  - intros self2 E2. by rewrite (Hclear self2 self).
Qed.

Lemma walk_dirs_returns walk top ds self files :
  (∀ d s f, d ∈ ds → islink os (path_join os top d) = false →
     ∃ s' f', walk (path_join os top d) s f = (Returns tt, (s', f'))) →
  ∃ s' f', walk_dirs walk os top ds self files = (Returns tt, (s', f')).
Proof.
  revert self files. induction ds as [|d ds IH]; intros self files Hw; simpl.
  - by eexists _, _.
  - destruct (islink os (path_join os top d)) eqn:Hl.
    + apply IH. intros d' s f Hd'. apply Hw. by right.
    + destruct (Hw d self files ltac:(by left) Hl) as (s1 & f1 & ->).
      apply IH. intros d' s f Hd'. apply Hw. by right.
Qed.

Lemma get_files_walk_returns depth top self files :
  (∀ root, ∃ rel, relpath os root directory = Returns rel) →
  walk_fits depth os top = true →
  ∃ s' f', get_files_walk depth os directory extensions top self files =
             (Returns tt, (s', f')).
Proof.
  intros Hrel. revert top self files.
  induction depth as [|depth IH]; intros top self files; [done|]. simpl.
  destruct (scandir os top) as [entries|c e] eqn:Hscan; [|by eexists _, _].
  rewrite forallb_forall. intros Hfit.
  assert (∀ d s f, d ∈ map fst (List.filter snd entries) →
            islink os (path_join os top d) = false →
            ∃ s' f', get_files_walk depth os directory extensions
                       (path_join os top d) s f = (Returns tt, (s', f'))) as Hw.
  { intros d s f Hd Hl. apply IH.
    apply list_elem_of_fmap in Hd as ([n b] & -> & Hin).
    apply list_elem_of_In, filter_In in Hin as [Hin Hb]. simpl in *. subst b.
    specialize (Hfit _ Hin). simpl in Hfit. by rewrite Hl in Hfit. }
  destruct (is_safe_path os self top) as [[[|]|c e] self1].
  - destruct (Hrel top) as [rel ->]. apply walk_dirs_returns.
    intros d s f Hd. apply Hw.
    apply list_elem_of_In, filter_In in Hd as [Hd _]. by apply list_elem_of_In.
  - by apply walk_dirs_returns.
  - by apply walk_dirs_returns.
Qed.

(** X23.  [get_files] returns a list when the directory exists, the
    directories below it, symbolic links not followed, nest no deeper
    than [depth], and [os.path.relpath] answers. *)
Theorem get_files_returns (depth : nat) (self : t) :
  path_exists os directory = true →
  walk_fits depth os directory = true →
  (∀ root, ∃ rel, relpath os root directory = Returns rel) →
  ∃ files self',
    get_files depth os self directory extensions = (Returns files, self').
Proof.
  intros Hex Hfit Hrel. unfold get_files. rewrite Hex. simpl.
  destruct (get_files_walk_returns depth directory (clear_visited_paths self) []
              Hrel Hfit) as (s' & f' & ->).
  by eexists _, _.
Qed.

End GetFiles.


Lemma get_files_returns_witness :
  ∃ files self',
    FileWalk.get_files 3 (Toy.os Toy.repo) (FileHandler.init None) "/repo" [".py"] =
      (Returns files, self').
Proof.
  apply (get_files_returns (Toy.os Toy.repo) "/repo" [".py"] 3 (FileHandler.init None)).
  - reflexivity.
  - reflexivity.
  - intros root. simpl. unfold Toy.rel.
    destruct (String.eqb root "/repo"); [by eexists|].
    destruct (PyStr.startswith root _); by eexists.
Defined.
